(** * camara-abierta: affiliation timeline and hemicycle seat layout

    A shallow embedding of the algorithmic pieces of the application:

    - the helpers of the [@/types] module ([normalizeMilitancias],
      [getCurrentMilitancia], [mergeSequentialMilitancias],
      [arePeriodsSequential]);
    - the seat computation of [ParliamentChart]
      (components/parliament-chart.tsx), in its current form and in the
      older form kept in the same file;
    - what the screens compute from a deputy (the history card, the line
      of parties, the full name, the age) and the size of a seat;
    - the log, the counters and the array extraction of
      [CongressAPIService], and the screens that read its counters.

    JavaScript values are embedded as follows.  A time value (the result of
    [Date.prototype.getTime]) is an integral number of milliseconds or NaN:
    [option Z], with [None] for NaN.  Counts and indices are [Z] or [nat].
    Seat coordinates and angles are IEEE binary64 numbers: Rocq's primitive
    floats.  The object the chart groups parties in is modelled with what
    the language gives it: its own properties, listed by [Object.entries]
    with the keys that are array indices first, in ascending order, and
    the other keys after them in the order they were created; and the
    properties it inherits from [Object.prototype], which [acc[partyId]]
    finds when there is no own one.  The prototype objects are the state
    the chart shares with the rest of the process: they start as the
    language defines them, and the one thing the program writes to them
    is the [count] that [acc[partyId].count++] gives an inherited value.
    A dereference of [undefined], the one way the chart can throw, is an
    explicit error result.  The clock is an input: the [i]-th call of
    [getCurrentMilitancia] made by a chart reads
    [clock i]. *)

From Stdlib Require Import List ZArith Lia Bool String Ascii QArith.
From Stdlib Require Import Permutation Sorted Floats.
Import ListNotations.

Set Warnings "-inexact-float".

Local Open Scope Z_scope.

(* ------------------------------------------------------------------ *)
(** * Built-ins of the host language *)

Module JS.

(** The sign of the number a comparator returns; [Array.prototype.sort]
  reads a NaN result as [+0]. *)
Definition sign_of_diff (x y : option Z) : comparison :=
match x, y with
| Some a, Some b => Z.compare (a - b) 0
| _, _ => Eq
end.

Section Sort.
Context {A : Type}.
Variable cmp : A -> A -> comparison.

(** [Array.prototype.sort] is stable.  [x] precedes every element of [l]
  in the input and keeps that place among the elements it does not
  compare greater than.  A comparator that returns NaN for some pairs
  and a sign for others is not a consistent comparator, and the order an
  engine then takes is implementation-defined: this is one such order,
  and the order every engine takes when the comparator is consistent. *)
Fixpoint insert (x : A) (l : list A) : list A :=
match l with
| [] => [x]
| y :: l' =>
    match cmp x y with
    | Gt => y :: insert x l'
    | _ => x :: l
    end
end.

Definition sort (l : list A) : list A := fold_right insert [] l.
End Sort.

(** [arr[arr.length - 1]] *)
Definition last_elt {A : Type} (l : list A) : option A :=
match rev l with
| [] => None
| x :: _ => Some x
end.

(** [x || d] on strings: the empty string is falsy. *)
Definition str_or (x d : string) : string :=
if String.eqb x EmptyString then d else x.

End JS.

(* ------------------------------------------------------------------ *)
(** * The [@/types] module *)

Record Partido := mkPartido {
  Id : string;
  Nombre : string;
  Alias : string
}.

Module Militancia.
Record t := mk {
  FechaInicio : string;
  FechaTermino : string;
  Partido : Partido
}.
End Militancia.

(** [Militancias.Militancia] is one membership or an array of them. *)
Inductive Militancias :=
| Single (m : Militancia.t)
| Many (ms : list Militancia.t).

Record Diputado := mkDiputado {
  DiputadoId : Z;
  DiputadoNombre : string;
  Nombre2 : string;
  ApellidoPaterno : string;
  ApellidoMaterno : string;
  FechaNacimiento : string;
  RUT : string;
  RUTDV : string;
  Sexo : string;
  DiputadoMilitancias : Militancias
}.

Module MergedMilitancia.
Record t := mk {
  Partido : Partido;
  FechaInicio : string;
  FechaTermino : string;
  periodCount : Z;
  originalMilitancias : list Militancia.t
}.
End MergedMilitancia.

Record DiputadoPeriodo := mkDiputadoPeriodo {
  Diputado_of : Diputado;
  Region : option (string * string);
  Circunscripcion : option (string * string);
  Email : option string;
  IdPeriodo : option Z
}.

Definition normalizeMilitancias (militancias : Militancias)
  : list Militancia.t :=
  match militancias with
  | Many ms => ms
  | Single m => [m]
  end.

Section Dates.
(** [getTime s] stands for [new Date(s).getTime()]: the time value of the
    date string, [None] when the string does not parse (NaN). *)
Variable getTime : string -> option Z.

(** [now >= inicio && now <= termino]; a comparison with NaN is false. *)
Definition containsNow (now : Z) (m : Militancia.t) : bool :=
  match getTime (Militancia.FechaInicio m),
        getTime (Militancia.FechaTermino m) with
  | Some inicio, Some termino => (now >=? inicio) && (now <=? termino)
  | _, _ => false
  end.

Definition getCurrentMilitancia (now : Z) (diputado : Diputado)
  : option Militancia.t :=
  let militancias := normalizeMilitancias (DiputadoMilitancias diputado) in
  find (containsNow now) militancias.

(** [diffInMs / (1000 * 60 * 60 * 24)] is kept as an exact rational: the
    difference of two time values and its quotient by one day, as binary64
    numbers, stand on the same side of 0 and of 1 as the exact ones. *)
Definition arePeriodsSequential (endDate startDate : string) : bool :=
  match getTime endDate, getTime startDate with
  | Some e, Some s =>
      let diffInMs := s - e in
      let diffInDays := (inject_Z diffInMs / inject_Z (1000 * 60 * 60 * 24))%Q in
      Qle_bool 0 diffInDays && Qle_bool diffInDays 1
  | _, _ => false
  end.

Definition compareByStart (a b : Militancia.t) : comparison :=
  JS.sign_of_diff (getTime (Militancia.FechaInicio a))
                  (getTime (Militancia.FechaInicio b)).

Definition freshMerged (militancia : Militancia.t) : MergedMilitancia.t :=
  {| MergedMilitancia.Partido := Militancia.Partido militancia;
     MergedMilitancia.FechaInicio := Militancia.FechaInicio militancia;
     MergedMilitancia.FechaTermino := Militancia.FechaTermino militancia;
     MergedMilitancia.periodCount := 1;
     MergedMilitancia.originalMilitancias := [militancia] |}.

Definition extendMerged (lastMerged : MergedMilitancia.t)
    (militancia : Militancia.t) : MergedMilitancia.t :=
  {| MergedMilitancia.Partido := MergedMilitancia.Partido lastMerged;
     MergedMilitancia.FechaInicio := MergedMilitancia.FechaInicio lastMerged;
     MergedMilitancia.FechaTermino := Militancia.FechaTermino militancia;
     MergedMilitancia.periodCount :=
       MergedMilitancia.periodCount lastMerged + 1;
     MergedMilitancia.originalMilitancias :=
       MergedMilitancia.originalMilitancias lastMerged ++ [militancia] |}.

(** One iteration of the [for ... of sorted] loop.  The last entry of
    [merged] is updated in place when the period continues it. *)
Definition mergeStep (merged : list MergedMilitancia.t)
    (militancia : Militancia.t) : list MergedMilitancia.t :=
  match JS.last_elt merged with
  | Some lastMerged =>
      if String.eqb (Id (MergedMilitancia.Partido lastMerged))
                    (Id (Militancia.Partido militancia))
         && arePeriodsSequential (MergedMilitancia.FechaTermino lastMerged)
                                 (Militancia.FechaInicio militancia)
      then removelast merged ++ [extendMerged lastMerged militancia]
      else merged ++ [freshMerged militancia]
  | None => merged ++ [freshMerged militancia]
  end.

Definition sortedMilitancias (militancias : Militancias)
  : list Militancia.t :=
  JS.sort compareByStart (normalizeMilitancias militancias).

Definition mergeSequentialMilitancias (militancias : Militancias)
  : list MergedMilitancia.t :=
  fold_left mergeStep (sortedMilitancias militancias) [].
End Dates.

(** A reading of the two ISO 8601 shapes used in the examples below,
    [YYYY-MM-DD] and [YYYY-MM-DDTHH:MM:SSZ], both UTC. *)
Module Iso.
Definition digit (c : ascii) : option Z :=
  let n := Z.of_nat (nat_of_ascii c) in
  if (48 <=? n) && (n <=? 57) then Some (n - 48) else None.

Fixpoint digits (acc : Z) (l : list ascii) : option Z :=
  match l with
  | [] => Some acc
  | c :: l' =>
      match digit c with
      | Some d => digits (10 * acc + d) l'
      | None => None
      end
  end.

Definition number (l : list ascii) : option Z :=
  match l with [] => None | _ => digits 0 l end.

Definition isLeap (y : Z) : bool :=
  ((y mod 4 =? 0) && negb (y mod 100 =? 0)) || (y mod 400 =? 0).

Definition daysInMonth (y m : Z) : Z :=
  if m =? 2 then (if isLeap y then 29 else 28)
  else if (m =? 4) || (m =? 6) || (m =? 9) || (m =? 11) then 30 else 31.

(** Days from 1970-01-01 to the civil date. *)
Definition daysFromCivil (y m d : Z) : Z :=
  let y' := if m <=? 2 then y - 1 else y in
  let era := y' / 400 in
  let yoe := y' - era * 400 in
  let mp := if m >? 2 then m - 3 else m + 9 in
  let doy := (153 * mp + 2) / 5 + d - 1 in
  let doe := yoe * 365 + yoe / 4 - yoe / 100 + doy in
  era * 146097 + doe - 719468.

Definition date (y m d : list ascii) : option Z :=
  match number y, number m, number d with
  | Some y, Some m, Some d =>
      if (1 <=? m) && (m <=? 12) && (1 <=? d) && (d <=? daysInMonth y m)
      then Some (daysFromCivil y m d * 86400000)
      else None
  | _, _, _ => None
  end.

Definition clock (h m s : list ascii) : option Z :=
  match number h, number m, number s with
  | Some h, Some m, Some s =>
      if (h <=? 23) && (m <=? 59) && (s <=? 59)
      then Some (((h * 60 + m) * 60 + s) * 1000)
      else None
  | _, _, _ => None
  end.

Definition getTime (s : string) : option Z :=
  match list_ascii_of_string s with
  | [y1; y2; y3; y4; "-"; m1; m2; "-"; d1; d2]%char =>
      date [y1; y2; y3; y4] [m1; m2] [d1; d2]
  | [y1; y2; y3; y4; "-"; m1; m2; "-"; d1; d2; "T";
     h1; h2; ":"; n1; n2; ":"; s1; s2; "Z"]%char =>
      match date [y1; y2; y3; y4] [m1; m2] [d1; d2],
            clock [h1; h2] [n1; n2] [s1; s2] with
      | Some d, Some t => Some (d + t)
      | _, _ => None
      end
  | _ => None
  end.
End Iso.

(* ------------------------------------------------------------------ *)
(** * components/parliament-chart.tsx *)

(** The chart throws only by reading a property of [undefined]. *)
Inductive result (A : Type) : Type :=
| Ok (a : A)
| TypeError.
Arguments Ok {A} a.
Arguments TypeError {A}.

Definition bind {A B : Type} (r : result A) (k : A -> result B) : result B :=
  match r with
  | Ok a => k a
  | TypeError => TypeError
  end.

Notation "x <- r ;; k" := (bind r (fun x => k))
  (at level 61, r at next level, right associativity).

(** Reading a property of a possibly undefined value. *)
Definition deref {A : Type} (o : option A) : result A :=
  match o with
  | Some a => Ok a
  | None => TypeError
  end.

Inductive Alignment := left | center | right.

Definition Alignment_eqb (a b : Alignment) : bool :=
  match a, b with
  | left, left | center, center | right, right => true
  | _, _ => false
  end.

Local Open Scope string_scope.
Local Open Scope list_scope.

Definition PARTY_COLORS : list (string * string) :=
  [ ("PNL", "#00008B"); ("PREP", "#0066CC"); ("UDI", "#1E90FF");
    ("RN", "#0080FF"); ("EVOP", "#4169E1");
    ("DEM", "#87CEEB"); ("DC", "#FFA500"); ("AMA", "#FFFF00");
    ("PSC", "#FF8C00"); ("PPD", "#FF6347"); ("PS", "#DC143C");
    ("PR", "#FF4500"); ("LIBERAL", "#C71585"); ("PAH", "#FF69B4");
    ("PH", "#FF1493");
    ("PC", "#B22222"); ("FA", "#9932CC"); ("CS", "#8B008B");
    ("PEV", "#4B0082");
    ("FRVS", "#228B22");
    ("IND", "#808080");
    ("DEFAULT", "#A9A9A9") ].

Definition PARTY_ALIGNMENT : list (string * Alignment) :=
  [ ("PC", left); ("FA", left); ("CS", left); ("PEV", left);
    ("PS", left); ("PPD", left); ("PR", left); ("LIBERAL", left);
    ("PAH", left); ("PH", left); ("PSC", center);
    ("DC", center); ("AMA", center); ("DEM", center);
    ("EVOP", right); ("RN", right); ("UDI", right); ("PREP", right);
    ("PNL", right);
    ("FRVS", center); ("IND", center) ].

(** [obj[key]] on an object used as a dictionary. *)
Fixpoint lookup {V : Type} (key : string) (obj : list (string * V))
  : option V :=
  match obj with
  | [] => None
  | (k, v) :: obj' => if String.eqb key k then Some v else lookup key obj'
  end.

Definition orDefault {V : Type} (o : option V) (d : V) : V :=
  match o with
  | Some v => v
  | None => d
  end.

Record PartyGroup := mkPartyGroup {
  partyName : string;
  partyAlias : string;
  count : Z;
  color : string;
  alignment : Alignment
}.

Definition PartyGroups := list (string * PartyGroup).

(** [acc[partyId].count++] *)
Fixpoint incrCount (partyId : string) (acc : PartyGroups) : PartyGroups :=
  match acc with
  | [] => []
  | (k, g) :: acc' =>
      if String.eqb partyId k
      then (k, {| partyName := partyName g; partyAlias := partyAlias g;
                  count := count g + 1; color := color g;
                  alignment := alignment g |}) :: acc'
      else (k, g) :: incrCount partyId acc'
  end.

(** [currentParty?.Partido.Alias || "IND"] *)
Definition partyIdOf (currentParty : option Militancia.t) : string :=
  match currentParty with
  | Some m => JS.str_or (Alias (Militancia.Partido m)) "IND"
  | None => "IND"
  end.

(** [currentParty?.Partido.Nombre || "Independiente"] *)
Definition partyNameOf (currentParty : option Militancia.t) : string :=
  match currentParty with
  | Some m => JS.str_or (Nombre (Militancia.Partido m)) "Independiente"
  | None => "Independiente"
  end.

Definition defaultColor : string :=
  orDefault (lookup "DEFAULT" PARTY_COLORS) "".

(** ** The object [partyGroups]

    The [reduce] starts from [{}].  [PartyGroups] holds the own
    properties of that object in the order [Object.entries] lists them. *)

(** The names every object inherits from [Object.prototype]; each holds
    a function, or the prototype itself: a truthy value. *)
Definition inheritedNames : list string :=
  [ "constructor"; "__proto__"; "hasOwnProperty"; "isPrototypeOf";
    "propertyIsEnumerable"; "toLocaleString"; "toString"; "valueOf";
    "__defineGetter__"; "__defineSetter__"; "__lookupGetter__";
    "__lookupSetter__" ].

Definition inherited (key : string) : bool :=
  existsb (String.eqb key) inheritedNames.

(** The state shared with the rest of the process: the inherited names
    whose value [acc[partyId].count++] has given a [count].  The count is
    NaN ([undefined + 1]) and stays NaN. *)
Definition Heap := list string.

(** Under "__proto__" the value is [Object.prototype] itself: once it is
    counted, every object inherits a property "count". *)
Definition prototypeCounted (heap : Heap) : bool :=
  existsb (String.eqb "__proto__") heap.

(** What an object finds on its prototype under a key it does not own. *)
Inductive Inheritance :=
| Builtin
| CountNaN
| Nothing.

Definition fromPrototype (heap : Heap) (key : string) : Inheritance :=
  if inherited key then Builtin
  else if String.eqb key "count" && prototypeCounted heap then CountNaN
  else Nothing.

(** [!v] for an inherited value: a function or an object is truthy, NaN
    and [undefined] are falsy. *)
Definition absent (v : Inheritance) : bool :=
  match v with
  | Builtin => false
  | CountNaN | Nothing => true
  end.

(** The array index a key spells: "0", or digits that do not start with
    0, for a number below 2^32 - 1. *)
Definition arrayIndex (key : string) : option Z :=
  match list_ascii_of_string key with
  | [] => None
  | ["0"%char] => Some 0%Z
  | "0"%char :: _ => None
  | l =>
      match Iso.digits 0 l with
      | Some n => if (n <? 2 ^ 32 - 1)%Z then Some n else None
      | None => None
      end
  end.

(** [acc[key] = group] for a key [acc] does not own: an array index
    goes after the smaller indices, any other key at the end. *)
Fixpoint defineIndexed (i : Z) (key : string) (group : PartyGroup)
    (acc : PartyGroups) : PartyGroups :=
  match acc with
  | [] => [(key, group)]
  | (k, g) :: acc' =>
      match arrayIndex k with
      | Some j =>
          if (j <? i)%Z then (k, g) :: defineIndexed i key group acc'
          else (key, group) :: acc
      | None => (key, group) :: acc
      end
  end.

Definition defineOwn (key : string) (group : PartyGroup)
    (acc : PartyGroups) : PartyGroups :=
  match arrayIndex key with
  | Some i => defineIndexed i key group acc
  | None => acc ++ [(key, group)]
  end.

(** The group made for a party met for the first time.  It is made only
    when [acc[partyId]] is falsy, so [partyId] is none of
    [inheritedNames] and the two tables, object literals themselves, hand
    down nothing truthy for it: a missing entry gives the default. *)
Definition newGroup (currentParty : option Militancia.t) : PartyGroup :=
  let partyId := partyIdOf currentParty in
  {| partyName := partyNameOf currentParty;
     partyAlias := partyId;
     count := 0;
     color := orDefault (lookup partyId PARTY_COLORS) defaultColor;
     alignment := orDefault (lookup partyId PARTY_ALIGNMENT) center |}.

(** The body of the [reduce] callback, given the party found for [leg].
    When [acc[partyId]] is an inherited function or object no group is
    made, and [acc[partyId].count++] writes to that value. *)
Definition groupStep (st : Heap * PartyGroups)
    (currentParty : option Militancia.t) : Heap * PartyGroups :=
  let (heap, acc) := st in
  let partyId := partyIdOf currentParty in
  match lookup partyId acc with
  | Some _ => (heap, incrCount partyId acc)
  | None =>
      if absent (fromPrototype heap partyId)
      then (heap,
            incrCount partyId
              (defineOwn partyId (newGroup currentParty) acc))
      else (heap ++ [partyId], acc)
  end.

Definition byCountDesc (a b : string * PartyGroup) : comparison :=
  Z.compare (count (snd b) - count (snd a)) 0.

Definition hasAlignment (al : Alignment) (e : string * PartyGroup) : bool :=
  Alignment_eqb (alignment (snd e)) al.

Definition leftParties (partyGroups : PartyGroups) : PartyGroups :=
  JS.sort byCountDesc (filter (hasAlignment left) partyGroups).

Definition centerParties (partyGroups : PartyGroups) : PartyGroups :=
  JS.sort byCountDesc (filter (hasAlignment center) partyGroups).

Definition rightParties (partyGroups : PartyGroups) : PartyGroups :=
  JS.sort byCountDesc (filter (hasAlignment right) partyGroups).

Definition sortedParties (partyGroups : PartyGroups) : PartyGroups :=
  leftParties partyGroups ++ centerParties partyGroups
    ++ rev (rightParties partyGroups).

Definition rows : Z := 5.
Definition baseSeatsPerRow : Z := 20.

(** [Array.from({ length: rows }, (_, i) => Math.round(20 + i * 8))];
    rounding an integer leaves it unchanged. *)
Definition nominalSeatsPerRow : list Z :=
  map (fun i => baseSeatsPerRow + Z.of_nat i * 8) (seq 0 (Z.to_nat rows)).

(** [arr[index] += d]; the index is in range wherever this is used. *)
Fixpoint addAt (index : nat) (d : Z) (arr : list Z) : list Z :=
  match arr, index with
  | [], _ => []
  | v :: arr', O => (v + d) :: arr'
  | v :: arr', S i => v :: addAt i d arr'
  end.

Definition seatsPerRowArray (totalSeats : Z) : list Z :=
  let totalCalculated := fold_left Z.add nominalSeatsPerRow 0%Z in
  let adjustment := (totalSeats - totalCalculated)%Z in
  addAt (Z.to_nat (rows - 1)) adjustment nominalSeatsPerRow.

Record Position := mkPosition { x : float; y : float; angle : float }.

Record Seat := mkSeat {
  seat_x : float;
  seat_y : float;
  seat_color : string;
  seat_partyAlias : string
}.

Definition Math_PI : float := 0x1.921fb54442d18p+1%float.

(** An integer as a number; exact below 2^53. *)
Definition num (z : Z) : float :=
  if (z <? 0)%Z then PrimFloat.opp (PrimFloat.of_uint63 (Uint63.of_Z (- z)))
  else PrimFloat.of_uint63 (Uint63.of_Z z).

(** The sign [Array.prototype.sort] reads off a comparator's result. *)
Definition signOf (d : float) : comparison :=
  if PrimFloat.ltb d 0 then Lt
  else if PrimFloat.ltb 0 d then Gt
  else Eq.

Definition byAngleDesc (a b : Position) : comparison :=
  signOf (PrimFloat.sub (angle b) (angle a)).

Record LoopState := mkLoopState {
  currentPartyIndex : nat;
  currentPartySeats : Z;
  currentPartyData : option PartyGroup;
  seats : list Seat
}.

(** "Move to next party if current is full", then the [push] and the
    increment: what both charts do for a seat at [(px, py)]. *)
Definition placeSeat (parties : PartyGroups) (px py : float) (st : LoopState)
  : result LoopState :=
  cur <- deref (currentPartyData st) ;;
  let st1 :=
    if (currentPartySeats st >=? count cur)%Z then
      let index := S (currentPartyIndex st) in
      match nth_error parties index with
      | Some (_, next) => mkLoopState index 0 (Some next) (seats st)
      | None =>
          mkLoopState index (currentPartySeats st) (currentPartyData st)
                      (seats st)
      end
    else st in
  data <- deref (currentPartyData st1) ;;
  Ok (mkLoopState (currentPartyIndex st1)
                  (currentPartySeats st1 + 1)
                  (currentPartyData st1)
                  (seats st1 ++ [mkSeat px py (color data) (partyAlias data)])).

(** [let [, currentPartyData] = sortedParties[0] || ["IND", partyGroups["IND"]]] *)
Definition initialState (parties partyGroups : PartyGroups) : LoopState :=
  mkLoopState 0 0
    (match nth_error parties 0 with
     | Some (_, g) => Some g
     | None => lookup "IND" partyGroups
     end)
    [].

Section Chart.
Variable getTime : string -> option Z.
(** The [i]-th call of [getCurrentMilitancia] reads [clock i]. *)
Variable clock : nat -> Z.
Variables Math_cos Math_sin : float -> float.

(** The party of the legislator visited [i]-th by the [reduce]. *)
Definition currentPartyAt (i : nat) (leg : DiputadoPeriodo)
  : option Militancia.t :=
  getCurrentMilitancia getTime (clock i) (Diputado_of leg).

Fixpoint groupFrom (i : nat) (st : Heap * PartyGroups)
    (legislators : list DiputadoPeriodo) : Heap * PartyGroups :=
  match legislators with
  | [] => st
  | leg :: rest =>
      groupFrom (S i) (groupStep st (currentPartyAt i leg)) rest
  end.

(** The groups the [reduce] returns when it starts in [heap], and the
    state it leaves. *)
Definition partyGroupsOf (heap : Heap) (legislators : list DiputadoPeriodo)
  : PartyGroups :=
  snd (groupFrom 0 (heap, []) legislators).

Definition heapAfter (heap : Heap) (legislators : list DiputadoPeriodo)
  : Heap :=
  fst (groupFrom 0 (heap, []) legislators).

(** The inner [for] loop of one row. *)
Definition rowPositions (size : float) (row : Z) (seatsInRow : Z)
  : list Position :=
  let radius := (size / 2 * (0.5 + num row * 0.12))%float in
  map (fun seat : nat =>
         let angle :=
           (Math_PI * (1 - num (Z.of_nat seat) / num (seatsInRow - 1)))%float in
         let x := (size / 2 + radius * Math_cos angle)%float in
         let y := (size / 2 - radius * Math_sin angle)%float in
         mkPosition x y angle)
      (seq 0 (Z.to_nat seatsInRow)).

Fixpoint positionsFrom (size : float) (row : Z) (perRow : list Z)
  : list Position :=
  match perRow with
  | [] => []
  | seatsInRow :: perRow' =>
      rowPositions size row seatsInRow
        ++ positionsFrom size (row + 1) perRow'
  end.

Definition allPositions (size : float) (totalSeats : Z) : list Position :=
  JS.sort byAngleDesc (positionsFrom size 0 (seatsPerRowArray totalSeats)).

(** The assignment loop from index [i], for [n] more iterations. *)
Fixpoint assignFrom (parties : PartyGroups) (positions : list Position)
    (n : nat) (i : nat) (st : LoopState) : result LoopState :=
  match n with
  | O => Ok st
  | S n' =>
      position <- deref (nth_error positions i) ;;
      st' <- placeSeat parties (x position) (y position) st ;;
      assignFrom parties positions n' (S i) st'
  end.

(** The seats and the legend the component renders when it starts in
    [heap]; [size] defaults to 300.  The state it leaves, also when it
    throws, is [heapAfter heap legislators]. *)
Definition ParliamentChart (heap : Heap) (legislators : list DiputadoPeriodo)
    (size : option float) : result (list Seat * PartyGroups) :=
  let size := orDefault size 300%float in
  let partyGroups := partyGroupsOf heap legislators in
  let parties := sortedParties partyGroups in
  let totalSeats := List.length legislators in
  let positions := allPositions size (Z.of_nat totalSeats) in
  st <- assignFrom parties positions totalSeats 0
          (initialState parties partyGroups) ;;
  Ok (seats st, parties).
End Chart.

(** ** The older chart kept in the same file *)

(** [Math.ceil] of a finite number, read off its binary expansion.  The
    older chart applies it to small non-negative quotients and products
    only; an infinity or NaN is sent to 0 here. *)
Definition Math_ceil (f : float) : Z :=
  match Prim2SF f with
  | S754_finite s m e =>
      if (0 <=? e)%Z then
        (if s then - (Zpos m * 2 ^ e) else Zpos m * 2 ^ e)%Z
      else
        let d := (2 ^ (- e))%Z in
        (if s then - (Zpos m / d) else (Zpos m + d - 1) / d)%Z
  | _ => 0%Z
  end.

Module Legacy.
(** The older grouping builds the same records without the alignment,
    which the older chart never reads. *)
Definition sortedParties (partyGroups : PartyGroups) : PartyGroups :=
  JS.sort byCountDesc partyGroups.

(** [Math.ceil(totalSeats / rows)] *)
Definition seatsPerRow (totalSeats : Z) : Z :=
  Math_ceil (num totalSeats / num rows)%float.

(** [Math.ceil(seatsPerRow * (1 + row * 0.2))] *)
Definition seatsInRowOf (seatsPerRow row : Z) : Z :=
  Math_ceil (num seatsPerRow * (1 + num row * 0.2))%float.

Section Chart.
Variable getTime : string -> option Z.
Variable clock : nat -> Z.
Variables Math_cos Math_sin : float -> float.

(** The inner [for] loop: it stops at the first seat index for which
    [seats.length < totalSeats] fails. *)
Fixpoint fillRow (parties : PartyGroups) (size : float)
    (row seatsInRow : Z) (totalSeats : nat) (seatIndices : list nat)
    (st : LoopState) : result LoopState :=
  match seatIndices with
  | [] => Ok st
  | seat :: rest =>
      if (List.length (seats st) <? totalSeats)%nat then
        let radius := (size / 2 * (0.4 + num row * 0.15))%float in
        let angle :=
          (- Math_PI
           + num (Z.of_nat seat) / num (seatsInRow - 1) * Math_PI)%float in
        let x := (size / 2 + radius * Math_cos angle)%float in
        let y := (size / 2 + radius * Math_sin angle)%float in
        st' <- placeSeat parties x y st ;;
        fillRow parties size row seatsInRow totalSeats rest st'
      else Ok st
  end.

(** The outer [for] loop over the rows listed in [rowIndices]. *)
Fixpoint fillRows (parties : PartyGroups) (size : float)
    (perRow : Z) (totalSeats : nat) (rowIndices : list nat)
    (st : LoopState) : result LoopState :=
  match rowIndices with
  | [] => Ok st
  | row :: rest =>
      let seatsInRow := seatsInRowOf perRow (Z.of_nat row) in
      st' <- fillRow parties size (Z.of_nat row) seatsInRow totalSeats
               (seq 0 (Z.to_nat seatsInRow)) st ;;
      fillRows parties size perRow totalSeats rest st'
  end.

Definition ParliamentChart (heap : Heap) (legislators : list DiputadoPeriodo)
    (size : option float) : result (list Seat * PartyGroups) :=
  let size := orDefault size 300%float in
  let partyGroups := partyGroupsOf getTime clock heap legislators in
  let parties := sortedParties partyGroups in
  let totalSeats := List.length legislators in
  let perRow := seatsPerRow (Z.of_nat totalSeats) in
  st <- fillRows parties size perRow totalSeats
          (seq 0 (Z.to_nat rows)) (initialState parties partyGroups) ;;
  Ok (seats st, parties).

(** The seats the five rows can hold for a given total. *)
Definition capacity (totalSeats : Z) : Z :=
  fold_right
    (fun row acc =>
       (Z.max 0 (seatsInRowOf (seatsPerRow totalSeats) (Z.of_nat row))
        + acc)%Z)
    0%Z (seq 0 (Z.to_nat rows)).
End Chart.
End Legacy.

(* ------------------------------------------------------------------ *)
(** * The screens that show a deputy *)




Section Screens.
Variable getTime : string -> option Z.

(** [x >= y] and [x <= y] on time values; false when either is NaN. *)
Definition timeGe (x y : option Z) : bool :=
  match x, y with
  | Some a, Some b => (a >=? b)%Z
  | _, _ => false
  end.

Definition timeLe (x y : option Z) : bool :=
  match x, y with
  | Some a, Some b => (a <=? b)%Z
  | _, _ => false
  end.

(** app/legislator/[id].tsx, the history card.  Its comparator is
    [new Date(b.FechaInicio).getTime() - new Date(a.FechaInicio).getTime()]. *)
Definition compareByStartDesc (a b : MergedMilitancia.t) : comparison :=
  JS.sign_of_diff (getTime (MergedMilitancia.FechaInicio b))
                  (getTime (MergedMilitancia.FechaInicio a)).

(** The flag behind the badge ACTUAL of a row of the card. *)
Definition isCurrent (currentParty : option Militancia.t)
    (militancia : MergedMilitancia.t) : bool :=
  match currentParty with
  | Some currentParty =>
      existsb
        (fun m =>
           String.eqb (Id (Militancia.Partido m))
                      (Id (Militancia.Partido currentParty))
           && timeGe (getTime (Militancia.FechaInicio currentParty))
                     (getTime (Militancia.FechaInicio m))
           && timeLe (getTime (Militancia.FechaTermino currentParty))
                     (getTime (Militancia.FechaTermino m)))
        (MergedMilitancia.originalMilitancias militancia)
  | None => false
  end.

(** The rows of the card, each with its flag; [None] when the card is
    not drawn ([mergedMilitancias.length > 0] fails). *)
Definition partyHistory (now : Z) (diputado : Diputado)
  : option (list (MergedMilitancia.t * bool)) :=
  let currentParty := getCurrentMilitancia getTime now diputado in
  let mergedMilitancias :=
    mergeSequentialMilitancias getTime (DiputadoMilitancias diputado) in
  if (0 <? List.length mergedMilitancias)%nat then
    Some (map (fun militancia =>
                 (militancia, isCurrent currentParty militancia))
              (JS.sort compareByStartDesc mergedMilitancias))
  else None.

(** app/(tabs)/legislators.tsx, the line of a card that reads
    "n partidos politicos": drawn when [mergedMilitancias.length > 1],
    with [n = mergedMilitancias.length]. *)
Definition partiesLine (diputado : Diputado) : option nat :=
  let mergedMilitancias :=
    mergeSequentialMilitancias getTime (DiputadoMilitancias diputado) in
  if (1 <? List.length mergedMilitancias)%nat
  then Some (List.length mergedMilitancias)
  else None.
End Screens.

(* ------------------------------------------------------------------ *)
(** * services/CongressAPIService

    The service keeps a log and two counters.  What a call reads from
    outside the program (the clock behind a timestamp or an elapsed time,
    the response of the server, the parser's verdict) is an argument of
    its model, already printed where the code only prints it.  Writes to
    the console are left out. *)


Module CongressAPIService.

Record LogEntry := mkLogEntry {
  timestamp : string;
  level : string;
  message : string
}.

Record t := mk {
  logs : list LogEntry;
  requestCount : Z;
  failedCount : Z
}.

Definition BASE_URL : string :=
  "https://opendata.camara.cl/camaradiputados/WServices".

Definition constructor : t := mk [] 0 0.

(** [log(level, message)], with the timestamp the clock gives: [push],
    then [shift] once more than 100 entries are held. *)
Definition log (timestamp level message : string) (this : t) : t :=
  let pushed := logs this ++ [mkLogEntry timestamp level message] in
  mk (if (100 <? List.length pushed)%nat then tl pushed else pushed)
     (requestCount this) (failedCount this).


(** The number [getRequestStats] prints as [tasa_exito]. *)
Definition tasaExito (this : t) : float :=
  if (requestCount this >? 0)%Z then
    (num (requestCount this - failedCount this) / num (requestCount this)
     * 100)%float
  else 0%float.

Inductive StatValue :=
| Num (n : Z)
| Str (s : string).

Section Stats.
(** [n.toFixed(1)] *)
Variable toFixed1 : float -> string.

Definition getRequestStats (this : t) : list (string * StatValue) :=
  [("peticiones_totales", Num (requestCount this));
   ("peticiones_fallidas", Num (failedCount this));
   ("tasa_exito", Str (toFixed1 (tasaExito this)))].
End Stats.

(** ** [_makeRequest]

    The method runs up to its [await] when it is called and from there
    when the awaited calls settle; other requests may start or settle in
    between.  [stamp i] is the timestamp of the [i]-th entry a part
    logs. *)
Definition urlOf (service method : string) : string :=
  BASE_URL ++ "/" ++ service ++ ".asmx/" ++ method.

(** From the call to the [await]: three entries, then [requestCount++]. *)
Definition makeRequest_call (stamp : nat -> string)
    (service method params : string) (this : t) : t :=
  let url := urlOf service method in
  let this :=
    log (stamp 0%nat) "INFO"
        ("Realizando petición a " ++ service ++ "/" ++ method) this in
  let this := log (stamp 1%nat) "DEBUG" ("URL: " ++ url) this in
  let this := log (stamp 2%nat) "DEBUG" ("Parámetros: " ++ params) this in
  mk (logs this) (requestCount this + 1) (failedCount this).

(** How the awaited calls settle, with the pieces the entries print:
    the elapsed time, the status and size of the response, the message of
    the error.  [elapsed'] is the elapsed time read again by [catch]. *)
Inductive Outcome (Data : Type) :=
| Rejected (elapsed' errorMessage : string)
| NoSize (elapsed status elapsed' errorMessage : string)
| Unparsed (elapsed status size elapsed' errorMessage : string)
| Parsed (elapsed status size : string) (jsonData : Data) (printed : string).

Arguments Rejected {Data}.
Arguments NoSize {Data}.
Arguments Unparsed {Data}.
Arguments Parsed {Data}.

(** The [catch] block: [failedCount++], two entries, and the error is
    thrown again. *)
Definition makeRequest_catch (stamp : nat -> string) (first : nat)
    (url elapsed' errorMessage : string) (this : t) : t :=
  let this := mk (logs this) (requestCount this) (failedCount this + 1) in
  let this :=
    log (stamp first) "ERROR"
        ("Petición falló después de " ++ elapsed' ++ "s: " ++ errorMessage)
        this in
  log (stamp (S first)) "ERROR" ("URL fallida: " ++ url) this.

Definition completed (elapsed status : string) : string :=
  "Petición completada en " ++ elapsed ++ "s - Estado: " ++ status.

Definition sized (size : string) : string :=
  "Tamaño de respuesta: " ++ size ++ " bytes".

(** From the [await] on: the state left and the parsed data returned,
    [None] when the error is thrown again. *)
Definition makeRequest_settle {Data : Type} (stamp : nat -> string)
    (url : string) (outcome : Outcome Data) (this : t) : t * option Data :=
  match outcome with
  | Rejected elapsed' errorMessage =>
      (makeRequest_catch stamp 0 url elapsed' errorMessage this, None)
  | NoSize elapsed status elapsed' errorMessage =>
      let this := log (stamp 0%nat) "INFO" (completed elapsed status) this in
      (makeRequest_catch stamp 1 url elapsed' errorMessage this, None)
  | Unparsed elapsed status size elapsed' errorMessage =>
      let this := log (stamp 0%nat) "INFO" (completed elapsed status) this in
      let this := log (stamp 1%nat) "DEBUG" (sized size) this in
      (makeRequest_catch stamp 2 url elapsed' errorMessage this, None)
  | Parsed elapsed status size jsonData printed =>
      let this := log (stamp 0%nat) "INFO" (completed elapsed status) this in
      let this := log (stamp 1%nat) "DEBUG" (sized size) this in
      let this :=
        log (stamp 2%nat) "DEBUG" "Respuesta XML parseada exitosamente"
            this in
      let this :=
        log (stamp 3%nat) "DEBUG" ("Datos parseados: " ++ printed ++ "...")
            this in
      (this, Some jsonData)
  end.

(** The service and the requests that wait, each with its [url]. *)
Inductive step {Data : Type} : t * list string -> t * list string -> Prop :=
| step_call (this : t) (waiting : list string) stamp service method params :
    step (this, waiting)
         (makeRequest_call stamp service method params this,
          waiting ++ [urlOf service method])
| step_settle (this : t) (before after : list string) (url : string)
    stamp (outcome : Outcome Data) :
    step (this, before ++ url :: after)
         (fst (makeRequest_settle stamp url outcome this), before ++ after).


(** ** [_extractArray] *)

(** Parsed data. *)
#[warnings="-register-all"] Inductive Value :=
| VUndefined
| VNull
| VBool (b : bool)
| VNum (n : float)
| VStr (s : string)
| VArr (items : list Value)
| VObj (fields : list (string * Value)).

(** [!v] *)
Definition falsy (v : Value) : bool :=
  match v with
  | VUndefined | VNull => true
  | VBool b => negb b
  | VNum n => PrimFloat.eqb n 0 || PrimFloat.is_nan n
  | VStr s => String.eqb s EmptyString
  | VArr _ | VObj _ => false
  end.

(** [data[Object.keys(data)[0]]]: the value under the first own key;
    [undefined] when there is no own key, and an error when [data] is
    [undefined] or [null]. *)
Definition firstOwn (data : Value) : result Value :=
  match data with
  | VUndefined | VNull => TypeError
  | VObj ((_, v) :: _) => Ok v
  | VArr (v :: _) => Ok v
  | VStr (String c _) => Ok (VStr (String c EmptyString))
  | _ => Ok VUndefined
  end.

(** [root[key]] for the name of an element: only an object holds one. *)
Definition getProp (root : Value) (key : string) : result Value :=
  match root with
  | VUndefined | VNull => TypeError
  | VObj fields => Ok (orDefault (lookup key fields) VUndefined)
  | _ => Ok VUndefined
  end.

Definition extractArray (data : Value) (key : string) : result (list Value) :=
  if falsy data then Ok []
  else
    root <- firstOwn data ;;
    if falsy root then Ok []
    else
      probe <- getProp root key ;;
      if falsy probe then Ok []
      else
        items <- getProp root key ;;
        match items with
        | VArr l => Ok l
        | _ => Ok [items]
        end.
End CongressAPIService.

(* ------------------------------------------------------------------ *)
(** * The screens that show the service's counters *)

Section StatsScreens.
(** The number a string converts to in a comparison. *)
Variable toNumber : string -> float.

(** [v || 0] *)
Definition orZero (v : option CongressAPIService.StatValue)
  : CongressAPIService.StatValue :=
  match v with
  | Some (CongressAPIService.Num n) =>
      if (n =? 0)%Z then CongressAPIService.Num 0 else CongressAPIService.Num n
  | Some (CongressAPIService.Str s) =>
      if String.eqb s EmptyString then CongressAPIService.Num 0
      else CongressAPIService.Str s
  | None => CongressAPIService.Num 0
  end.

(** [v > 0] *)
Definition isPositive (v : option CongressAPIService.StatValue) : bool :=
  match v with
  | Some (CongressAPIService.Num n) => (0 <? n)%Z
  | Some (CongressAPIService.Str s) => PrimFloat.ltb 0 (toNumber s)
  | None => false
  end.

(** [v && Object.keys(v).length > 0]: a number has no key, a string has
    one for each of its characters. *)
Definition hasKeys (v : option CongressAPIService.StatValue) : bool :=
  match v with
  | Some (CongressAPIService.Str s) => negb (String.eqb s EmptyString)
  | _ => false
  end.

(** app/(tabs)/explore.tsx: what the screen draws from the object
    [getRequestStats] returned: the two counts, the count of failures
    when its block is drawn, and whether endpoints are listed. *)
Record ExploreView := mkExploreView {
  shownTotal : CongressAPIService.StatValue;
  shownSuccessful : CongressAPIService.StatValue;
  shownFailed : option CongressAPIService.StatValue;
  endpointsListed : bool
}.

Definition ExploreScreen (stats : list (string * CongressAPIService.StatValue))
  : ExploreView :=
  {| shownTotal := orZero (lookup "total_requests" stats);
     shownSuccessful := orZero (lookup "successful_requests" stats);
     shownFailed :=
       if isPositive (lookup "failed_requests" stats)
       then lookup "failed_requests" stats
       else None;
     endpointsListed := hasKeys (lookup "endpoints" stats) |}.

(** app/(tabs)/index.tsx, in its first form: the three values of the
    block of statistics; [None] stands for [undefined]. *)
Definition HomeScreen_stats (stats : list (string * CongressAPIService.StatValue))
  : option CongressAPIService.StatValue
    * option CongressAPIService.StatValue
    * option CongressAPIService.StatValue :=
  (lookup "peticiones_totales" stats,
   lookup "peticiones_fallidas" stats,
   lookup "tasa_exito" stats).
End StatsScreens.

(* ------------------------------------------------------------------ *)
(** * Numbers the screens print *)

(** [Math.max] and [Math.min] of two numbers: NaN when either is NaN,
    and [+0] counts as larger than [-0]. *)
Definition Math_max (a b : float) : float :=
  if PrimFloat.is_nan a || PrimFloat.is_nan b then PrimFloat.nan
  else if PrimFloat.ltb a b then b
  else if PrimFloat.ltb b a then a
  else if PrimFloat.is_zero a && PrimFloat.get_sign a then b else a.

Definition Math_min (a b : float) : float :=
  if PrimFloat.is_nan a || PrimFloat.is_nan b then PrimFloat.nan
  else if PrimFloat.ltb a b then a
  else if PrimFloat.ltb b a then b
  else if PrimFloat.is_zero a && negb (PrimFloat.get_sign a) then b else a.

(** components/parliament-chart.tsx, in both forms of the chart:
    [Math.max(6, Math.min(12, size / 40))], the diameter of a seat. *)
Definition seatSize (size : float) : float :=
  Math_max 6 (Math_min 12 (size / 40)).

(** [Math.floor]: a number with no fractional bit, a zero, an infinity
    and NaN are returned as they are. *)
Definition Math_floor (f : float) : float :=
  match Prim2SF f with
  | S754_finite s m e =>
      if (0 <=? e)%Z then f
      else
        let d := (2 ^ (- e))%Z in
        if s then num (- ((Zpos m + d - 1) / d)) else num (Zpos m / d)
  | _ => f
  end.

Section Age.
Variable getTime : string -> option Z.

(** [calculateAge] of app/legislator/[id].tsx, and the same expression
    in the cards of app/(tabs)/legislators.tsx:
    [Math.floor((Date.now() - birth.getTime()) / (1000 * 60 * 60 * 24 * 365.25))].
    The difference of two time values is the number nearest to it. *)
Definition calculateAge (now : Z) (birthDate : string) : float :=
  match getTime birthDate with
  | Some birth =>
      Math_floor (num (now - birth) / (1000 * 60 * 60 * 24 * 365.25))%float
  | None => PrimFloat.nan
  end.
End Age.

(* ------------------------------------------------------------------ *)
(** * Sample data *)

Module Sample.
Definition partido (alias : string) : Partido :=
  mkPartido alias (String.append "Partido " alias) alias.

Definition militancia (inicio termino alias : string) : Militancia.t :=
  Militancia.mk inicio termino (partido alias).

Definition diputado (ms : Militancias) : Diputado :=
  mkDiputado 1 "Ana" "" "Rojas" "Soto" "1980-05-17" "12345678" "5"
             "Femenino" ms.

Definition legislator (ms : Militancias) : DiputadoPeriodo :=
  mkDiputadoPeriodo (diputado ms) None None None None.

(** A sitting member of [alias] from 2022 to 2026. *)
Definition member (alias : string) : DiputadoPeriodo :=
  legislator (Single (militancia "2022-03-11" "2026-03-11" alias)).

(** A legislator whose only membership ended in 2018. *)
Definition lapsed : DiputadoPeriodo :=
  legislator (Single (militancia "2014-03-11" "2018-03-11" "PS")).

(** 2024-01-01T00:00:00Z *)
Definition today : Z := 1704067200000.
Definition clock (_ : nat) : Z := today.

(** Two terms of a socialist deputy and three possible next periods. *)
Definition first_term : Militancia.t :=
  militancia "2018-03-11" "2020-01-01" "PS".
Definition next_day : Militancia.t :=
  militancia "2020-01-02" "2022-03-11" "PS".
Definition next_day_and_a_second : Militancia.t :=
  militancia "2020-01-02T00:00:01Z" "2022-03-11" "PS".
Definition two_days_later : Militancia.t :=
  militancia "2020-01-03" "2022-03-11" "PS".
Definition overlapping : Militancia.t :=
  militancia "2019-06-01" "2022-03-11" "PS".

(** Five RN, three DC and ten PC deputies, in that order of arrival. *)
Definition hemicycle : list DiputadoPeriodo :=
  repeat (member "RN") 5 ++ repeat (member "DC") 3 ++ repeat (member "PC") 10.

(** A deputy whose two listed memberships both contain [today]. *)
Definition since2022 : Militancia.t :=
  militancia "2022-03-11" "2026-03-11" "DC".
Definition since2023 : Militancia.t :=
  militancia "2023-06-01" "2026-03-11" "RN".
Definition twoHomes : Diputado := diputado (Many [since2022; since2023]).

(** A clock that agrees with [clock] on its first three readings only. *)
Definition clockThenZero (i : nat) : Z := if (i <? 3)%nat then today else 0%Z.

(** Stand-ins for [Math.cos] and [Math.sin]; no statement below depends
    on their values. *)
Definition cos (a : float) : float := (1 - a * a / 2)%float.
Definition sin (a : float) : float := a.

(** The chart in a process where no inherited value was counted yet. *)
Definition chart (legislators : list DiputadoPeriodo) :=
  ParliamentChart Iso.getTime clock cos sin [] legislators None.

(** The older chart, likewise. *)
Definition olderChart (legislators : list DiputadoPeriodo) :=
  Legacy.ParliamentChart Iso.getTime clock cos sin [] legislators None.

(** Three legislators of parties whose aliases are the names "__proto__",
    "count" and "toString". *)
Definition polluting : list DiputadoPeriodo :=
  [member "__proto__"; member "count"; member "toString"].
End Sample.

(* ------------------------------------------------------------------ *)
(** * Vocabulary of the statements *)

Local Open Scope Z_scope.

Definition oneDay : Z := 1000 * 60 * 60 * 24.

Section TimelineVocabulary.
Variable getTime : string -> option Z.

Definition sameParty (a b : Militancia.t) : Prop :=
  Id (Militancia.Partido a) = Id (Militancia.Partido b).

(** The gap from the end of [a] to the start of [b], when both dates
    parse. *)
Definition gapIs (a b : Militancia.t) (gap : Z) : Prop :=
  exists e s,
    getTime (Militancia.FechaTermino a) = Some e /\
    getTime (Militancia.FechaInicio b) = Some s /\
    gap = s - e.

Definition gapWithinOneDay (a b : Militancia.t) : Prop :=
  exists gap, gapIs a b gap /\ 0 <= gap <= oneDay.

(** [a] does not start after [b]: whenever both start dates parse, the
    start of [a] is at most the start of [b]. *)
Definition startsInOrder (a b : Militancia.t) : Prop :=
  forall x y,
    getTime (Militancia.FechaInicio a) = Some x ->
    getTime (Militancia.FechaInicio b) = Some y ->
    x <= y.

(** [a] and [b], at positions [length pre] and [length pre + 1] of the
    sorted sequence, are sources of one merged record. *)
Definition mergedTogether (merged : list MergedMilitancia.t)
    (pre : list Militancia.t) (a b : Militancia.t) : Prop :=
  exists out r out' o1 o2,
    merged = out ++ r :: out' /\
    MergedMilitancia.originalMilitancias r = o1 ++ a :: b :: o2 /\
    List.concat (map MergedMilitancia.originalMilitancias out) ++ o1 = pre.

(** [a] closes one merged record and [b] opens the next one. *)
Definition keptApart (merged : list MergedMilitancia.t)
    (pre : list Militancia.t) (a b : Militancia.t) : Prop :=
  exists out r1 r2 out' o1 o2,
    merged = out ++ r1 :: r2 :: out' /\
    MergedMilitancia.originalMilitancias r1 = o1 ++ [a] /\
    MergedMilitancia.originalMilitancias r2 = b :: o2 /\
    List.concat (map MergedMilitancia.originalMilitancias out) ++ o1 = pre.

(** The index of the merged record that holds the period at position
    [i] of the sorted sequence. *)
Fixpoint recordOf (merged : list MergedMilitancia.t) (i : nat) : nat :=
  match merged with
  | [] => O
  | r :: rest =>
      let n := List.length (MergedMilitancia.originalMilitancias r) in
      if (i <? n)%nat then O else S (recordOf rest (i - n))
  end.

(** Every source of a record belongs to the record's party. *)
Definition oneParty (r : MergedMilitancia.t) : Prop :=
  Forall (fun m => Id (Militancia.Partido m)
                   = Id (MergedMilitancia.Partido r))
         (MergedMilitancia.originalMilitancias r).

(** The invariant of a merged record. *)
Definition recordInvariant (r : MergedMilitancia.t) : Prop :=
  let originals := MergedMilitancia.originalMilitancias r in
  1 <= MergedMilitancia.periodCount r /\
  MergedMilitancia.periodCount r = Z.of_nat (List.length originals) /\
  Sorted.Sorted startsInOrder originals /\
  option_map Militancia.FechaInicio (hd_error originals)
    = Some (MergedMilitancia.FechaInicio r) /\
  option_map Militancia.FechaTermino (JS.last_elt originals)
    = Some (MergedMilitancia.FechaTermino r).

(** [m]'s range of dates contains [now]. *)
Definition inRange (now : Z) (m : Militancia.t) : Prop :=
  exists inicio termino,
    getTime (Militancia.FechaInicio m) = Some inicio /\
    getTime (Militancia.FechaTermino m) = Some termino /\
    inicio <= now <= termino.

(** The condition the scan tests on the last record is a condition on
    the previous period whenever that record ends with it. *)
Definition continues (r : MergedMilitancia.t) (b : Militancia.t) : bool :=
  String.eqb (Id (MergedMilitancia.Partido r)) (Id (Militancia.Partido b))
  && arePeriodsSequential getTime (MergedMilitancia.FechaTermino r)
                          (Militancia.FechaInicio b).
End TimelineVocabulary.

Local Open Scope list_scope.

Section ChartVocabulary.
Variable getTime : string -> option Z.
Variable clock : nat -> Z.

(** The parties the [reduce] finds, legislator by legislator, the first
    one being visited [i]-th. *)
Fixpoint partiesFrom (i : nat) (legislators : list DiputadoPeriodo)
  : list (option Militancia.t) :=
  match legislators with
  | [] => []
  | leg :: rest => currentPartyAt getTime clock i leg :: partiesFrom (S i) rest
  end.

(** The party id each legislator is counted under. *)
Definition resolvedIds (legislators : list DiputadoPeriodo) : list string :=
  map partyIdOf (partiesFrom 0 legislators).
End ChartVocabulary.

(** The ids of a sequence in the order of their first occurrence. *)
Definition firstSeen (ids : list string) : list string :=
  fold_left
    (fun seen id => if in_dec string_dec id seen then seen else seen ++ [id])
    ids [].

Definition keys (groups : PartyGroups) : list string := map fst groups.

Definition totalCount (groups : PartyGroups) : Z :=
  fold_right (fun e acc => count (snd e) + acc) 0 groups.

Definition countIs (c : Z) (e : string * PartyGroup) : bool :=
  count (snd e) =? c.

(** [output] lists the groups of [input] by descending count, groups of
    equal count in the order they have in [input]. *)
Definition stableDescending (input output : PartyGroups) : Prop :=
  Permutation output input /\
  Sorted (fun a b => count (snd a) >= count (snd b)) output /\
  forall c, filter (countIs c) output = filter (countIs c) input.

(** [a] may come before [b] in the output of a sort by [cmp]: [cmp] does
    not put [a] after [b], or it puts each after the other (which a
    consistent comparator never does). *)
Definition mayPrecede {A : Type} (cmp : A -> A -> comparison) (a b : A)
  : Prop :=
  cmp a b <> Gt \/ cmp b a = Gt.

(** Each number is at most the one before it. *)
Fixpoint descending (l : list float) : bool :=
  match l with
  | [] => true
  | a :: rest =>
      match rest with
      | [] => true
      | b :: _ => PrimFloat.leb b a && descending rest
      end
  end.

(** One consecutive run of [count] seats per party, party after party. *)
Definition blocks (parties : PartyGroups) : list PartyGroup :=
  flat_map (fun e => repeat (snd e) (Z.to_nat (count (snd e)))) parties.

Definition seatAt (pt : float * float) (g : PartyGroup) : Seat :=
  mkSeat (fst pt) (snd pt) (color g) (partyAlias g).

(** The points of [pts], in order, each given to the party of the block
    it falls in. *)
Definition zipSeats (pts : list (float * float)) (gs : list PartyGroup)
  : list Seat :=
  map (fun pg => seatAt (fst pg) (snd pg)) (combine pts gs).

(** Both charts place a sequence of points one after the other. *)
Fixpoint placeAll (parties : PartyGroups) (pts : list (float * float))
    (st : LoopState) : result LoopState :=
  match pts with
  | [] => Ok st
  | pt :: rest =>
      st' <- placeSeat parties (fst pt) (snd pt) st ;;
      placeAll parties rest st'
  end.

Definition pointOf (p : Position) : float * float := (x p, y p).

Definition countOf (k : string) (groups : PartyGroups) : Z :=
  match lookup k groups with
  | Some g => count g
  | None => 0
  end.

(** What the tables give for a party id. *)
Definition colorOf (k : string) : string :=
  orDefault (lookup k PARTY_COLORS) defaultColor.
Definition alignmentOf (k : string) : Alignment :=
  orDefault (lookup k PARTY_ALIGNMENT) center.

(** A group as the [reduce] keeps it under key [k]. *)
Definition groupOk (e : string * PartyGroup) : Prop :=
  partyAlias (snd e) = fst e /\
  1 <= count (snd e) /\
  color (snd e) = colorOf (fst e) /\
  alignment (snd e) = alignmentOf (fst e).

(** The ids a group is made for: those that are no inherited name. *)
Definition ownIds (ids : list string) : list string :=
  filter (fun k => negb (inherited k)) ids.

Definition isIndexKey (k : string) : bool :=
  match arrayIndex k with
  | Some _ => true
  | None => false
  end.

Definition otherKeys (ks : list string) : list string :=
  filter (fun k => negb (isIndexKey k)) ks.

(** Both keys are array indices, and [a]'s index is at most [b]'s. *)
Definition indexLe (a b : string) : Prop :=
  match arrayIndex a, arrayIndex b with
  | Some i, Some j => i <= j
  | _, _ => False
  end.

(** The order of [Object.entries]: the array indices first, in ascending
    order, then the other keys. *)
Definition enumerated (ks : list string) : Prop :=
  exists indices others,
    ks = indices ++ others /\
    Forall (fun k => isIndexKey k = true) indices /\
    Sorted indexLe indices /\
    Forall (fun k => isIndexKey k = false) others.

(** An id that is neither an inherited name nor an array index. *)
Definition ordinary (k : string) : Prop :=
  inherited k = false /\ arrayIndex k = None.

(** Where a key created after the keys [ks] is listed. *)
Fixpoint placeIndex (i : Z) (key : string) (ks : list string) : list string :=
  match ks with
  | [] => [key]
  | k :: ks' =>
      match arrayIndex k with
      | Some j => if j <? i then k :: placeIndex i key ks' else key :: ks
      | None => key :: ks
      end
  end.

Definition placeKey (key : string) (ks : list string) : list string :=
  match arrayIndex key with
  | Some i => placeIndex i key ks
  | None => ks ++ [key]
  end.

(** The callback of the [reduce] on the groups alone. *)
Definition groupOwn (acc : PartyGroups) (p : option Militancia.t)
  : PartyGroups :=
  let partyId := partyIdOf p in
  match lookup partyId acc with
  | Some _ => incrCount partyId acc
  | None =>
      if inherited partyId then acc
      else incrCount partyId (defineOwn partyId (newGroup p) acc)
  end.

(** What the accumulator satisfies after every step of the [reduce]. *)
Definition groupsOk (acc : PartyGroups) : Prop :=
  NoDup (keys acc) /\
  Forall groupOk acc /\
  Forall (fun k => inherited k = false) (keys acc).

(** The keys of the accumulator after one more id. *)
Definition keyStep (seen : list string) (id : string) : list string :=
  if in_dec string_dec id seen then seen
  else if inherited id then seen else placeKey id seen.

(** One step of [firstSeen]. *)
Definition firstSeenStep (seen : list string) (id : string) : list string :=
  if in_dec string_dec id seen then seen else seen ++ [id].

(** The group of each seat, in order: the blocks of the parties, and
    the last party again for every seat beyond them. *)
Definition paddedBlocks (parties : PartyGroups) (n : nat)
  : list PartyGroup :=
  match JS.last_elt parties with
  | Some e => blocks parties ++ repeat (snd e) n
  | None => []
  end.

Definition seatPoint (s : Seat) : float * float := (seat_x s, seat_y s).
Definition seatParty (s : Seat) : string * string :=
  (seat_color s, seat_partyAlias s).

Section LegacyVocabulary.
Variables Math_cos Math_sin : float -> float.

(** The point the older chart computes for seat [seat] of row [row]. *)
Definition legacyPoint (size : float) (row seatsInRow : Z) (seat : nat)
  : float * float :=
  let radius := (size / 2 * (0.4 + num row * 0.15))%float in
  let angle :=
    (- Math_PI + num (Z.of_nat seat) / num (seatsInRow - 1) * Math_PI)%float in
  ((size / 2 + radius * Math_cos angle)%float,
   (size / 2 + radius * Math_sin angle)%float).

(** The points of the rows listed, row after row, were no row cut short. *)
Definition legacyPoints (size : float) (perRow : Z) (rowIndices : list nat)
  : list (float * float) :=
  flat_map
    (fun row =>
       let seatsInRow := Legacy.seatsInRowOf perRow (Z.of_nat row) in
       map (legacyPoint size (Z.of_nat row) seatsInRow)
           (seq 0 (Z.to_nat seatsInRow)))
    rowIndices.

End LegacyVocabulary.

(** An array holds fewer than 2^32 elements. *)
Definition arrayLengthLimit : Z := 2 ^ 32.

Section HistoryVocabulary.
Variable getTime : string -> option Z.

(** Two records the scan would have made one: the same party id and a
    gap in [0, one day] from the end of the first to the start of the
    second. *)
Definition couldJoin (r1 r2 : MergedMilitancia.t) : Prop :=
  Id (MergedMilitancia.Partido r1) = Id (MergedMilitancia.Partido r2) /\
  exists e s,
    getTime (MergedMilitancia.FechaTermino r1) = Some e /\
    getTime (MergedMilitancia.FechaInicio r2) = Some s /\
    0 <= s - e <= oneDay.

(** [r1] does not start after [r2], whenever both start dates parse. *)
Definition recordsInOrder (r1 r2 : MergedMilitancia.t) : Prop :=
  forall x y,
    getTime (MergedMilitancia.FechaInicio r1) = Some x ->
    getTime (MergedMilitancia.FechaInicio r2) = Some y ->
    x <= y.

(** The start date of [m] parses. *)
Definition startParses (m : Militancia.t) : Prop :=
  getTime (Militancia.FechaInicio m) <> None.
End HistoryVocabulary.

(** The party ids a list of memberships mentions, each once. *)
Definition partyIds (ms : list Militancia.t) : list string :=
  nodup string_dec (map (fun m => Id (Militancia.Partido m)) ms).

Definition periodsOf (merged : list MergedMilitancia.t)
  : list Militancia.t :=
  List.concat (map MergedMilitancia.originalMilitancias merged).

(** The service after logging [entries] one after the other. *)
Definition logAll (entries : list CongressAPIService.LogEntry)
    (this : CongressAPIService.t) : CongressAPIService.t :=
  fold_left
    (fun this e =>
       CongressAPIService.log (CongressAPIService.timestamp e)
                              (CongressAPIService.level e)
                              (CongressAPIService.message e) this)
    entries this.

(** The last [n] elements of a list, all of them when it has fewer. *)
Definition lastn {A : Type} (n : nat) (l : list A) : list A :=
  skipn (List.length l - n) l.

(** Parsed data with one top-level element [rootName] that holds [item]
    under [key]. *)
Definition wrapped (rootName key : string) (item : CongressAPIService.Value)
  : CongressAPIService.Value :=
  CongressAPIService.VObj
    [(rootName, CongressAPIService.VObj [(key, item)])].

Definition isArray (v : CongressAPIService.Value) : bool :=
  match v with
  | CongressAPIService.VArr _ => true
  | _ => false
  end.


(** [1000 * 60 * 60 * 24 * 365.25]: the milliseconds of a year. *)
Definition yearMs : Z := 31557600000.

(* ------------------------------------------------------------------ *)
(** * Facts about the built-ins *)

Section SortFacts.
Context {A : Type}.
Variable cmp : A -> A -> comparison.

Lemma insert_perm (x : A) (l : list A) :
  Permutation (JS.insert cmp x l) (x :: l).
Proof.
  induction l as [| y l IH]; simpl.
  - apply Permutation_refl.
  - destruct (cmp x y); try apply Permutation_refl.
    eapply perm_trans; [ apply perm_skip, IH | apply perm_swap ].
Qed.

Lemma sort_perm (l : list A) : Permutation (JS.sort cmp l) l.
Proof.
  induction l as [| x l IH]; simpl.
  - constructor.
  - eapply perm_trans; [ apply insert_perm | now apply perm_skip ].
Qed.

Lemma sort_length (l : list A) :
  List.length (JS.sort cmp l) = List.length l.
Proof. apply Permutation_length, sort_perm. Qed.

Lemma sort_In (l : list A) (a : A) : In a (JS.sort cmp l) <-> In a l.
Proof.
  split; apply Permutation_in;
    [ apply sort_perm | apply Permutation_sym, sort_perm ].
Qed.

(** Whatever the comparator, neighbours in the output are in an order it
    accepts. *)
Lemma insert_sorted_gen (x : A) (l : list A) :
  Sorted (mayPrecede cmp) l -> Sorted (mayPrecede cmp) (JS.insert cmp x l).
Proof.
  induction 1 as [| y l Hl IH Hy]; simpl.
  - repeat constructor.
  - destruct (cmp x y) eqn:E.
    + constructor; [ now constructor | constructor; left; congruence ].
    + constructor; [ now constructor | constructor; left; congruence ].
    + constructor; [ exact IH |].
      destruct l as [| z l]; simpl.
      * constructor. now right.
      * inversion Hy; subst.
        destruct (cmp x z); constructor; auto; now right.
Qed.

Lemma sort_sorted_gen (l : list A) : Sorted (mayPrecede cmp) (JS.sort cmp l).
Proof.
  induction l; simpl; [ constructor | now apply insert_sorted_gen ].
Qed.

(** A comparator that never answers [Gt] both ways gives neighbours in
    order, whatever else it does. *)
Hypothesis cmp_antisym : forall a b, cmp a b = Gt -> cmp b a <> Gt.

Let inOrder (a b : A) : Prop := cmp a b <> Gt.

Lemma insert_HdRel (x y : A) (l : list A) :
  cmp x y = Gt -> Sorted.HdRel inOrder y l ->
  Sorted.HdRel inOrder y (JS.insert cmp x l).
Proof.
  intros Hxy Hl. destruct l as [| z l]; simpl.
  - constructor. now apply cmp_antisym.
  - inversion Hl; subst.
    destruct (cmp x z); constructor; auto; now apply cmp_antisym.
Qed.

Lemma insert_sorted (x : A) (l : list A) :
  Sorted.Sorted inOrder l -> Sorted.Sorted inOrder (JS.insert cmp x l).
Proof.
  induction 1 as [| y l Hl IH Hy]; simpl.
  - repeat constructor.
  - destruct (cmp x y) eqn:E.
    + constructor; [ now constructor | constructor; unfold inOrder; congruence ].
    + constructor; [ now constructor | constructor; unfold inOrder; congruence ].
    + constructor; [ exact IH | now apply insert_HdRel ].
Qed.

Lemma sort_sorted (l : list A) : Sorted.Sorted inOrder (JS.sort cmp l).
Proof.
  induction l; simpl; [ constructor | now apply insert_sorted ].
Qed.
End SortFacts.

Section SortedFacts.
Context {A : Type}.
Variable R : A -> A -> Prop.

Lemma Sorted_app_l (l1 l2 : list A) :
  Sorted.Sorted R (l1 ++ l2) -> Sorted.Sorted R l1.
Proof.
  induction l1 as [| a l1 IH]; simpl; intros H; [ constructor |].
  inversion H as [| ? ? Hs Hh]; subst.
  constructor; [ now apply IH |].
  destruct l1; simpl in *; [ constructor |].
  inversion Hh; subst. now constructor.
Qed.

Lemma Sorted_snoc_pair (l : list A) (a b : A) :
  Sorted.Sorted R (l ++ [a; b]) -> R a b.
Proof.
  induction l as [| c l IH]; simpl; intros H.
  - inversion H as [| ? ? _ Hh]; subst. now inversion Hh.
  - inversion H; subst. now apply IH.
Qed.

Lemma Sorted_snoc (l : list A) (b : A) :
  Sorted.Sorted R l ->
  (forall a, JS.last_elt l = Some a -> R a b) ->
  Sorted.Sorted R (l ++ [b]).
Proof.
  induction 1 as [| c l Hl IH Hc]; simpl; intros Hlast.
  - repeat constructor.
  - constructor.
    + apply IH. intros a Ha. apply Hlast.
      unfold JS.last_elt in *. simpl.
      destruct (rev l) eqn:E; [ discriminate | exact Ha ].
    + destruct l as [| d l]; simpl.
      * constructor. now apply Hlast.
      * inversion Hc; subst. now constructor.
Qed.
End SortedFacts.

Lemma Sorted_impl {A : Type} (R R' : A -> A -> Prop) (l : list A) :
  (forall a b, R a b -> R' a b) -> Sorted R l -> Sorted R' l.
Proof.
  intros HR. induction 1 as [| a l Hl IH Ha]; constructor; auto.
  destruct Ha; constructor; auto.
Qed.

Lemma last_elt_snoc {A : Type} (l : list A) (a : A) :
  JS.last_elt (l ++ [a]) = Some a.
Proof. unfold JS.last_elt. now rewrite rev_unit. Qed.

Lemma firstn_prefix {A : Type} (k : nat) (l : list A) :
  exists rest, l = firstn k l ++ rest.
Proof. exists (skipn k l). symmetry. apply firstn_skipn. Qed.

(* ------------------------------------------------------------------ *)
(** * The affiliation timeline *)

Section TimelineFacts.
Variable getTime : string -> option Z.

Abbreviation originals := MergedMilitancia.originalMilitancias.
Abbreviation step := (mergeStep getTime).
Abbreviation scan l := (fold_left (mergeStep getTime) l []).
Abbreviation continues := (continues getTime).

Lemma diffInDays_range (d : Z) :
  Qle_bool 0 (inject_Z d / inject_Z (1000 * 60 * 60 * 24))
    && Qle_bool (inject_Z d / inject_Z (1000 * 60 * 60 * 24)) 1 = true
  <-> 0 <= d <= oneDay.
Proof.
  rewrite andb_true_iff, !Qle_bool_iff.
  change (1000 * 60 * 60 * 24) with 86400000.
  change oneDay with 86400000.
  unfold Qle, Qdiv, Qmult, Qinv, inject_Z; simpl.
  lia.
Qed.

Lemma arePeriodsSequential_spec (endDate startDate : string) :
  arePeriodsSequential getTime endDate startDate = true <->
  exists e s, getTime endDate = Some e /\ getTime startDate = Some s /\
              0 <= s - e <= oneDay.
Proof.
  unfold arePeriodsSequential.
  destruct (getTime endDate) as [e |], (getTime startDate) as [s |]; cbv zeta.
  - rewrite diffInDays_range. split.
    + intros H. exists e, s. auto.
    + intros (e' & s' & He & Hs & H). now inversion He; inversion Hs; subst.
  - split; [ discriminate | intros (e' & s' & _ & Hs & _); discriminate ].
  - split; [ discriminate | intros (e' & s' & He & _ & _); discriminate ].
  - split; [ discriminate | intros (e' & s' & He & _ & _); discriminate ].
Qed.

Lemma sequential_gap (a b : Militancia.t) :
  arePeriodsSequential getTime (Militancia.FechaTermino a)
                       (Militancia.FechaInicio b) = true
  <-> gapWithinOneDay getTime a b.
Proof.
  rewrite arePeriodsSequential_spec. unfold gapWithinOneDay, gapIs. split.
  - intros (e & s & He & Hs & H). exists (s - e). split; [| exact H ].
    exists e, s. auto.
  - intros (gap & (e & s & He & Hs & ->) & H). exists e, s. auto.
Qed.

Lemma containsNow_spec (now : Z) (m : Militancia.t) :
  containsNow getTime now m = true <-> inRange getTime now m.
Proof.
  unfold containsNow, inRange.
  destruct (getTime (Militancia.FechaInicio m)) as [i |],
           (getTime (Militancia.FechaTermino m)) as [t |].
  - rewrite andb_true_iff, Z.geb_le, Z.leb_le. split.
    + intros H. exists i, t. auto.
    + intros (i' & t' & Hi & Ht & H). now inversion Hi; inversion Ht; subst.
  - split; [ discriminate | intros (i' & t' & _ & Ht & _); discriminate ].
  - split; [ discriminate | intros (i' & t' & Hi & _ & _); discriminate ].
  - split; [ discriminate | intros (i' & t' & Hi & _ & _); discriminate ].
Qed.

Lemma compareByStart_antisym (a b : Militancia.t) :
  compareByStart getTime a b = Gt -> compareByStart getTime b a <> Gt.
Proof.
  unfold compareByStart, JS.sign_of_diff.
  destruct (getTime (Militancia.FechaInicio a)) as [x |],
           (getTime (Militancia.FechaInicio b)) as [y |];
    try discriminate.
  rewrite !Z.compare_gt_iff. lia.
Qed.

Lemma startsInOrder_iff (a b : Militancia.t) :
  startsInOrder getTime a b <-> compareByStart getTime a b <> Gt.
Proof.
  unfold startsInOrder, compareByStart, JS.sign_of_diff.
  destruct (getTime (Militancia.FechaInicio a)) as [x |],
           (getTime (Militancia.FechaInicio b)) as [y |].
  - rewrite Z.compare_gt_iff. split.
    + intros H. specialize (H x y eq_refl eq_refl). lia.
    + intros H x' y' Hx Hy. inversion Hx; inversion Hy; subst. lia.
  - split; [ discriminate | intros _ x' y' _ Hy; discriminate ].
  - split; [ discriminate | intros _ x' y' Hx _; discriminate ].
  - split; [ discriminate | intros _ x' y' Hx _; discriminate ].
Qed.

Lemma sortedMilitancias_sorted (ms : Militancias) :
  Sorted (startsInOrder getTime) (sortedMilitancias getTime ms).
Proof.
  apply (Sorted_impl (fun a b => compareByStart getTime a b <> Gt)).
  - intros a b. apply startsInOrder_iff.
  - apply sort_sorted, compareByStart_antisym.
Qed.

Lemma mergeStep_snoc (out : list MergedMilitancia.t)
    (r : MergedMilitancia.t) (b : Militancia.t) :
  step (out ++ [r]) b =
    if continues r b then out ++ [extendMerged r b]
    else (out ++ [r]) ++ [freshMerged b].
Proof.
  unfold mergeStep, continues. rewrite last_elt_snoc, removelast_last.
  reflexivity.
Qed.

(** What the scan holds after a non-empty prefix: its last record ends
    with the last period read and carries that period's end date and
    party id. *)
Lemma scan_last (l : list Militancia.t) (a : Militancia.t) :
  exists out r o1,
    scan (l ++ [a]) = out ++ [r] /\
    originals r = o1 ++ [a] /\
    MergedMilitancia.FechaTermino r = Militancia.FechaTermino a /\
    Id (MergedMilitancia.Partido r) = Id (Militancia.Partido a) /\
    List.concat (map originals out) ++ o1 = l.
Proof.
  revert a. induction l as [| b l IH] using rev_ind; intros a.
  - exists [], (freshMerged a), []. now simpl.
  - destruct (IH b) as (out & r & o1 & Hscan & Hor & Hft & Hid & Hcat).
    rewrite fold_left_app, Hscan. simpl fold_left. rewrite mergeStep_snoc.
    destruct (continues r a) eqn:E.
    + exists out, (extendMerged r a), (o1 ++ [b]). simpl.
      apply andb_true_iff in E as [E _]. apply String.eqb_eq in E.
      rewrite Hor, app_assoc, Hcat. repeat split; congruence.
    + exists (out ++ [r]), (freshMerged a), []. simpl.
      rewrite map_app, concat_app. simpl.
      rewrite Hor, !app_nil_r, app_assoc, Hcat. auto.
Qed.

(** Reading further periods only extends the last record or appends
    records after it. *)
Lemma scan_extend (post : list Militancia.t) :
  forall out r,
  exists r' out' o2,
    fold_left step post (out ++ [r]) = out ++ r' :: out' /\
    originals r' = originals r ++ o2.
Proof.
  induction post as [| b post IH]; intros out r; simpl.
  - exists r, [], []. now rewrite app_nil_r.
  - rewrite mergeStep_snoc. destruct (continues r b).
    + destruct (IH out (extendMerged r b)) as (r' & out' & o2 & H & Ho).
      exists r', out', (b :: o2). split; [ exact H |].
      rewrite Ho. simpl. now rewrite <- app_assoc.
    + destruct (IH (out ++ [r]) (freshMerged b)) as (r' & out' & o2 & H & _).
      exists r, (r' :: out'), []. rewrite H, <- app_assoc, app_nil_r. auto.
Qed.


Lemma recordOf_in_record (out out' : list MergedMilitancia.t)
    (r : MergedMilitancia.t) (j : nat) :
  (j < List.length (originals r))%nat ->
  recordOf (out ++ r :: out')
           (List.length (List.concat (map originals out)) + j)
  = List.length out.
Proof.
  intros Hj. induction out as [| r0 out IH]; simpl.
  - apply Nat.ltb_lt in Hj. now rewrite Hj.
  - rewrite length_app.
    destruct (Nat.ltb_spec
                (List.length (originals r0)
                 + List.length (List.concat (map originals out)) + j)
                (List.length (originals r0))) as [H | H]; [ lia |].
    f_equal. rewrite <- IH. f_equal. lia.
Qed.

Lemma mergedTogether_recordOf merged pre a b :
  mergedTogether merged pre a b ->
  recordOf merged (List.length pre) = recordOf merged (S (List.length pre)).
Proof.
  intros (out & r & out' & o1 & o2 & -> & Hor & <-).
  rewrite length_app.
  replace (S (List.length (List.concat (map originals out)) + List.length o1))
    with (List.length (List.concat (map originals out)) + S (List.length o1))%nat
    by lia.
  rewrite !recordOf_in_record; auto;
    rewrite Hor, length_app; simpl; lia.
Qed.

Lemma keptApart_recordOf merged pre a b :
  keptApart merged pre a b ->
  recordOf merged (List.length pre) <> recordOf merged (S (List.length pre)).
Proof.
  intros (out & r1 & r2 & out' & o1 & o2 & -> & Hor1 & Hor2 & <-).
  rewrite length_app, recordOf_in_record
    by (rewrite Hor1, length_app; simpl; lia).
  replace (out ++ r1 :: r2 :: out') with ((out ++ [r1]) ++ r2 :: out')
    by now rewrite <- app_assoc.
  replace (S (List.length (List.concat (map originals out)) + List.length o1))
    with (List.length (List.concat (map originals (out ++ [r1]))) + 0)%nat.
  - rewrite recordOf_in_record by (rewrite Hor2; simpl; lia).
    rewrite length_app. simpl. lia.
  - rewrite map_app, concat_app, !length_app. simpl.
    rewrite Hor1, app_nil_r, length_app. simpl. lia.
Qed.

Lemma continues_spec (r : MergedMilitancia.t) (a b : Militancia.t) :
  MergedMilitancia.FechaTermino r = Militancia.FechaTermino a ->
  Id (MergedMilitancia.Partido r) = Id (Militancia.Partido a) ->
  continues r b = true <-> sameParty a b /\ gapWithinOneDay getTime a b.
Proof.
  intros Hft Hid. unfold continues, sameParty.
  rewrite andb_true_iff, String.eqb_eq, Hft, Hid, sequential_gap.
  reflexivity.
Qed.

(** The two periods at positions [length pre] and [length pre + 1] of the
    sequence the scan reads. *)
Lemma scan_pair (pre post : list Militancia.t) (a b : Militancia.t) :
  let merged := scan (pre ++ a :: b :: post) in
  (sameParty a b /\ gapWithinOneDay getTime a b ->
   mergedTogether merged pre a b) /\
  (~ (sameParty a b /\ gapWithinOneDay getTime a b) ->
   keptApart merged pre a b).
Proof.
  cbv zeta.
  replace (pre ++ a :: b :: post) with ((pre ++ [a]) ++ b :: post)
    by now rewrite <- app_assoc.
  rewrite fold_left_app.
  destruct (scan_last pre a) as (out & r & o1 & -> & Hor & Hft & Hid & Hcat).
  simpl fold_left. rewrite mergeStep_snoc.
  pose proof (continues_spec r a b Hft Hid) as Hc.
  destruct (continues r b).
  - split; [ intros _ | intros H; exfalso; apply H, Hc; reflexivity ].
    destruct (scan_extend post out (extendMerged r b))
      as (r' & out' & o2 & -> & Ho).
    exists out, r', out', o1, o2. repeat split; auto.
    rewrite Ho. simpl. rewrite Hor, <- !app_assoc. reflexivity.
  - split; [ intros H; apply Hc in H; discriminate | intros _ ].
    destruct (scan_extend post (out ++ [r]) (freshMerged b))
      as (r' & out' & o2 & -> & Ho).
    exists out, r, r', out', o1, o2. rewrite <- app_assoc.
    repeat split; auto.
Qed.

Lemma scan_cases (l : list Militancia.t) :
  (l = [] /\ scan l = []) \/
  (exists l' a out r o1,
     l = l' ++ [a] /\ scan l = out ++ [r] /\ originals r = o1 ++ [a]).
Proof.
  destruct l as [| x l] using rev_ind; [ now left | right ].
  destruct (scan_last l x) as (out & r & o1 & H & Hor & _).
  exists l, x, out, r, o1. auto.
Qed.

Lemma scan_oneParty (l : list Militancia.t) : Forall oneParty (scan l).
Proof.
  induction l as [| b l IH] using rev_ind; [ constructor |].
  rewrite fold_left_app. simpl.
  destruct (scan_cases l) as [[-> ->] | (l' & a & out & r & o1 & -> & Hs & Hor)].
  - repeat constructor.
  - rewrite Hs in *. rewrite mergeStep_snoc.
    apply Forall_app in IH as [Hout Hr].
    destruct (continues r b) eqn:E.
    + apply Forall_app. split; [ exact Hout |]. constructor; [| constructor ].
      apply andb_true_iff in E as [E _]. apply String.eqb_eq in E.
      inversion Hr; subst. unfold oneParty in *. simpl.
      apply Forall_app. split; [ assumption |]. now repeat constructor.
    + apply Forall_app. split; [ now apply Forall_app |].
      repeat constructor.
Qed.

Lemma freshMerged_invariant (m : Militancia.t) :
  recordInvariant getTime (freshMerged m).
Proof.
  unfold recordInvariant. simpl. repeat split; try lia.
  repeat constructor.
Qed.

Lemma extendMerged_invariant (r : MergedMilitancia.t) (o1 : list Militancia.t)
    (a b : Militancia.t) :
  recordInvariant getTime r ->
  originals r = o1 ++ [a] ->
  startsInOrder getTime a b ->
  recordInvariant getTime (extendMerged r b).
Proof.
  intros (Hone & Hcount & Hsorted & Hfirst & Hlast) Hor Hab.
  unfold recordInvariant. simpl. repeat split.
  - lia.
  - rewrite length_app. simpl. lia.
  - apply Sorted_snoc; [ exact Hsorted |].
    intros a' Ha'. rewrite Hor, last_elt_snoc in Ha'.
    injection Ha' as <-. exact Hab.
  - rewrite Hor in *. destruct o1; exact Hfirst.
  - now rewrite last_elt_snoc.
Qed.

Lemma scan_invariant (l : list Militancia.t) :
  Sorted (startsInOrder getTime) l ->
  Forall (recordInvariant getTime) (scan l).
Proof.
  induction l as [| b l IH] using rev_ind; intros Hsorted; [ constructor |].
  rewrite fold_left_app. simpl.
  specialize (IH (Sorted_app_l _ _ _ Hsorted)).
  destruct (scan_cases l) as [[-> ->] | (l' & a & out & r & o1 & -> & Hs & Hor)].
  - repeat constructor; apply freshMerged_invariant.
  - rewrite Hs in *. rewrite mergeStep_snoc.
    apply Forall_app in IH as [Hout Hr]. inversion Hr; subst.
    destruct (continues r b).
    + apply Forall_app. split; [ exact Hout |]. constructor; [| constructor ].
      apply (extendMerged_invariant r o1 a b); auto.
      apply (Sorted_snoc_pair _ l'). now rewrite <- app_assoc in Hsorted.
    + apply Forall_app. split; [ now apply Forall_app |].
      repeat constructor; apply freshMerged_invariant.
Qed.

Lemma getCurrentMilitancia_first (now : Z) (diputado : Diputado) :
  match getCurrentMilitancia getTime now diputado with
  | Some m =>
      exists pre post,
        normalizeMilitancias (DiputadoMilitancias diputado) = pre ++ m :: post /\
        inRange getTime now m /\
        Forall (fun m' => ~ inRange getTime now m') pre
  | None =>
      Forall (fun m' => ~ inRange getTime now m')
             (normalizeMilitancias (DiputadoMilitancias diputado))
  end.
Proof.
  unfold getCurrentMilitancia. cbv zeta.
  induction (normalizeMilitancias (DiputadoMilitancias diputado)) as [| m l IH];
    simpl; [ constructor |].
  destruct (containsNow getTime now m) eqn:E.
  - exists [], l. repeat split; [ now apply containsNow_spec | constructor ].
  - assert (~ inRange getTime now m) as Hm
        by (rewrite <- containsNow_spec; congruence).
    destruct (find (containsNow getTime now) l) as [m' |].
    + destruct IH as (pre & post & -> & Hin & Hpre).
      exists (m :: pre), post. repeat split; auto.
    + now constructor.
Qed.
End TimelineFacts.

Lemma pair_condition_dec (getTime : string -> option Z) (a b : Militancia.t) :
  {sameParty a b /\ gapWithinOneDay getTime a b}
  + {~ (sameParty a b /\ gapWithinOneDay getTime a b)}.
Proof.
  destruct (String.eqb (Id (Militancia.Partido a)) (Id (Militancia.Partido b)))
    eqn:E1.
  - destruct (arePeriodsSequential getTime (Militancia.FechaTermino a)
                                   (Militancia.FechaInicio b)) eqn:E2.
    + left. split; [ now apply String.eqb_eq | now apply sequential_gap ].
    + right. intros [_ H]. apply sequential_gap in H. congruence.
  - right. intros [H _]. apply String.eqb_eq in H. congruence.
Qed.

Lemma gapIs_unique (getTime : string -> option Z) (a b : Militancia.t)
    (g1 g2 : Z) :
  gapIs getTime a b g1 -> gapIs getTime a b g2 -> g1 = g2.
Proof.
  intros (e1 & s1 & He1 & Hs1 & ->) (e2 & s2 & He2 & Hs2 & ->). congruence.
Qed.

(** C4. Two neighbours [a], [b] of the start-sorted sequence end up as
    sources of the same merged record exactly when they carry the same
    party id and the gap from the end of [a] to the start of [b] lies in
    [0, one day]; otherwise [a] closes a record and [b] opens the next.
    No record mixes party ids.  On the dates of the specification: a next
    period starting 2020-01-02 after an end on 2020-01-01 is merged
    (periodCount 2); one starting a second later, or on 2020-01-03, is
    not. *)
Theorem merge_iff_same_party_and_gap_within_one_day :
  (forall getTime ms pre a b post,
     sortedMilitancias getTime ms = pre ++ a :: b :: post ->
     let merged := mergeSequentialMilitancias getTime ms in
     (sameParty a b /\ gapWithinOneDay getTime a b ->
      mergedTogether merged pre a b) /\
     (~ (sameParty a b /\ gapWithinOneDay getTime a b) ->
      keptApart merged pre a b) /\
     (recordOf merged (List.length pre) = recordOf merged (S (List.length pre))
      <-> sameParty a b /\ gapWithinOneDay getTime a b)) /\
  (forall getTime ms,
     Forall oneParty (mergeSequentialMilitancias getTime ms)) /\
  mergeSequentialMilitancias Iso.getTime
    (Many [Sample.next_day; Sample.first_term])
  = [ MergedMilitancia.mk (Sample.partido "PS") "2018-03-11" "2022-03-11" 2
        [Sample.first_term; Sample.next_day] ] /\
  mergeSequentialMilitancias Iso.getTime
    (Many [Sample.first_term; Sample.next_day_and_a_second])
  = [ freshMerged Sample.first_term;
      freshMerged Sample.next_day_and_a_second ] /\
  mergeSequentialMilitancias Iso.getTime
    (Many [Sample.first_term; Sample.two_days_later])
  = [ freshMerged Sample.first_term; freshMerged Sample.two_days_later ].
Proof.
  split; [| split; [| repeat split; vm_compute; reflexivity ] ].
  - intros getTime ms pre a b post Hsorted merged. subst merged.
    unfold mergeSequentialMilitancias. rewrite Hsorted.
    destruct (scan_pair getTime pre post a b) as [Hyes Hno].
    split; [ exact Hyes | split; [ exact Hno |] ].
    split.
    + intros Heq. destruct (pair_condition_dec getTime a b) as [H | H]; auto.
      exfalso. now apply (keptApart_recordOf _ _ _ _ (Hno H)).
    + intros H. now apply (mergedTogether_recordOf _ _ a b), Hyes.
  - intros getTime ms. apply scan_oneParty.
Qed.

Lemma merge_iff_same_party_and_gap_within_one_day_witness :
  sortedMilitancias Iso.getTime (Many [Sample.next_day; Sample.first_term])
  = [] ++ Sample.first_term :: Sample.next_day :: [] /\
  (recordOf (mergeSequentialMilitancias Iso.getTime
               (Many [Sample.next_day; Sample.first_term])) 0
   = recordOf (mergeSequentialMilitancias Iso.getTime
                 (Many [Sample.next_day; Sample.first_term])) 1
   <-> sameParty Sample.first_term Sample.next_day /\
       gapWithinOneDay Iso.getTime Sample.first_term Sample.next_day).
Proof.
  split; [ vm_compute; reflexivity |].
  apply (proj1 merge_iff_same_party_and_gap_within_one_day Iso.getTime
           (Many [Sample.next_day; Sample.first_term]) []
           Sample.first_term Sample.next_day []).
  vm_compute; reflexivity.
Defined.

(** C2, as the code has it.  Two neighbours of the start-sorted sequence
    with the same party id whose gap is negative (the next period starts
    before the previous one ends) are not merged: the first closes a
    record and the second opens a new one. *)
Theorem overlap_starts_new_record :
  forall getTime ms pre a b post gap,
    sortedMilitancias getTime ms = pre ++ a :: b :: post ->
    sameParty a b ->
    gapIs getTime a b gap ->
    gap < 0 ->
    keptApart (mergeSequentialMilitancias getTime ms) pre a b.
Proof.
  intros getTime ms pre a b post gap Hsorted _ Hgap Hneg.
  unfold mergeSequentialMilitancias. rewrite Hsorted.
  apply scan_pair. intros [_ (gap' & Hgap' & Hrange)].
  rewrite (gapIs_unique _ _ _ _ _ Hgap Hgap') in Hneg. lia.
Qed.

Lemma overlap_starts_new_record_witness :
  keptApart
    (mergeSequentialMilitancias Iso.getTime
       (Many [Sample.first_term; Sample.overlapping]))
    [] Sample.first_term Sample.overlapping.
Proof.
  apply (overlap_starts_new_record Iso.getTime
           (Many [Sample.first_term; Sample.overlapping]) []
           Sample.first_term Sample.overlapping [] (-18489600000)).
  - vm_compute; reflexivity.
  - reflexivity.
  - exists 1577836800000, 1559347200000. repeat split; vm_compute; reflexivity.
  - lia.
Defined.

(** C2 as stated fails: the socialist deputy's second period starts on
    2019-06-01, before the first one ends on 2020-01-01; the two are
    neighbours of the sorted sequence with one party id, and the
    consolidator returns two records, not one. *)
Lemma overlap_is_not_merged :
  sortedMilitancias Iso.getTime (Many [Sample.first_term; Sample.overlapping])
  = [Sample.first_term; Sample.overlapping] /\
  sameParty Sample.first_term Sample.overlapping /\
  gapIs Iso.getTime Sample.first_term Sample.overlapping (-18489600000) /\
  mergeSequentialMilitancias Iso.getTime
    (Many [Sample.first_term; Sample.overlapping])
  = [freshMerged Sample.first_term; freshMerged Sample.overlapping] /\
  ~ mergedTogether
      (mergeSequentialMilitancias Iso.getTime
         (Many [Sample.first_term; Sample.overlapping]))
      [] Sample.first_term Sample.overlapping.
Proof.
  split; [ vm_compute; reflexivity |].
  split; [ reflexivity |].
  split; [ exists 1577836800000, 1559347200000;
           repeat split; vm_compute; reflexivity |].
  split; [ vm_compute; reflexivity |].
  intros H. apply mergedTogether_recordOf in H. vm_compute in H. discriminate.
Qed.

(** C7. After every step of the merge scan, every record built so far has
    periodCount at least 1 and equal to the number of its sources, its
    sources in the order of the start-date comparator, the start date of
    its first source and the end date of its last source; so has every
    record returned. *)
Theorem merged_records_keep_invariant :
  forall getTime ms,
    (forall k,
       Forall (recordInvariant getTime)
              (fold_left (mergeStep getTime)
                         (firstn k (sortedMilitancias getTime ms)) [])) /\
    Forall (recordInvariant getTime) (mergeSequentialMilitancias getTime ms).
Proof.
  intros getTime ms. split.
  - intros k. apply scan_invariant.
    destruct (firstn_prefix k (sortedMilitancias getTime ms)) as [rest Hrest].
    apply (Sorted_app_l _ _ rest). rewrite <- Hrest.
    apply sortedMilitancias_sorted.
  - apply scan_invariant, sortedMilitancias_sorted.
Qed.

(* ------------------------------------------------------------------ *)
(** * Grouping legislators by party *)

Local Open Scope list_scope.

Lemma lookup_None {V : Type} (k : string) (obj : list (string * V)) :
  lookup k obj = None <-> ~ In k (map fst obj).
Proof.
  induction obj as [| [k' v] obj IH]; simpl.
  - tauto.
  - destruct (String.eqb_spec k k') as [-> | Hne].
    + split; [ discriminate | intros H; exfalso; apply H; now left ].
    + rewrite IH. split; [ intros H [E | Hin]; congruence | tauto ].
Qed.

Lemma lookup_app_r {V : Type} (k : string) (obj obj' : list (string * V)) :
  lookup k obj = None -> lookup k (obj ++ obj') = lookup k obj'.
Proof.
  induction obj as [| [k' v] obj IH]; simpl; [ reflexivity |].
  destruct (String.eqb k k'); [ discriminate | exact IH ].
Qed.

Lemma lookup_app_l {V : Type} (k : string) (obj obj' : list (string * V))
    (v : V) :
  lookup k obj = Some v -> lookup k (obj ++ obj') = Some v.
Proof.
  induction obj as [| [k' v'] obj IH]; simpl; [ discriminate |].
  destruct (String.eqb k k'); [ auto | exact IH ].
Qed.

Lemma lookup_In {V : Type} (k : string) (obj : list (string * V)) (v : V) :
  lookup k obj = Some v -> In (k, v) obj.
Proof.
  induction obj as [| [k' v'] obj IH]; simpl; [ discriminate |].
  destruct (String.eqb_spec k k') as [-> | Hne].
  - intros H. injection H as ->. now left.
  - intros H. right. now apply IH.
Qed.

Lemma In_lookup {V : Type} (k : string) (obj : list (string * V)) (v : V) :
  NoDup (map fst obj) -> In (k, v) obj -> lookup k obj = Some v.
Proof.
  induction obj as [| [k' v'] obj IH]; simpl; [ tauto |].
  intros Hnd [E | Hin].
  - injection E as -> ->. now rewrite String.eqb_refl.
  - inversion Hnd as [| ? ? Hk' Hnd']; subst.
    destruct (String.eqb_spec k k') as [-> | Hne].
    + exfalso. apply Hk'. apply (in_map fst) in Hin. exact Hin.
    + now apply IH.
Qed.

Lemma keys_incrCount (k : string) (acc : PartyGroups) :
  keys (incrCount k acc) = keys acc.
Proof.
  induction acc as [| [k' g] acc IH]; simpl; [ reflexivity |].
  destruct (String.eqb k k'); simpl; [ reflexivity | now f_equal ].
Qed.

Lemma lookup_incrCount_same (k : string) (acc : PartyGroups) (g : PartyGroup) :
  lookup k acc = Some g ->
  lookup k (incrCount k acc)
  = Some (mkPartyGroup (partyName g) (partyAlias g) (count g + 1) (color g)
                       (alignment g)).
Proof.
  induction acc as [| [k' g'] acc IH]; simpl; [ discriminate |].
  destruct (String.eqb k k') eqn:E; simpl; rewrite E.
  - intros H. now injection H as ->.
  - exact IH.
Qed.

Lemma lookup_incrCount_other (k k0 : string) (acc : PartyGroups) :
  k0 <> k -> lookup k0 (incrCount k acc) = lookup k0 acc.
Proof.
  intros Hne. induction acc as [| [k' g'] acc IH]; simpl; [ reflexivity |].
  destruct (String.eqb_spec k k') as [-> | Hk]; simpl.
  - destruct (String.eqb_spec k0 k'); [ contradiction | reflexivity ].
  - destruct (String.eqb k0 k'); [ reflexivity | exact IH ].
Qed.

Lemma totalCount_incrCount (k : string) (acc : PartyGroups) :
  totalCount (incrCount k acc)
  = totalCount acc + match lookup k acc with Some _ => 1 | None => 0 end.
Proof.
  induction acc as [| [k' g] acc IH]; simpl; [ reflexivity |].
  destruct (String.eqb k k'); simpl.
  - lia.
  - fold (totalCount (incrCount k acc)). fold (totalCount acc). lia.
Qed.

Lemma totalCount_app (l l' : PartyGroups) :
  totalCount (l ++ l') = totalCount l + totalCount l'.
Proof.
  induction l as [| e l IH]; simpl; [ reflexivity |].
  fold (totalCount (l ++ l')). fold (totalCount l). lia.
Qed.

Lemma Forall_groupOk_incrCount (k : string) (acc : PartyGroups) :
  Forall groupOk acc -> Forall groupOk (incrCount k acc).
Proof.
  intros H. induction H as [| [k' g] acc He Hacc IH]; simpl; [ constructor |].
  destruct (String.eqb k k').
  - constructor; [| exact Hacc ].
    destruct He as (Ha & Hc & Hcol & Hal). unfold groupOk. simpl in *.
    repeat split; auto; lia.
  - constructor; auto.
Qed.

Lemma incrCount_app_new (k : string) (acc l : PartyGroups) :
  lookup k acc = None -> incrCount k (acc ++ l) = acc ++ incrCount k l.
Proof.
  induction acc as [| [k' g] acc IH]; simpl; [ reflexivity |].
  destruct (String.eqb k k'); [ discriminate |].
  intros H. now rewrite IH.
Qed.

Lemma inherited_not_index (k : string) :
  inherited k = true -> arrayIndex k = None.
Proof.
  unfold inherited. intros H. apply existsb_exists in H as (n & Hn & E).
  apply String.eqb_eq in E. subst n. simpl in Hn.
  repeat (destruct Hn as [<- | Hn]; [ reflexivity |]). contradiction.
Qed.

Lemma inherited_not_IND : inherited "IND" = false.
Proof. reflexivity. Qed.

Lemma lookup_defineIndexed (i : Z) (k : string) (g : PartyGroup)
    (acc : PartyGroups) (k0 : string) :
  lookup k acc = None ->
  lookup k0 (defineIndexed i k g acc)
  = if String.eqb k0 k then Some g else lookup k0 acc.
Proof.
  induction acc as [| [k' g'] acc IH]; simpl; [ reflexivity |].
  destruct (String.eqb_spec k k') as [-> | Hne]; [ discriminate |].
  intros Hk.
  destruct (arrayIndex k') as [j |]; [ destruct (j <? i) |]; simpl;
    try reflexivity.
  rewrite (IH Hk).
  destruct (String.eqb_spec k0 k') as [-> | Hne0]; [| reflexivity ].
  destruct (String.eqb_spec k' k); [ congruence | reflexivity ].
Qed.

Lemma lookup_defineOwn (k : string) (g : PartyGroup) (acc : PartyGroups)
    (k0 : string) :
  lookup k acc = None ->
  lookup k0 (defineOwn k g acc)
  = if String.eqb k0 k then Some g else lookup k0 acc.
Proof.
  intros Hk. unfold defineOwn.
  destruct (arrayIndex k) as [i |]; [ now apply lookup_defineIndexed |].
  destruct (lookup k0 acc) as [v |] eqn:E0.
  - rewrite (lookup_app_l _ _ _ _ E0).
    destruct (String.eqb_spec k0 k); [ congruence | reflexivity ].
  - rewrite lookup_app_r by exact E0. simpl.
    now destruct (String.eqb k0 k).
Qed.

Lemma defineIndexed_perm (i : Z) (k : string) (g : PartyGroup)
    (acc : PartyGroups) :
  Permutation (defineIndexed i k g acc) ((k, g) :: acc).
Proof.
  induction acc as [| [k' g'] acc IH]; simpl; [ apply Permutation_refl |].
  destruct (arrayIndex k') as [j |]; [ destruct (j <? i) |];
    try apply Permutation_refl.
  eapply perm_trans; [ apply perm_skip, IH | apply perm_swap ].
Qed.

Lemma defineOwn_perm (k : string) (g : PartyGroup) (acc : PartyGroups) :
  Permutation (defineOwn k g acc) ((k, g) :: acc).
Proof.
  unfold defineOwn. destruct (arrayIndex k); [ apply defineIndexed_perm |].
  apply Permutation_sym, Permutation_cons_append.
Qed.

Lemma keys_defineIndexed (i : Z) (k : string) (g : PartyGroup)
    (acc : PartyGroups) :
  keys (defineIndexed i k g acc) = placeIndex i k (keys acc).
Proof.
  induction acc as [| [k' g'] acc IH]; simpl; [ reflexivity |].
  destruct (arrayIndex k') as [j |]; [ destruct (j <? i) |]; simpl;
    try reflexivity.
  now f_equal.
Qed.

Lemma keys_defineOwn (k : string) (g : PartyGroup) (acc : PartyGroups) :
  keys (defineOwn k g acc) = placeKey k (keys acc).
Proof.
  unfold defineOwn, placeKey.
  destruct (arrayIndex k); [ apply keys_defineIndexed |].
  unfold keys. now rewrite map_app.
Qed.

Lemma totalCount_perm_groups (l l' : PartyGroups) :
  Permutation l l' -> totalCount l = totalCount l'.
Proof.
  induction 1 as [| e l l' _ IH | a b l | l l' l'' _ IH1 _ IH2]; simpl;
    try fold (totalCount l); try fold (totalCount l'); lia.
Qed.

(** The reduce callback acts on the groups as [groupOwn] does, whatever
    the shared state holds: a counted prototype hands down NaN under
    "count", which is as falsy as [undefined]. *)
Lemma groupStep_groups (heap : Heap) (acc : PartyGroups)
    (p : option Militancia.t) :
  snd (groupStep (heap, acc) p) = groupOwn acc p.
Proof.
  unfold groupStep, groupOwn, fromPrototype. cbv zeta.
  destruct (lookup (partyIdOf p) acc); [ reflexivity |].
  destruct (inherited (partyIdOf p)); [ reflexivity |].
  destruct (String.eqb (partyIdOf p) "count" && prototypeCounted heap);
    reflexivity.
Qed.

(** What it leaves in the shared state. *)
Lemma groupStep_heap (heap : Heap) (acc : PartyGroups)
    (p : option Militancia.t) :
  fst (groupStep (heap, acc) p)
  = heap ++ match lookup (partyIdOf p) acc with
            | Some _ => []
            | None => if inherited (partyIdOf p) then [partyIdOf p] else []
            end.
Proof.
  unfold groupStep, fromPrototype. cbv zeta.
  destruct (lookup (partyIdOf p) acc); [ now rewrite app_nil_r |].
  destruct (inherited (partyIdOf p)); [ reflexivity |].
  destruct (String.eqb (partyIdOf p) "count" && prototypeCounted heap);
    simpl; now rewrite app_nil_r.
Qed.

Lemma groupsOk_nil : groupsOk [].
Proof. repeat split; constructor. Qed.

Lemma newGroup_counted (p : option Militancia.t) (acc : PartyGroups) :
  lookup (partyIdOf p) acc = None ->
  lookup (partyIdOf p)
         (incrCount (partyIdOf p) (defineOwn (partyIdOf p) (newGroup p) acc))
  = Some (mkPartyGroup (partyNameOf p) (partyIdOf p) 1
                       (colorOf (partyIdOf p)) (alignmentOf (partyIdOf p))).
Proof.
  intros E.
  erewrite lookup_incrCount_same
    by (rewrite lookup_defineOwn by exact E;
        rewrite String.eqb_refl; reflexivity).
  reflexivity.
Qed.

Lemma defineOwn_split (k : string) (g : PartyGroup) (acc : PartyGroups) :
  exists l1 l2, acc = l1 ++ l2 /\ defineOwn k g acc = l1 ++ (k, g) :: l2.
Proof.
  unfold defineOwn. destruct (arrayIndex k) as [i |].
  - induction acc as [| [k' g'] acc (l1 & l2 & Hacc & Hdef)]; simpl.
    + exists [], []. auto.
    + destruct (arrayIndex k') as [j |]; [ destruct (j <? i) |].
      * exists ((k', g') :: l1), l2. simpl. split; congruence.
      * exists [], ((k', g') :: acc). auto.
      * exists [], ((k', g') :: acc). auto.
  - exists acc, []. now rewrite app_nil_r.
Qed.

Lemma Forall_groupOk_incrCount_new (p : option Militancia.t)
    (acc : PartyGroups) :
  Forall groupOk acc ->
  lookup (partyIdOf p) acc = None ->
  Forall groupOk
    (incrCount (partyIdOf p) (defineOwn (partyIdOf p) (newGroup p) acc)).
Proof.
  intros Hok E.
  destruct (defineOwn_split (partyIdOf p) (newGroup p) acc)
    as (l1 & l2 & Hacc & ->).
  subst acc. apply Forall_app in Hok as [H1 H2].
  assert (lookup (partyIdOf p) l1 = None) as E1.
  { apply lookup_None. apply lookup_None in E. intros Hin. apply E.
    unfold keys. rewrite map_app. apply in_or_app. now left. }
  rewrite incrCount_app_new by exact E1. simpl. rewrite String.eqb_refl.
  apply Forall_app. split; [ exact H1 |].
  constructor; [| exact H2 ].
  unfold groupOk. simpl. repeat split. lia.
Qed.

Lemma groupOwn_keys (acc : PartyGroups) (p : option Militancia.t) :
  keys (groupOwn acc p) =
    if in_dec string_dec (partyIdOf p) (keys acc) then keys acc
    else if inherited (partyIdOf p) then keys acc
         else placeKey (partyIdOf p) (keys acc).
Proof.
  unfold groupOwn. cbv zeta.
  destruct (lookup (partyIdOf p) acc) eqn:E.
  - rewrite keys_incrCount.
    destruct (in_dec string_dec (partyIdOf p) (keys acc)) as [Hin | Hnin];
      [ reflexivity |].
    apply lookup_None in Hnin. congruence.
  - destruct (in_dec string_dec (partyIdOf p) (keys acc)) as [Hin | Hnin].
    { apply lookup_None in E. contradiction. }
    destruct (inherited (partyIdOf p)); [ reflexivity |].
    now rewrite keys_incrCount, keys_defineOwn.
Qed.

Lemma groupOwn_countOf (acc : PartyGroups) (p : option Militancia.t)
    (k : string) :
  Forall (fun k => inherited k = false) (keys acc) ->
  countOf k (groupOwn acc p)
  = countOf k acc
    + (if string_dec (partyIdOf p) k
       then if inherited k then 0 else 1
       else 0).
Proof.
  intros Hinh. unfold groupOwn, countOf. cbv zeta.
  destruct (string_dec (partyIdOf p) k) as [<- | Hne].
  - destruct (lookup (partyIdOf p) acc) as [g |] eqn:E.
    + rewrite (lookup_incrCount_same _ _ _ E).
      apply lookup_In, (in_map fst) in E. simpl in E.
      rewrite Forall_forall in Hinh. rewrite (Hinh _ E). reflexivity.
    + destruct (inherited (partyIdOf p)) eqn:Ei.
      * rewrite E. lia.
      * rewrite newGroup_counted by exact E. reflexivity.
  - destruct (lookup (partyIdOf p) acc) as [g |] eqn:E.
    + rewrite lookup_incrCount_other by congruence. lia.
    + destruct (inherited (partyIdOf p)); [ lia |].
      rewrite lookup_incrCount_other by congruence.
      rewrite lookup_defineOwn by exact E.
      destruct (String.eqb_spec k (partyIdOf p)); [ congruence | lia ].
Qed.

Lemma groupOwn_totalCount (acc : PartyGroups) (p : option Militancia.t) :
  Forall (fun k => inherited k = false) (keys acc) ->
  totalCount (groupOwn acc p)
  = totalCount acc + (if inherited (partyIdOf p) then 0 else 1).
Proof.
  intros Hinh. unfold groupOwn. cbv zeta.
  destruct (lookup (partyIdOf p) acc) as [g |] eqn:E.
  - rewrite totalCount_incrCount, E.
    apply lookup_In, (in_map fst) in E. simpl in E.
    rewrite Forall_forall in Hinh. now rewrite (Hinh _ E).
  - destruct (inherited (partyIdOf p)); [ lia |].
    rewrite totalCount_incrCount.
    rewrite lookup_defineOwn, String.eqb_refl by exact E.
    rewrite (totalCount_perm_groups _ _ (defineOwn_perm _ _ _)). simpl.
    fold (totalCount acc). lia.
Qed.

Lemma groupOwn_ok (acc : PartyGroups) (p : option Militancia.t) :
  groupsOk acc -> groupsOk (groupOwn acc p).
Proof.
  intros (Hnd & Hok & Hinh). unfold groupsOk.
  assert (Forall groupOk (groupOwn acc p)) as Hok'.
  { unfold groupOwn. cbv zeta.
    destruct (lookup (partyIdOf p) acc) eqn:E;
      [ now apply Forall_groupOk_incrCount |].
    destruct (inherited (partyIdOf p)); [ exact Hok |].
    now apply Forall_groupOk_incrCount_new. }
  assert (Permutation (keys (groupOwn acc p)) (keys acc) \/
          (~ In (partyIdOf p) (keys acc) /\ inherited (partyIdOf p) = false /\
           Permutation (keys (groupOwn acc p)) (partyIdOf p :: keys acc)))
    as Hkeys.
  { unfold groupOwn. cbv zeta.
    destruct (lookup (partyIdOf p) acc) eqn:E.
    - left. rewrite keys_incrCount. apply Permutation_refl.
    - destruct (inherited (partyIdOf p)) eqn:Ei;
        [ left; apply Permutation_refl |].
      right. split; [ now apply lookup_None | split; [ reflexivity |] ].
      rewrite keys_incrCount. unfold keys.
      change (partyIdOf p :: map fst acc)
        with (map fst ((partyIdOf p, newGroup p) :: acc)).
      apply Permutation_map, defineOwn_perm. }
  destruct Hkeys as [Hperm | (Hnin & Hi & Hperm)].
  - repeat split; auto.
    + eapply Permutation_NoDup; [ apply Permutation_sym, Hperm | exact Hnd ].
    + eapply Permutation_Forall; [ apply Permutation_sym, Hperm | exact Hinh ].
  - repeat split; auto.
    + eapply Permutation_NoDup; [ apply Permutation_sym, Hperm |].
      now constructor.
    + eapply Permutation_Forall; [ apply Permutation_sym, Hperm |].
      now constructor.
Qed.

Section GroupingFacts.
Variable getTime : string -> option Z.
Variable clock : nat -> Z.

Lemma groupFrom_fold (i : nat) (st : Heap * PartyGroups)
    (legislators : list DiputadoPeriodo) :
  groupFrom getTime clock i st legislators
  = fold_left groupStep (partiesFrom getTime clock i legislators) st.
Proof.
  revert i st. induction legislators as [| leg rest IH]; intros i st; simpl.
  - reflexivity.
  - apply IH.
Qed.
Lemma length_partiesFrom (i : nat) (legislators : list DiputadoPeriodo) :
  List.length (partiesFrom getTime clock i legislators)
  = List.length legislators.
Proof.
  revert i. induction legislators as [| leg rest IH]; intros i; simpl; auto.
Qed.

Lemma nth_partiesFrom (i j : nat) (legislators : list DiputadoPeriodo)
    (leg : DiputadoPeriodo) :
  nth_error legislators j = Some leg ->
  nth_error (partiesFrom getTime clock i legislators) j
  = Some (currentPartyAt getTime clock (i + j) leg).
Proof.
  revert i j. induction legislators as [| l0 rest IH]; intros i j.
  - destruct j; discriminate.
  - destruct j as [| j]; simpl.
    + intros H. injection H as ->. now rewrite Nat.add_0_r.
    + intros H. rewrite (IH (S i) j H). do 2 f_equal. lia.
Qed.
End GroupingFacts.

(** The folds of the callback over the parties found. *)
Lemma fold_groupStep_groups (ps : list (option Militancia.t)) :
  forall heap acc,
    snd (fold_left groupStep ps (heap, acc)) = fold_left groupOwn ps acc.
Proof.
  induction ps as [| p ps IH]; intros heap acc; cbn [fold_left];
    [ reflexivity |].
  pose proof (groupStep_groups heap acc p) as H.
  destruct (groupStep (heap, acc) p) as [heap' acc']. simpl in H. subst acc'.
  apply IH.
Qed.

Lemma fold_groupOwn_ok (ps : list (option Militancia.t)) :
  forall acc, groupsOk acc -> groupsOk (fold_left groupOwn ps acc).
Proof.
  induction ps as [| p ps IH]; intros acc H; simpl; [ exact H |].
  now apply IH, groupOwn_ok.
Qed.

Lemma fold_groupStep_heap (ps : list (option Militancia.t)) :
  forall heap acc,
    groupsOk acc ->
    fst (fold_left groupStep ps (heap, acc))
    = heap ++ filter inherited (map partyIdOf ps).
Proof.
  induction ps as [| p ps IH]; intros heap acc Hacc; cbn [fold_left].
  - simpl. now rewrite app_nil_r.
  - pose proof (groupStep_groups heap acc p) as Hg.
    pose proof (groupStep_heap heap acc p) as Hh.
    destruct (groupStep (heap, acc) p) as [heap' acc']. simpl in Hg, Hh.
    subst. rewrite IH by now apply groupOwn_ok.
    rewrite <- app_assoc. f_equal. simpl.
    destruct Hacc as (_ & _ & Hinh).
    destruct (lookup (partyIdOf p) acc) as [g |] eqn:E.
    + apply lookup_In, (in_map fst) in E. simpl in E.
      rewrite Forall_forall in Hinh. now rewrite (Hinh _ E).
    + now destruct (inherited (partyIdOf p)).
Qed.

Lemma count_occ_ownIds (ids : list string) (k : string) :
  count_occ string_dec (ownIds ids) k
  = if inherited k then O else count_occ string_dec ids k.
Proof.
  induction ids as [| id ids IH]; simpl; [ now destruct (inherited k) |].
  destruct (string_dec id k) as [-> | Hne].
  - destruct (inherited k) eqn:E; simpl; [ exact IH |].
    destruct (string_dec k k); [ now rewrite IH | contradiction ].
  - destruct (inherited id); simpl; [ exact IH |].
    destruct (string_dec id k); [ contradiction | exact IH ].
Qed.

Lemma fold_groupOwn_countOf (ps : list (option Militancia.t)) (k : string) :
  forall acc,
    groupsOk acc ->
    countOf k (fold_left groupOwn ps acc)
    = countOf k acc
      + Z.of_nat (count_occ string_dec (ownIds (map partyIdOf ps)) k).
Proof.
  induction ps as [| p ps IH]; intros acc Hacc; simpl fold_left;
    [ simpl; lia |].
  rewrite IH by now apply groupOwn_ok.
  rewrite groupOwn_countOf by apply Hacc.
  rewrite !count_occ_ownIds. simpl.
  destruct (string_dec (partyIdOf p) k); destruct (inherited k); lia.
Qed.

Lemma fold_groupOwn_totalCount (ps : list (option Militancia.t)) :
  forall acc,
    groupsOk acc ->
    totalCount (fold_left groupOwn ps acc)
    = totalCount acc + Z.of_nat (List.length (ownIds (map partyIdOf ps))).
Proof.
  induction ps as [| p ps IH]; intros acc Hacc; simpl fold_left;
    [ simpl; lia |].
  rewrite IH by now apply groupOwn_ok.
  rewrite groupOwn_totalCount by apply Hacc. simpl.
  destruct (inherited (partyIdOf p)); simpl List.length; lia.
Qed.

(** ** The order of the keys *)

Lemma fold_groupOwn_keys (ps : list (option Militancia.t)) :
  forall acc,
    keys (fold_left groupOwn ps acc)
    = fold_left keyStep (map partyIdOf ps) (keys acc).
Proof.
  induction ps as [| p ps IH]; intros acc; simpl; [ reflexivity |].
  now rewrite IH, groupOwn_keys.
Qed.

Lemma placeIndex_perm (i : Z) (key : string) (ks : list string) :
  Permutation (placeIndex i key ks) (key :: ks).
Proof.
  induction ks as [| k ks IH]; simpl; [ apply Permutation_refl |].
  destruct (arrayIndex k) as [j |]; [ destruct (j <? i) |];
    try apply Permutation_refl.
  eapply perm_trans; [ apply perm_skip, IH | apply perm_swap ].
Qed.

Lemma placeKey_perm (key : string) (ks : list string) :
  Permutation (placeKey key ks) (key :: ks).
Proof.
  unfold placeKey. destruct (arrayIndex key); [ apply placeIndex_perm |].
  apply Permutation_sym, Permutation_cons_append.
Qed.

Lemma keyStep_In (seen : list string) (id k : string) :
  In k (keyStep seen id)
  <-> In k seen \/ (k = id /\ inherited id = false).
Proof.
  unfold keyStep.
  destruct (in_dec string_dec id seen) as [Hin | Hnin].
  - split; [ auto | intros [H | [-> _]]; auto ].
  - destruct (inherited id) eqn:E.
    + split; [ auto | intros [H | [_ H]]; [ auto | discriminate ] ].
    + split.
      * intros H. apply (Permutation_in _ (placeKey_perm id seen)) in H.
        destruct H as [<- | H]; auto.
      * intros H.
        apply (Permutation_in _ (Permutation_sym (placeKey_perm id seen))).
        destruct H as [H | [-> _]]; [ now right | now left ].
Qed.

Lemma fold_keyStep_In (ids : list string) (k : string) :
  forall seen,
    In k (fold_left keyStep ids seen) <-> In k seen \/ In k (ownIds ids).
Proof.
  induction ids as [| id ids IH]; intros seen; simpl; [ tauto |].
  rewrite IH, keyStep_In. unfold ownIds at 2. simpl.
  destruct (inherited id) eqn:E; simpl; fold (ownIds ids).
  - split; [ intros [[H | [_ H]] | H]; auto; discriminate | tauto ].
  - split; [ intros [[H | [-> _]] | H]; auto | ].
    intros [H | [<- | H]]; auto.
Qed.

Lemma otherKeys_app (l l' : list string) :
  otherKeys (l ++ l') = otherKeys l ++ otherKeys l'.
Proof. apply filter_app. Qed.

Lemma otherKeys_cons (k : string) (ks : list string) :
  otherKeys (k :: ks)
  = if isIndexKey k then otherKeys ks else k :: otherKeys ks.
Proof. unfold otherKeys. simpl. now destruct (isIndexKey k). Qed.

Lemma otherKeys_placeIndex (i : Z) (key : string) (ks : list string) :
  isIndexKey key = true -> otherKeys (placeIndex i key ks) = otherKeys ks.
Proof.
  intros Hkey. induction ks as [| k ks IH]; cbn [placeIndex].
  - now rewrite otherKeys_cons, Hkey.
  - destruct (arrayIndex k) as [j |] eqn:Ek; [ destruct (j <? i) |].
    + now rewrite !otherKeys_cons, IH.
    + now rewrite (otherKeys_cons key), Hkey.
    + now rewrite (otherKeys_cons key), Hkey.
Qed.

Lemma In_otherKeys (k : string) (ks : list string) :
  In k (otherKeys ks) <-> In k ks /\ isIndexKey k = false.
Proof.
  unfold otherKeys. rewrite filter_In, negb_true_iff. reflexivity.
Qed.

Lemma otherKeys_keyStep (seen : list string) (id : string) :
  otherKeys (keyStep seen id)
  = if isIndexKey id || inherited id then otherKeys seen
    else firstSeenStep (otherKeys seen) id.
Proof.
  unfold keyStep, firstSeenStep.
  destruct (in_dec string_dec id seen) as [Hin | Hnin].
  - destruct (isIndexKey id) eqn:Ei; [ reflexivity |].
    destruct (inherited id); [ reflexivity |]. simpl.
    destruct (in_dec string_dec id (otherKeys seen)) as [| Hn];
      [ reflexivity |].
    exfalso. apply Hn. now apply In_otherKeys.
  - destruct (inherited id) eqn:Einh; [ now rewrite orb_true_r |].
    rewrite orb_false_r. unfold placeKey.
    destruct (isIndexKey id) eqn:Ei.
    + unfold isIndexKey in Ei. destruct (arrayIndex id) as [i |] eqn:Ea;
        [| discriminate ].
      apply otherKeys_placeIndex. unfold isIndexKey. now rewrite Ea.
    + unfold isIndexKey in Ei. destruct (arrayIndex id) eqn:Ea;
        [ discriminate |].
      destruct (in_dec string_dec id (otherKeys seen)) as [Hi |].
      { apply In_otherKeys in Hi. tauto. }
      rewrite otherKeys_app. simpl. unfold isIndexKey. now rewrite Ea.
Qed.

Lemma fold_keyStep_others (ids : list string) :
  forall seen,
    otherKeys (fold_left keyStep ids seen)
    = fold_left firstSeenStep (otherKeys (ownIds ids)) (otherKeys seen).
Proof.
  induction ids as [| id ids IH]; intros seen; simpl; [ reflexivity |].
  rewrite IH, otherKeys_keyStep. unfold ownIds at 2. simpl.
  destruct (inherited id); simpl; fold (ownIds ids).
  - now rewrite orb_true_r.
  - rewrite orb_false_r. now destruct (isIndexKey id).
Qed.

Lemma placeIndex_enumerated (i : Z) (key : string) (others : list string) :
  arrayIndex key = Some i ->
  Forall (fun k => isIndexKey k = false) others ->
  forall indices,
    Forall (fun k => isIndexKey k = true) indices ->
    Sorted indexLe indices ->
    exists indices',
      placeIndex i key (indices ++ others) = indices' ++ others /\
      Forall (fun k => isIndexKey k = true) indices' /\
      Sorted indexLe indices' /\
      forall k0, HdRel indexLe k0 indices -> indexLe k0 key ->
                 HdRel indexLe k0 indices'.
Proof.
  intros Hkey Hothers.
  assert (isIndexKey key = true) as Hk by (unfold isIndexKey; now rewrite Hkey).
  induction indices as [| k indices IH]; intros Hidx Hsorted.
  - exists [key]. simpl. repeat split; auto.
    destruct others as [| o others]; [ reflexivity |]. simpl.
    inversion Hothers as [| ? ? Ho _]; subst. unfold isIndexKey in Ho.
    destruct (arrayIndex o); [ discriminate | reflexivity ].
  - inversion Hidx as [| ? ? Hk0 Hidx']; subst.
    inversion Hsorted as [| ? ? Hsorted' Hhd]; subst.
    simpl. unfold isIndexKey in Hk0.
    destruct (arrayIndex k) as [j |] eqn:Ej; [| discriminate ].
    destruct (Z.ltb_spec j i) as [Hlt | Hge].
    + destruct (IH Hidx' Hsorted') as (indices' & Hplace & Hi' & Hs' & Hhd').
      exists (k :: indices'). simpl. rewrite Hplace.
      split; [ reflexivity |].
      split; [ constructor;
               [ unfold isIndexKey; now rewrite Ej | exact Hi' ] |].
      split.
      * constructor; [ exact Hs' |]. apply Hhd'; [ exact Hhd |].
        unfold indexLe. rewrite Ej, Hkey. lia.
      * intros k0 Hk0' _. inversion Hk0'; subst. now constructor.
    + exists (key :: k :: indices). simpl.
      split; [ reflexivity |].
      split; [ constructor; [ exact Hk | exact Hidx ] |].
      split.
      * constructor; [ exact Hsorted |]. constructor.
        unfold indexLe. rewrite Hkey, Ej. lia.
      * intros k0 _ Hle. now constructor.
Qed.

Lemma placeKey_enumerated (key : string) (ks : list string) :
  enumerated ks -> enumerated (placeKey key ks).
Proof.
  intros (indices & others & -> & Hidx & Hsorted & Hothers).
  unfold placeKey. destruct (arrayIndex key) as [i |] eqn:E.
  - destruct (placeIndex_enumerated i key others E Hothers indices Hidx Hsorted)
      as (indices' & -> & Hi' & Hs' & _).
    exists indices', others. auto.
  - exists indices, (others ++ [key]). rewrite app_assoc.
    repeat split; auto. apply Forall_app. split; [ exact Hothers |].
    constructor; [| constructor ]. unfold isIndexKey. now rewrite E.
Qed.

Lemma fold_keyStep_enumerated (ids : list string) :
  forall seen, enumerated seen -> enumerated (fold_left keyStep ids seen).
Proof.
  induction ids as [| id ids IH]; intros seen H; simpl; [ exact H |].
  apply IH. unfold keyStep.
  destruct (in_dec string_dec id seen); [ exact H |].
  destruct (inherited id); [ exact H |].
  now apply placeKey_enumerated.
Qed.

Lemma otherKeys_indices (l : list string) :
  Forall (fun k => isIndexKey k = true) l -> otherKeys l = [].
Proof.
  induction 1 as [| k l Hk _ IH]; [ reflexivity |].
  now rewrite otherKeys_cons, Hk.
Qed.

Lemma otherKeys_others (l : list string) :
  Forall (fun k => isIndexKey k = false) l -> otherKeys l = l.
Proof.
  induction 1 as [| k l Hk _ IH]; [ reflexivity |].
  now rewrite otherKeys_cons, Hk, IH.
Qed.

Lemma enumerated_others (ks : list string) :
  enumerated ks ->
  exists indices,
    ks = indices ++ otherKeys ks /\
    Forall (fun k => isIndexKey k = true) indices /\
    Sorted indexLe indices.
Proof.
  intros (indices & others & -> & Hidx & Hsorted & Hothers).
  exists indices. split; [| split; assumption ].
  now rewrite otherKeys_app, otherKeys_indices, otherKeys_others.
Qed.

Lemma firstSeen_ordinary (ids : list string) :
  Forall ordinary ids -> otherKeys (ownIds ids) = ids.
Proof.
  induction 1 as [| id ids [Hinh Hidx] _ IH]; [ reflexivity |].
  unfold ownIds. simpl. rewrite Hinh. simpl. fold (ownIds ids).
  unfold isIndexKey. rewrite Hidx. simpl. now f_equal.
Qed.

(** What the grouping returns, whatever state it starts in. *)
Lemma partyGroupsOf_spec getTime clock heap
    (legislators : list DiputadoPeriodo) :
  let groups := partyGroupsOf getTime clock heap legislators in
  let ids := resolvedIds getTime clock legislators in
  (forall k, In k (keys groups) <-> In k (ownIds ids)) /\
  NoDup (keys groups) /\
  Forall groupOk groups /\
  (forall k, countOf k groups
             = Z.of_nat (count_occ string_dec (ownIds ids) k)) /\
  totalCount groups = Z.of_nat (List.length (ownIds ids)) /\
  (exists indices,
     keys groups = indices ++ firstSeen (otherKeys (ownIds ids)) /\
     Forall (fun k => isIndexKey k = true) indices /\
     Sorted indexLe indices).
Proof.
  cbv zeta. unfold partyGroupsOf, resolvedIds.
  rewrite groupFrom_fold, fold_groupStep_groups.
  set (ps := partiesFrom getTime clock 0 legislators).
  destruct (fold_groupOwn_ok ps [] groupsOk_nil) as (Hnd & Hok & Hinh).
  split; [| split; [ exact Hnd | split; [ exact Hok | split; [| split ] ] ] ].
  - intros k. rewrite fold_groupOwn_keys, fold_keyStep_In. simpl. tauto.
  - intros k. now rewrite fold_groupOwn_countOf by apply groupsOk_nil.
  - now rewrite fold_groupOwn_totalCount by apply groupsOk_nil.
  - rewrite fold_groupOwn_keys.
    destruct (enumerated_others (fold_left keyStep (map partyIdOf ps) (keys [])))
      as (indices & Hks & Hidx & Hsorted).
    { apply fold_keyStep_enumerated. exists [], []. repeat split; constructor. }
    exists indices. split; [| split; assumption ].
    rewrite Hks at 1. f_equal. apply fold_keyStep_others.
Qed.

(** The state the grouping leaves: the inherited names it met are
    counted, in the order it met them. *)
Lemma heapAfter_spec getTime clock heap
    (legislators : list DiputadoPeriodo) :
  heapAfter getTime clock heap legislators
  = heap ++ filter inherited (resolvedIds getTime clock legislators).
Proof.
  unfold heapAfter, resolvedIds. rewrite groupFrom_fold.
  apply fold_groupStep_heap, groupsOk_nil.
Qed.

Lemma ownIds_all (ids : list string) :
  Forall (fun k => inherited k = false) ids -> ownIds ids = ids.
Proof.
  induction 1 as [| id ids H _ IH]; [ reflexivity |].
  unfold ownIds. simpl. rewrite H. simpl. now f_equal.
Qed.

(* ------------------------------------------------------------------ *)
(** * Ordering the parties *)

Section SortStable.
Context {A : Type}.
Variable cmp : A -> A -> comparison.
Variable p : A -> bool.
(** [p] never holds of two elements the comparator tells apart. *)
Hypothesis p_ties : forall a b, cmp a b = Gt -> p a && p b = false.

Lemma insert_filter (x : A) (l : list A) :
  filter p (JS.insert cmp x l) = filter p (x :: l).
Proof.
  induction l as [| y l IH]; [ reflexivity |].
  simpl JS.insert. destruct (cmp x y) eqn:E; try reflexivity.
  specialize (p_ties x y E).
  simpl filter in *. rewrite IH.
  destruct (p x), (p y); simpl in *; congruence.
Qed.

Lemma sort_filter (l : list A) : filter p (JS.sort cmp l) = filter p l.
Proof.
  induction l as [| x l IH]; [ reflexivity |].
  simpl JS.sort. rewrite insert_filter. simpl. now rewrite IH.
Qed.
End SortStable.

Lemma byCountDesc_Gt (a b : string * PartyGroup) :
  byCountDesc a b = Gt <-> count (snd a) < count (snd b).
Proof. unfold byCountDesc. rewrite Z.compare_gt_iff. lia. Qed.

Lemma byCountDesc_antisym (a b : string * PartyGroup) :
  byCountDesc a b = Gt -> byCountDesc b a <> Gt.
Proof. rewrite !byCountDesc_Gt. lia. Qed.

Lemma sort_byCountDesc_stable (input : PartyGroups) :
  stableDescending input (JS.sort byCountDesc input).
Proof.
  split; [ apply sort_perm | split ].
  - apply (Sorted_impl (fun a b => byCountDesc a b <> Gt)).
    + intros a b H. rewrite byCountDesc_Gt in H. lia.
    + apply sort_sorted, byCountDesc_antisym.
  - intros c. apply sort_filter. intros a b H.
    apply byCountDesc_Gt in H. unfold countIs.
    destruct (Z.eqb_spec (count (snd a)) c), (Z.eqb_spec (count (snd b)) c);
      simpl; auto; lia.
Qed.

Lemma alignment_cases (e : string * PartyGroup) :
  (hasAlignment left e = true /\ hasAlignment center e = false /\
   hasAlignment right e = false) \/
  (hasAlignment left e = false /\ hasAlignment center e = true /\
   hasAlignment right e = false) \/
  (hasAlignment left e = false /\ hasAlignment center e = false /\
   hasAlignment right e = true).
Proof. unfold hasAlignment. destruct (alignment (snd e)); simpl; auto. Qed.

Lemma filter_alignments_perm (groups : PartyGroups) :
  Permutation
    (filter (hasAlignment left) groups ++ filter (hasAlignment center) groups
       ++ filter (hasAlignment right) groups)
    groups.
Proof.
  induction groups as [| e groups IH]; simpl; [ constructor |].
  destruct (alignment_cases e) as [(-> & -> & ->) | [(-> & -> & ->) | (-> & -> & ->)]].
  - simpl. now constructor.
  - apply Permutation_sym.
    eapply perm_trans; [| apply Permutation_middle ].
    constructor. now apply Permutation_sym.
  - apply Permutation_sym.
    rewrite app_assoc.
    eapply perm_trans; [| apply Permutation_middle ].
    constructor. rewrite <- app_assoc. now apply Permutation_sym.
Qed.

Lemma sortedParties_perm (groups : PartyGroups) :
  Permutation (sortedParties groups) groups.
Proof.
  unfold sortedParties, leftParties, centerParties, rightParties.
  eapply perm_trans; [| apply filter_alignments_perm ].
  repeat apply Permutation_app; try apply sort_perm.
  eapply perm_trans; [ apply Permutation_sym, Permutation_rev | apply sort_perm ].
Qed.

Lemma totalCount_perm (l l' : PartyGroups) :
  Permutation l l' -> totalCount l = totalCount l'.
Proof.
  induction 1; simpl; try fold (totalCount l); try fold (totalCount l');
    try lia.
Qed.

Lemma legacy_sortedParties_perm (groups : PartyGroups) :
  Permutation (Legacy.sortedParties groups) groups.
Proof. apply sort_perm. Qed.

(* ------------------------------------------------------------------ *)
(** * Giving seats to parties *)

Lemma nth_error_next {A : Type} (done rest : list A) (a b : A) :
  nth_error (done ++ a :: b :: rest) (S (List.length done)) = Some b.
Proof. induction done as [| d done IH]; simpl; auto. Qed.

Lemma repeat_to_nat {A : Type} (a : A) (n : Z) :
  1 <= n -> repeat a (Z.to_nat n) = a :: repeat a (Z.to_nat (n - 1)).
Proof.
  intros H. replace (Z.to_nat n) with (S (Z.to_nat (n - 1))) by lia.
  reflexivity.
Qed.

Lemma zipSeats_cons (pt : float * float) (pts : list (float * float))
    (g : PartyGroup) (gs : list PartyGroup) :
  zipSeats (pt :: pts) (g :: gs) = seatAt pt g :: zipSeats pts gs.
Proof. reflexivity. Qed.

Lemma placeSeat_room (parties : PartyGroups) (px py : float)
    (st : LoopState) (cur : PartyGroup) :
  currentPartyData st = Some cur ->
  currentPartySeats st < count cur ->
  placeSeat parties px py st
  = Ok (mkLoopState (currentPartyIndex st) (currentPartySeats st + 1)
          (Some cur)
          (seats st ++ [mkSeat px py (color cur) (partyAlias cur)])).
Proof.
  intros Hd Hk. unfold placeSeat. rewrite Hd. unfold deref at 1, bind at 1.
  destruct (Z.geb_spec (currentPartySeats st) (count cur)); [ lia |].
  rewrite Hd. reflexivity.
Qed.

Lemma placeSeat_next (parties : PartyGroups) (px py : float)
    (st : LoopState) (cur : PartyGroup) (kg : string) (g : PartyGroup) :
  currentPartyData st = Some cur ->
  count cur <= currentPartySeats st ->
  nth_error parties (S (currentPartyIndex st)) = Some (kg, g) ->
  placeSeat parties px py st
  = Ok (mkLoopState (S (currentPartyIndex st)) (0 + 1) (Some g)
          (seats st ++ [mkSeat px py (color g) (partyAlias g)])).
Proof.
  intros Hd Hk Hnext. unfold placeSeat. rewrite Hd.
  unfold deref at 1, bind at 1.
  destruct (Z.geb_spec (currentPartySeats st) (count cur)); [| lia ].
  rewrite Hnext. reflexivity.
Qed.

(** The loop, started in the middle of the party [cur] with [todo] after
    it, fills the rest of [cur]'s block and then the blocks of [todo]. *)
Lemma placeAll_spec (parties : PartyGroups) (pts : list (float * float)) :
  forall done kc cur todo st,
    parties = done ++ (kc, cur) :: todo ->
    currentPartyIndex st = List.length done ->
    currentPartyData st = Some cur ->
    0 <= currentPartySeats st <= count cur ->
    Forall (fun e => 1 <= count (snd e)) todo ->
    Z.of_nat (List.length pts)
      <= count cur - currentPartySeats st + totalCount todo ->
    exists st',
      placeAll parties pts st = Ok st' /\
      seats st' =
        seats st
          ++ zipSeats pts
               (repeat cur (Z.to_nat (count cur - currentPartySeats st))
                  ++ blocks todo).
Proof.
  induction pts as [| pt rest IH]; intros done kc cur todo st Hp Hi Hd Hk Ht Hn.
  - exists st. split; [ reflexivity |]. unfold zipSeats. simpl.
    now rewrite app_nil_r.
  - simpl placeAll. simpl List.length in Hn.
    destruct (Z_lt_le_dec (currentPartySeats st) (count cur)) as [Hroom | Hfull].
    + rewrite (placeSeat_room _ _ _ _ cur Hd Hroom). unfold bind at 1.
      destruct (IH done kc cur todo
                  (mkLoopState (currentPartyIndex st)
                     (currentPartySeats st + 1) (Some cur)
                     (seats st ++ [mkSeat (fst pt) (snd pt) (color cur)
                                          (partyAlias cur)])))
        as (st' & Hrun & Hseats); simpl; auto; try lia.
      exists st'. split; [ exact Hrun |].
      rewrite Hseats. simpl. rewrite <- app_assoc. f_equal.
      rewrite (repeat_to_nat cur (count cur - currentPartySeats st)) by lia.
      simpl. rewrite zipSeats_cons.
      replace (count cur - currentPartySeats st - 1)
        with (count cur - (currentPartySeats st + 1)) by lia.
      reflexivity.
    + assert (currentPartySeats st = count cur) as Hfull' by lia.
      destruct todo as [| [kg g] todo].
      { simpl in Hn. lia. }
      inversion Ht as [| ? ? Hg Ht']; subst. simpl in Hg.
      simpl in Hn. fold (totalCount todo) in Hn.
      rewrite (placeSeat_next _ _ _ _ cur kg g Hd Hfull)
        by (rewrite Hi; apply nth_error_next).
      unfold bind at 1.
      destruct (IH (done ++ [(kc, cur)]) kg g todo
                  (mkLoopState (S (currentPartyIndex st)) (0 + 1) (Some g)
                     (seats st ++ [mkSeat (fst pt) (snd pt) (color g)
                                          (partyAlias g)])))
        as (st' & Hrun & Hseats); simpl; auto; try lia.
      * now rewrite <- app_assoc.
      * rewrite length_app. simpl. lia.
      * exists st'. split; [ exact Hrun |].
        rewrite Hseats. simpl. rewrite <- app_assoc. f_equal.
        rewrite Hfull', Z.sub_diag. simpl repeat. simpl app at 3.
        unfold blocks at 2. simpl flat_map. fold (blocks todo).
        rewrite (repeat_to_nat g (count g)) by lia.
        simpl. rewrite zipSeats_cons. reflexivity.
Qed.

Lemma length_blocks (parties : PartyGroups) :
  Forall (fun e => 1 <= count (snd e)) parties ->
  Z.of_nat (List.length (blocks parties)) = totalCount parties.
Proof.
  induction 1 as [| e parties He Hp IH]; simpl; [ reflexivity |].
  fold (blocks parties). fold (totalCount parties).
  rewrite length_app, repeat_length. lia.
Qed.

Lemma length_zipSeats (pts : list (float * float)) (gs : list PartyGroup) :
  (List.length pts <= List.length gs)%nat ->
  List.length (zipSeats pts gs) = List.length pts.
Proof.
  intros H. unfold zipSeats. rewrite length_map, length_combine. lia.
Qed.

(** From the initial state the loop gives every point its party. *)
Lemma placeAll_initial (parties groups : PartyGroups)
    (pts : list (float * float)) :
  Forall (fun e => 1 <= count (snd e)) parties ->
  Z.of_nat (List.length pts) <= totalCount parties ->
  exists st',
    placeAll parties pts (initialState parties groups) = Ok st' /\
    seats st' = zipSeats pts (blocks parties) /\
    List.length (seats st') = List.length pts.
Proof.
  intros Hp Hn.
  assert (exists st',
            placeAll parties pts (initialState parties groups) = Ok st' /\
            seats st' = zipSeats pts (blocks parties)) as (st' & Hrun & Hs).
  { destruct parties as [| [k cur] todo].
    - destruct pts; [| simpl in Hn; lia ].
      eexists. split; reflexivity.
    - inversion Hp as [| ? ? Hcur Htodo]; subst. simpl in Hcur.
      simpl in Hn. fold (totalCount todo) in Hn.
      destruct (placeAll_spec ((k, cur) :: todo) pts [] k cur todo
                  (initialState ((k, cur) :: todo) groups))
        as (st' & Hrun & Hs); simpl; auto; try lia.
      exists st'. split; [ exact Hrun |].
      rewrite Hs. simpl. now rewrite Z.sub_0_r. }
  exists st'. repeat split; auto.
  rewrite Hs. apply length_zipSeats.
  pose proof (length_blocks parties Hp). lia.
Qed.

(** ** Seats beyond the blocks

    When the counts add up to less than the seats, the loop keeps the
    last party for the seats that are left; with no party at all it
    reads the count of [undefined]. *)

Lemma placeSeat_stay (parties : PartyGroups) (px py : float)
    (st : LoopState) (cur : PartyGroup) :
  currentPartyData st = Some cur ->
  count cur <= currentPartySeats st ->
  nth_error parties (S (currentPartyIndex st)) = None ->
  placeSeat parties px py st
  = Ok (mkLoopState (S (currentPartyIndex st)) (currentPartySeats st + 1)
          (Some cur)
          (seats st ++ [mkSeat px py (color cur) (partyAlias cur)])).
Proof.
  intros Hd Hk Hnext. unfold placeSeat. rewrite Hd.
  unfold deref at 1, bind at 1.
  destruct (Z.geb_spec (currentPartySeats st) (count cur)); [| lia ].
  rewrite Hnext. reflexivity.
Qed.

Lemma zipSeats_pad (g : PartyGroup) (pts : list (float * float)) :
  forall gs m m',
    (List.length pts <= List.length gs + m)%nat ->
    (List.length pts <= List.length gs + m')%nat ->
    zipSeats pts (gs ++ repeat g m) = zipSeats pts (gs ++ repeat g m').
Proof.
  induction pts as [| pt pts IH]; intros gs m m' Hm Hm'; [ reflexivity |].
  destruct gs as [| g0 gs]; simpl in Hm, Hm'.
  - destruct m as [| m]; [ lia |]. destruct m' as [| m']; [ lia |].
    simpl. rewrite !zipSeats_cons. f_equal.
    apply (IH [] m m'); simpl; lia.
  - simpl. rewrite !zipSeats_cons. f_equal. apply IH; lia.
Qed.

Lemma last_cons {A : Type} (a d : A) (l : list A) :
  last (a :: l) d = last l a.
Proof.
  revert a d. induction l as [| b l IH]; intros a d; [ reflexivity |].
  change (last (a :: b :: l) d) with (last (b :: l) d).
  now rewrite (IH b d), (IH b a).
Qed.

Lemma last_elt_cons {A : Type} (a : A) (l : list A) :
  JS.last_elt (a :: l) = Some (last l a).
Proof.
  destruct l as [| b l] using rev_ind; [ reflexivity |].
  rewrite app_comm_cons, last_elt_snoc, last_last. reflexivity.
Qed.

(** The loop from the middle of the party [cur], with [todo] after it:
    the rest of [cur]'s block, the blocks of [todo], and the last party
    for every point beyond them. *)
Lemma placeAll_past (parties : PartyGroups) (pts : list (float * float)) :
  forall done kc cur todo st m,
    parties = done ++ (kc, cur) :: todo ->
    (List.length done <= currentPartyIndex st)%nat ->
    (todo <> [] ->
     currentPartyIndex st = List.length done /\
     currentPartySeats st <= count cur) ->
    currentPartyData st = Some cur ->
    0 <= currentPartySeats st ->
    Forall (fun e => 1 <= count (snd e)) todo ->
    (List.length pts <= m)%nat ->
    exists st',
      placeAll parties pts st = Ok st' /\
      seats st' =
        seats st
          ++ zipSeats pts
               (repeat cur (Z.to_nat (count cur - currentPartySeats st))
                  ++ blocks todo
                  ++ repeat (snd (last todo (kc, cur))) m).
Proof.
  induction pts as [| pt rest IH];
    intros done kc cur todo st m Hp Hi Hmid Hd Hs Ht Hm.
  - exists st. split; [ reflexivity |]. unfold zipSeats. simpl.
    now rewrite app_nil_r.
  - simpl placeAll. simpl List.length in Hm.
    destruct (Z_lt_le_dec (currentPartySeats st) (count cur)) as [Hroom | Hfull].
    + rewrite (placeSeat_room _ _ _ _ cur Hd Hroom). unfold bind at 1.
      destruct (IH done kc cur todo
                  (mkLoopState (currentPartyIndex st)
                     (currentPartySeats st + 1) (Some cur)
                     (seats st ++ [mkSeat (fst pt) (snd pt) (color cur)
                                          (partyAlias cur)])) m)
        as (st' & Hrun & Hseats); simpl; auto; try lia.
      { intros Hne. destruct (Hmid Hne). lia. }
      exists st'. split; [ exact Hrun |].
      rewrite Hseats. simpl. rewrite <- app_assoc. f_equal.
      rewrite (repeat_to_nat cur (count cur - currentPartySeats st)) by lia.
      simpl. rewrite zipSeats_cons.
      replace (count cur - currentPartySeats st - 1)
        with (count cur - (currentPartySeats st + 1)) by lia.
      reflexivity.
    + replace (Z.to_nat (count cur - currentPartySeats st)) with O by lia.
      simpl repeat. simpl app at 2.
      destruct todo as [| [kg g] todo].
      * (* no party is left: the last one stays *)
        assert (nth_error parties (S (currentPartyIndex st)) = None) as Hnone.
        { apply nth_error_None. rewrite Hp, length_app. simpl. lia. }
        rewrite (placeSeat_stay _ _ _ _ cur Hd Hfull Hnone). unfold bind at 1.
        destruct (IH done kc cur []
                    (mkLoopState (S (currentPartyIndex st))
                       (currentPartySeats st + 1) (Some cur)
                       (seats st ++ [mkSeat (fst pt) (snd pt) (color cur)
                                            (partyAlias cur)])) m)
          as (st' & Hrun & Hseats); simpl; auto; try lia.
        { intros Hne. contradiction. }
        exists st'. split; [ exact Hrun |].
        rewrite Hseats. simpl. rewrite <- app_assoc. f_equal.
        replace (Z.to_nat (count cur - (currentPartySeats st + 1))) with O
          by lia.
        simpl.
        destruct m as [| m]; [ lia |]. simpl repeat at 2.
        rewrite zipSeats_cons. f_equal.
        apply (zipSeats_pad cur rest [] (S m) m); simpl; lia.
      * destruct (Hmid ltac:(discriminate)) as [Hindex Hle].
        inversion Ht as [| ? ? Hg Ht']; subst. simpl in Hg.
        rewrite last_cons.
        rewrite (placeSeat_next _ _ _ _ cur kg g Hd Hfull)
          by (rewrite Hindex; apply nth_error_next).
        unfold bind at 1.
        destruct (IH (done ++ [(kc, cur)]) kg g todo
                    (mkLoopState (S (currentPartyIndex st)) (0 + 1) (Some g)
                       (seats st ++ [mkSeat (fst pt) (snd pt) (color g)
                                            (partyAlias g)])) m)
          as (st' & Hrun & Hseats); simpl; auto; try lia.
        { now rewrite <- app_assoc. }
        { rewrite length_app. simpl. lia. }
        { intros _. rewrite length_app. simpl. lia. }
        exists st'. split; [ exact Hrun |].
        rewrite Hseats.
        cbn [seats currentPartySeats]. rewrite <- app_assoc. f_equal.
        unfold blocks at 2. cbn [flat_map snd]. fold (blocks todo).
        rewrite (repeat_to_nat g (count g)) by lia.
        cbn [app]. rewrite zipSeats_cons, <- app_assoc.
        replace (count g - (0 + 1)) with (count g - 1) by lia.
        reflexivity.
Qed.

(** From the initial state, with at least one party. *)
Lemma placeAll_started (parties groups : PartyGroups)
    (pts : list (float * float)) (m : nat) :
  parties <> [] ->
  Forall (fun e => 1 <= count (snd e)) parties ->
  (List.length pts <= m)%nat ->
  exists st',
    placeAll parties pts (initialState parties groups) = Ok st' /\
    seats st' = zipSeats pts (paddedBlocks parties m) /\
    List.length (seats st') = List.length pts.
Proof.
  intros Hne Hp Hm. destruct parties as [| [k cur] todo]; [ contradiction |].
  inversion Hp as [| ? ? Hcur Htodo]; subst. simpl in Hcur.
  destruct (placeAll_past ((k, cur) :: todo) pts [] k cur todo
              (initialState ((k, cur) :: todo) groups) m)
    as (st' & Hrun & Hs); simpl; auto; try lia.
  assert (seats st' = zipSeats pts (paddedBlocks ((k, cur) :: todo) m)) as Hs'.
  { rewrite Hs. simpl. unfold paddedBlocks. rewrite last_elt_cons.
    rewrite Z.sub_0_r. unfold blocks at 2. simpl flat_map. fold (blocks todo).
    now rewrite <- app_assoc. }
  exists st'. repeat split; auto.
  rewrite Hs'. apply length_zipSeats.
  unfold paddedBlocks. rewrite last_elt_cons, !length_app, repeat_length. lia.
Qed.

(** With no party the first seat cannot be placed. *)
Lemma placeAll_no_party (groups : PartyGroups) (pt : float * float)
    (pts : list (float * float)) :
  lookup "IND" groups = None ->
  placeAll [] (pt :: pts) (initialState [] groups) = TypeError.
Proof. intros H. simpl. unfold placeSeat, initialState. simpl. now rewrite H. Qed.

(** The padding is not reached when the counts cover the points. *)
Lemma paddedBlocks_enough (parties : PartyGroups)
    (pts : list (float * float)) (m : nat) :
  parties <> [] ->
  Forall (fun e => 1 <= count (snd e)) parties ->
  Z.of_nat (List.length pts) <= totalCount parties ->
  zipSeats pts (paddedBlocks parties m) = zipSeats pts (blocks parties).
Proof.
  intros Hne Hp Hn. unfold paddedBlocks.
  destruct (JS.last_elt parties) as [e |] eqn:E.
  - rewrite <- (app_nil_r (blocks parties)) at 2.
    apply (zipSeats_pad (snd e) pts (blocks parties) m 0);
      pose proof (length_blocks parties Hp); lia.
  - destruct parties as [| a l]; [ contradiction |].
    now rewrite last_elt_cons in E.
Qed.

(* ------------------------------------------------------------------ *)
(** * The current chart *)

Lemma seatsPerRowArray_eq (totalSeats : Z) :
  seatsPerRowArray totalSeats = [20; 28; 36; 44; totalSeats - 128].
Proof.
  unfold seatsPerRowArray. cbv zeta.
  change nominalSeatsPerRow with [20; 28; 36; 44; 52].
  change (Z.to_nat (rows - 1)) with 4%nat.
  cbv [addAt fold_left].
  apply (f_equal (fun z => [20; 28; 36; 44; z])). lia.
Qed.

Section ChartFacts.
Variable getTime : string -> option Z.
Variable clock : nat -> Z.
Variables Math_cos Math_sin : float -> float.

Abbreviation rowPositions' := (rowPositions Math_cos Math_sin).
Abbreviation positionsFrom' := (positionsFrom Math_cos Math_sin).
Abbreviation allPositions' := (allPositions Math_cos Math_sin).

Lemma length_rowPositions (size : float) (row seatsInRow : Z) :
  List.length (rowPositions' size row seatsInRow) = Z.to_nat seatsInRow.
Proof. unfold rowPositions. cbv zeta. now rewrite length_map, length_seq. Qed.

Lemma length_positionsFrom (size : float) (perRow : list Z) :
  forall row,
    List.length (positionsFrom' size row perRow)
    = fold_right (fun k acc => (Z.to_nat k + acc)%nat) O perRow.
Proof.
  induction perRow as [| k perRow IH]; intros row; simpl; [ reflexivity |].
  now rewrite length_app, length_rowPositions, IH.
Qed.

(** The four inner rows always give 128 positions; the outermost row adds
    the excess over 128, if any. *)
Lemma length_allPositions (size : float) (totalSeats : Z) :
  List.length (allPositions' size totalSeats)
  = (128 + Z.to_nat (totalSeats - 128))%nat.
Proof.
  unfold allPositions.
  rewrite sort_length, length_positionsFrom, seatsPerRowArray_eq.
  simpl. lia.
Qed.

Lemma enough_positions (size : float) (n : nat) :
  (n <= List.length (allPositions' size (Z.of_nat n)))%nat.
Proof. rewrite length_allPositions. lia. Qed.

Lemma assignFrom_placeAll (parties : PartyGroups) (positions : list Position)
    (n : nat) :
  forall i st,
    (i + n <= List.length positions)%nat ->
    assignFrom parties positions n i st
    = placeAll parties (map pointOf (firstn n (skipn i positions))) st.
Proof.
  induction n as [| n IH]; intros i st Hlen; [ reflexivity |].
  simpl assignFrom.
  destruct (nth_error positions i) as [p |] eqn:Hp.
  2:{ apply nth_error_None in Hp. lia. }
  assert (skipn i positions = p :: skipn (S i) positions) as Hskip.
  { clear - Hp. revert i Hp.
    induction positions as [| q positions IHp]; intros i Hp.
    - destruct i; discriminate.
    - destruct i as [| i]; simpl in *.
      + now injection Hp as ->.
      + now apply IHp. }
  rewrite Hskip. simpl.
  destruct (placeSeat parties (x p) (y p) st) as [st' |]; simpl;
    [| reflexivity ].
  apply IH. lia.
Qed.

Lemma length_resolvedIds (legislators : list DiputadoPeriodo) :
  List.length (resolvedIds getTime clock legislators)
  = List.length legislators.
Proof. unfold resolvedIds. now rewrite length_map, length_partiesFrom. Qed.

(** There is a group exactly when some legislator is counted under an id
    that is no inherited name. *)
Lemma groups_empty (heap : Heap) (legislators : list DiputadoPeriodo) :
  partyGroupsOf getTime clock heap legislators = []
  <-> ownIds (resolvedIds getTime clock legislators) = [].
Proof.
  pose proof (partyGroupsOf_spec getTime clock heap legislators)
    as (Hkeys & _).
  cbv zeta in Hkeys.
  destruct (partyGroupsOf getTime clock heap legislators) as [| [k g] groups];
    destruct (ownIds (resolvedIds getTime clock legislators)) as [| id ids];
    split; try reflexivity; try discriminate; intros _; exfalso.
  - apply (proj2 (Hkeys id)). now left.
  - apply (proj1 (Hkeys k)). now left.
Qed.

Lemma sortedParties_empty (groups : PartyGroups) :
  Forall groupOk groups -> (sortedParties groups = [] <-> groups = []).
Proof.
  intros Hok. pose proof (sortedParties_perm groups) as Hperm. split.
  - intros H. rewrite H in Hperm. now apply Permutation_nil in Hperm.
  - intros ->. reflexivity.
Qed.

(** The current chart, whatever the ids: with a party it returns the
    first [totalSeats] positions of the pooled, angle-sorted sequence,
    each with the party of its block, the last party for those beyond
    the blocks; with legislators and no party it throws. *)
Lemma ParliamentChart_runs (heap : Heap)
    (legislators : list DiputadoPeriodo) (size : option float) :
  let parties :=
    sortedParties (partyGroupsOf getTime clock heap legislators) in
  let totalSeats := List.length legislators in
  let positions :=
    allPositions' (orDefault size 300%float) (Z.of_nat totalSeats) in
  let chosen := map pointOf (firstn totalSeats positions) in
  List.length chosen = totalSeats /\
  (parties <> [] ->
   ParliamentChart getTime clock Math_cos Math_sin heap legislators size
   = Ok (zipSeats chosen (paddedBlocks parties totalSeats), parties) /\
   List.length (zipSeats chosen (paddedBlocks parties totalSeats))
   = totalSeats) /\
  (parties = [] -> legislators <> [] ->
   ParliamentChart getTime clock Math_cos Math_sin heap legislators size
   = TypeError).
Proof.
  cbv zeta. unfold ParliamentChart. cbv zeta.
  pose proof (partyGroupsOf_spec getTime clock heap legislators)
    as (_ & _ & Hok & _).
  cbv zeta in Hok.
  set (groups := partyGroupsOf getTime clock heap legislators) in *.
  pose proof (sortedParties_perm groups) as Hperm.
  assert (Forall (fun e => 1 <= count (snd e)) (sortedParties groups)) as Hpos.
  { eapply Permutation_Forall; [ apply Permutation_sym, Hperm |].
    eapply Forall_impl; [| exact Hok ]. intros e He. apply He. }
  pose proof (sortedParties_empty groups Hok) as Hempty.
  pose proof (enough_positions (orDefault size 300%float)
                (List.length legislators)) as Henough.
  set (positions := allPositions' _ _) in *.
  assert (List.length (map pointOf (firstn (List.length legislators) positions))
          = List.length legislators) as Hchosen.
  { rewrite length_map, length_firstn. lia. }
  clearbody positions groups.
  rewrite assignFrom_placeAll by (rewrite Nat.add_0_l; exact Henough).
  change (skipn 0 positions) with positions.
  split; [ exact Hchosen |]. split.
  - intros Hne.
    destruct (placeAll_started (sortedParties groups) groups
                (map pointOf (firstn (List.length legislators) positions))
                (List.length legislators) Hne Hpos)
      as (st' & Hrun & Hseats & Hlen); [ lia |].
    rewrite Hrun. unfold bind. rewrite Hseats.
    split; [ reflexivity |]. now rewrite <- Hseats, Hlen.
  - intros Hnone Hleg. rewrite Hnone.
    assert (groups = []) as -> by now apply Hempty.
    destruct (map pointOf (firstn (List.length legislators) positions))
      as [| pt pts].
    + destruct legislators; [ contradiction | discriminate ].
    + rewrite placeAll_no_party by reflexivity. reflexivity.
Qed.

(** The seats of the current chart when no id is an inherited name: the
    first [totalSeats] positions of the pooled, angle-sorted sequence,
    each with the party of its block. *)
Lemma ParliamentChart_spec (heap : Heap)
    (legislators : list DiputadoPeriodo) (size : option float) :
  Forall (fun k => inherited k = false)
         (resolvedIds getTime clock legislators) ->
  let parties :=
    sortedParties (partyGroupsOf getTime clock heap legislators) in
  let totalSeats := List.length legislators in
  let positions :=
    allPositions' (orDefault size 300%float) (Z.of_nat totalSeats) in
  let chosen := map pointOf (firstn totalSeats positions) in
  ParliamentChart getTime clock Math_cos Math_sin heap legislators size
  = Ok (zipSeats chosen (blocks parties), parties) /\
  List.length (zipSeats chosen (blocks parties)) = totalSeats /\
  List.length chosen = totalSeats /\
  List.length (blocks parties) = totalSeats.
Proof.
  intros Hids. cbv zeta.
  pose proof (partyGroupsOf_spec getTime clock heap legislators)
    as (_ & _ & Hok & _ & Htotal & _).
  cbv zeta in Hok, Htotal.
  rewrite (ownIds_all _ Hids), length_resolvedIds in Htotal.
  destruct (ParliamentChart_runs heap legislators size)
    as (Hchosen & Hrun & Hthrow).
  cbv zeta in Hchosen, Hrun, Hthrow.
  set (groups := partyGroupsOf getTime clock heap legislators) in *.
  pose proof (sortedParties_perm groups) as Hperm.
  assert (Forall (fun e => 1 <= count (snd e)) (sortedParties groups)) as Hpos.
  { eapply Permutation_Forall; [ apply Permutation_sym, Hperm |].
    eapply Forall_impl; [| exact Hok ]. intros e He. apply He. }
  pose proof (length_blocks _ Hpos) as Hb.
  rewrite (totalCount_perm _ _ Hperm), Htotal in Hb.
  set (positions := allPositions' _ _) in *.
  set (chosen := map pointOf (firstn (List.length legislators) positions)) in *.
  destruct (sortedParties groups) as [| e parties] eqn:Eparties.
  - (* no party: no legislator *)
    simpl in Hb. destruct legislators as [| leg rest]; [| discriminate ].
    unfold ParliamentChart. cbv zeta. fold groups. rewrite Eparties.
    repeat split.
  - destruct (Hrun ltac:(discriminate)) as [Hok' Hlen].
    assert (zipSeats chosen (paddedBlocks (e :: parties)
                                          (List.length legislators))
            = zipSeats chosen (blocks (e :: parties))) as Hpad.
    { apply paddedBlocks_enough; [ discriminate | exact Hpos |].
      rewrite Hchosen, (totalCount_perm _ _ Hperm), Htotal. lia. }
    rewrite Hpad in Hok', Hlen.
    split; [ exact Hok' |]. split; [ exact Hlen |].
    split; [ exact Hchosen | lia ].
Qed.
End ChartFacts.

(* ------------------------------------------------------------------ *)
(** * The older chart *)

Lemma placeSeat_length (parties : PartyGroups) (px py : float)
    (st st' : LoopState) :
  placeSeat parties px py st = Ok st' ->
  List.length (seats st') = S (List.length (seats st)).
Proof.
  unfold placeSeat.
  destruct (currentPartyData st) as [cur |] eqn:Hd; [| discriminate ].
  unfold deref at 1, bind at 1.
  destruct (currentPartySeats st >=? count cur);
    [ destruct (nth_error parties (S (currentPartyIndex st))) as [[k g] |] |];
    simpl; try rewrite Hd; simpl;
    intros H; injection H as <-; simpl; rewrite length_app; simpl; lia.
Qed.

Lemma placeAll_app (parties : PartyGroups) (l1 l2 : list (float * float)) :
  forall st,
    placeAll parties (l1 ++ l2) st
    = (st' <- placeAll parties l1 st ;; placeAll parties l2 st').
Proof.
  induction l1 as [| pt l1 IH]; intros st; simpl; [ reflexivity |].
  destruct (placeSeat parties (fst pt) (snd pt) st); simpl; auto.
Qed.

Lemma placeAll_length (parties : PartyGroups) (pts : list (float * float)) :
  forall st st',
    placeAll parties pts st = Ok st' ->
    List.length (seats st') = (List.length (seats st) + List.length pts)%nat.
Proof.
  induction pts as [| pt pts IH]; intros st st'; simpl.
  - intros H. injection H as <-. lia.
  - destruct (placeSeat parties (fst pt) (snd pt) st) as [st1 |] eqn:E;
      simpl; [| discriminate ].
    intros H. rewrite (IH _ _ H), (placeSeat_length _ _ _ _ _ E). lia.
Qed.

Section LegacyFacts.
Variable getTime : string -> option Z.
Variable clock : nat -> Z.
Variables Math_cos Math_sin : float -> float.

Abbreviation legacyPoint := (legacyPoint Math_cos Math_sin).
Abbreviation legacyPoints := (legacyPoints Math_cos Math_sin).

Lemma fillRow_placeAll (parties : PartyGroups) (size : float)
    (row seatsInRow : Z) (totalSeats : nat) (seatIndices : list nat) :
  forall st,
    Legacy.fillRow Math_cos Math_sin parties size row seatsInRow totalSeats
                   seatIndices st
    = placeAll parties
        (firstn (totalSeats - List.length (seats st))
                (map (legacyPoint size row seatsInRow) seatIndices))
        st.
Proof.
  induction seatIndices as [| seat rest IH]; intros st; simpl.
  - now rewrite firstn_nil.
  - destruct (Nat.ltb_spec (List.length (seats st)) totalSeats) as [Hlt | Hge].
    + replace (totalSeats - List.length (seats st))%nat
        with (S (totalSeats - S (List.length (seats st))))%nat by lia.
      simpl.
      destruct (placeSeat parties _ _ st) as [st' |] eqn:E; simpl;
        [| reflexivity ].
      rewrite IH, (placeSeat_length _ _ _ _ _ E). reflexivity.
    + replace (totalSeats - List.length (seats st))%nat with O by lia.
      reflexivity.
Qed.

Lemma fillRows_placeAll (parties : PartyGroups) (size : float) (perRow : Z)
    (totalSeats : nat) (rowIndices : list nat) :
  forall st,
    Legacy.fillRows Math_cos Math_sin parties size perRow totalSeats
                    rowIndices st
    = placeAll parties
        (firstn (totalSeats - List.length (seats st))
                (legacyPoints size perRow rowIndices))
        st.
Proof.
  induction rowIndices as [| row rest IH]; intros st; simpl.
  - now rewrite firstn_nil.
  - rewrite fillRow_placeAll.
    fold (legacyPoints size perRow rest).
    rewrite firstn_app, placeAll_app.
    set (rowPts := map _ (seq 0 _)).
    destruct (placeAll parties
                (firstn (totalSeats - List.length (seats st)) rowPts) st)
      as [st' |] eqn:E; simpl; [| reflexivity ].
    rewrite IH. f_equal. f_equal.
    rewrite (placeAll_length _ _ _ _ E), length_firstn. lia.
Qed.

Lemma length_legacyPoints (size : float) (perRow : Z) (rowIndices : list nat) :
  Z.of_nat (List.length (legacyPoints size perRow rowIndices))
  = fold_right
      (fun row acc =>
         Z.max 0 (Legacy.seatsInRowOf perRow (Z.of_nat row)) + acc)
      0 rowIndices.
Proof.
  induction rowIndices as [| row rest IH]; simpl; [ reflexivity |].
  fold (legacyPoints size perRow rest).
  rewrite length_app, length_map, length_seq. lia.
Qed.

Lemma legacy_sortedParties_empty (groups : PartyGroups) :
  Legacy.sortedParties groups = [] <-> groups = [].
Proof.
  pose proof (legacy_sortedParties_perm groups) as Hperm. split.
  - intros H. rewrite H in Hperm. now apply Permutation_nil in Hperm.
  - intros ->. reflexivity.
Qed.

(** The older chart, whatever the ids: with a party it returns the first
    [totalSeats] points of its rows, or all of them if the rows hold
    fewer, each with the party of its block, the last party for those
    beyond the blocks; with a point to place and no party it throws. *)
Lemma legacy_ParliamentChart_runs (heap : Heap)
    (legislators : list DiputadoPeriodo) (size : option float) :
  let parties :=
    Legacy.sortedParties (partyGroupsOf getTime clock heap legislators) in
  let totalSeats := List.length legislators in
  let pts :=
    legacyPoints (orDefault size 300%float)
                 (Legacy.seatsPerRow (Z.of_nat totalSeats))
                 (seq 0 (Z.to_nat rows)) in
  let chosen := firstn totalSeats pts in
  Z.of_nat (List.length pts) = Legacy.capacity (Z.of_nat totalSeats) /\
  (parties <> [] ->
   Legacy.ParliamentChart getTime clock Math_cos Math_sin heap legislators size
   = Ok (zipSeats chosen (paddedBlocks parties totalSeats), parties) /\
   List.length (zipSeats chosen (paddedBlocks parties totalSeats))
   = Nat.min totalSeats (List.length pts)) /\
  (parties = [] -> chosen <> [] ->
   Legacy.ParliamentChart getTime clock Math_cos Math_sin heap legislators size
   = TypeError).
Proof.
  cbv zeta. unfold Legacy.ParliamentChart. cbv zeta.
  pose proof (partyGroupsOf_spec getTime clock heap legislators)
    as (_ & _ & Hok & _).
  cbv zeta in Hok.
  set (groups := partyGroupsOf getTime clock heap legislators) in *.
  pose proof (legacy_sortedParties_perm groups) as Hperm.
  assert (Forall (fun e => 1 <= count (snd e)) (Legacy.sortedParties groups))
    as Hpos.
  { eapply Permutation_Forall; [ apply Permutation_sym, Hperm |].
    eapply Forall_impl; [| exact Hok ]. intros e He. apply He. }
  pose proof (legacy_sortedParties_empty groups) as Hempty.
  clearbody groups.
  rewrite fillRows_placeAll.
  change (List.length (seats (initialState _ _))) with O.
  rewrite Nat.sub_0_r.
  set (pts := legacyPoints _ _ _).
  assert (List.length (firstn (List.length legislators) pts)
          = Nat.min (List.length legislators) (List.length pts)) as Hfirst
      by apply length_firstn.
  split; [ apply length_legacyPoints |]. split.
  - intros Hne.
    destruct (placeAll_started (Legacy.sortedParties groups) groups
                (firstn (List.length legislators) pts)
                (List.length legislators) Hne Hpos)
      as (st' & Hrun & Hseats & Hlen); [ lia |].
    rewrite Hrun. unfold bind. rewrite Hseats.
    split; [ reflexivity |]. now rewrite <- Hseats, Hlen.
  - intros Hnone Hchosen. rewrite Hnone.
    assert (groups = []) as -> by now apply Hempty.
    destruct (firstn (List.length legislators) pts) as [| pt rest];
      [ contradiction |].
    rewrite placeAll_no_party by reflexivity. reflexivity.
Qed.

(** The seats of the older chart when no id is an inherited name: the
    first [totalSeats] points of its rows, or all of them if the rows
    hold fewer, each with the party of its block. *)
Lemma legacy_ParliamentChart_spec (heap : Heap)
    (legislators : list DiputadoPeriodo) (size : option float) :
  Forall (fun k => inherited k = false)
         (resolvedIds getTime clock legislators) ->
  let parties :=
    Legacy.sortedParties (partyGroupsOf getTime clock heap legislators) in
  let totalSeats := List.length legislators in
  let pts :=
    legacyPoints (orDefault size 300%float)
                 (Legacy.seatsPerRow (Z.of_nat totalSeats))
                 (seq 0 (Z.to_nat rows)) in
  Legacy.ParliamentChart getTime clock Math_cos Math_sin heap legislators size
  = Ok (zipSeats (firstn totalSeats pts) (blocks parties), parties) /\
  List.length (zipSeats (firstn totalSeats pts) (blocks parties))
  = Nat.min totalSeats (List.length pts) /\
  Z.of_nat (List.length pts) = Legacy.capacity (Z.of_nat totalSeats).
Proof.
  intros Hids. cbv zeta.
  pose proof (partyGroupsOf_spec getTime clock heap legislators)
    as (_ & _ & Hok & _ & Htotal & _).
  cbv zeta in Hok, Htotal.
  rewrite (ownIds_all _ Hids), (length_resolvedIds getTime clock) in Htotal.
  destruct (legacy_ParliamentChart_runs heap legislators size)
    as (Hcap & Hrun & _).
  cbv zeta in Hcap, Hrun.
  set (groups := partyGroupsOf getTime clock heap legislators) in *.
  pose proof (legacy_sortedParties_perm groups) as Hperm.
  assert (Forall (fun e => 1 <= count (snd e)) (Legacy.sortedParties groups))
    as Hpos.
  { eapply Permutation_Forall; [ apply Permutation_sym, Hperm |].
    eapply Forall_impl; [| exact Hok ]. intros e He. apply He. }
  pose proof (totalCount_perm _ _ Hperm) as Hsum. rewrite Htotal in Hsum.
  set (pts := legacyPoints _ _ _) in *.
  destruct (Legacy.sortedParties groups) as [| e parties] eqn:Eparties.
  - (* no party: no legislator *)
    simpl in Hsum. destruct legislators as [| leg rest]; [| discriminate ].
    unfold Legacy.ParliamentChart. cbv zeta. fold groups. rewrite Eparties.
    split; [ reflexivity |]. split; [ reflexivity | exact Hcap ].
  - destruct (Hrun ltac:(discriminate)) as [Hok' Hlen].
    assert (zipSeats (firstn (List.length legislators) pts)
                     (paddedBlocks (e :: parties) (List.length legislators))
            = zipSeats (firstn (List.length legislators) pts)
                       (blocks (e :: parties))) as Hpad.
    { apply paddedBlocks_enough; [ discriminate | exact Hpos |].
      rewrite length_firstn, Hsum. lia. }
    rewrite Hpad in Hok', Hlen. auto.
Qed.
End LegacyFacts.

(* ------------------------------------------------------------------ *)
(** * Rounding to binary64

    The older chart sizes its rows with a quotient and five products of
    binary64 numbers.  The facts below read those operations through
    their specification and bound their results from below. *)

Lemma digits2_pos_size (p : positive) : digits2_pos p = Pos.size p.
Proof. induction p; simpl; congruence. Qed.

Lemma Zdigits2_bounds (m : Z) :
  0 < m -> 2 ^ (Zdigits2 m - 1) <= m < 2 ^ Zdigits2 m.
Proof.
  destruct m as [| p | p]; try lia. intros _. simpl Zdigits2.
  rewrite digits2_pos_size. split.
  - pose proof (Pos.size_le p) as H.
    assert (2 ^ Zpos (Pos.size p) <= 2 * Zpos p) as H'.
    { change 2 with (Zpos 2) at 1. rewrite <- Pos2Z.inj_pow.
      change (2 * Zpos p) with (Zpos p~0). now apply Pos2Z.pos_le_pos. }
    replace (Zpos (Pos.size p)) with (Z.succ (Zpos (Pos.size p) - 1)) in H' by lia.
    rewrite Z.pow_succ_r in H' by lia. lia.
  - pose proof (Pos.size_gt p) as H.
    change 2 with (Zpos 2). rewrite <- Pos2Z.inj_pow. now apply Pos2Z.pos_lt_pos.
Qed.

Lemma Zdigits2_pos (m : Z) : 0 < m -> 0 < Zdigits2 m.
Proof. destruct m; simpl; lia. Qed.

Lemma Zdigits2_unique (m d : Z) :
  2 ^ (d - 1) <= m < 2 ^ d -> 0 < m -> Zdigits2 m = d.
Proof.
  intros [Hlo Hhi] Hm.
  pose proof (Zdigits2_bounds m Hm) as [Hlo' Hhi'].
  pose proof (Zdigits2_pos m Hm) as Hd.
  assert (0 < d) as Hd'.
  { destruct (Z_lt_le_dec 0 d); auto.
    assert (2 ^ d <= 2 ^ 0) by (destruct (Z.eq_dec d 0); [ subst; lia | rewrite Z.pow_neg_r by lia; simpl; lia ]).
    simpl in *. lia. }
  destruct (Z_lt_le_dec (Zdigits2 m) d) as [H | H].
  - assert (2 ^ Zdigits2 m <= 2 ^ (d - 1)) by (apply Z.pow_le_mono_r; lia). lia.
  - destruct (Z_lt_le_dec d (Zdigits2 m)) as [H' | H']; [| lia ].
    assert (2 ^ d <= 2 ^ (Zdigits2 m - 1)) by (apply Z.pow_le_mono_r; lia). lia.
Qed.

Lemma shr_1_m (mrs : shr_record) :
  0 <= shr_m mrs -> shr_m (shr_1 mrs) = shr_m mrs / 2.
Proof.
  destruct mrs as [m r s]. cbn [shr_m]. intros Hm.
  destruct m as [| [p | p |] |]; cbn [shr_m shr_1]; try lia.
  - reflexivity.
  - apply Z.div_unique with 1; lia.
  - apply Z.div_unique with 0; lia.
  - reflexivity.
Qed.

Lemma iter_pos_shr_m (p : positive) :
  forall mrs, 0 <= shr_m mrs ->
    shr_m (iter_pos shr_1 p mrs) = shr_m mrs / 2 ^ Zpos p.
Proof.
  induction p as [p IH | p IH |]; intros mrs Hm; simpl iter_pos.
  - assert (0 <= shr_m (shr_1 mrs)) as H1
        by (rewrite shr_1_m by lia; apply Z.div_pos; lia).
    assert (0 <= shr_m (iter_pos shr_1 p (shr_1 mrs))) as H2
        by (rewrite IH by lia; apply Z.div_pos; lia).
    rewrite IH, IH, shr_1_m by lia.
    rewrite !Z.div_div by lia. f_equal.
    rewrite Pos2Z.inj_xI, Z.pow_add_r, Z.pow_mul_r by lia.
    change (2 ^ 2) with 4. change (2 ^ 1) with 2.
    rewrite <- Z.pow_add_r by lia. replace (Zpos p + Zpos p) with (2 * Zpos p) by lia.
    rewrite Z.pow_mul_r by lia. change (2 ^ 2) with 4. lia.
  - assert (0 <= shr_m (iter_pos shr_1 p mrs)) as H2
        by (rewrite IH by lia; apply Z.div_pos; lia).
    rewrite IH, IH by lia. rewrite Z.div_div by lia. f_equal.
    rewrite <- Z.pow_add_r by lia. f_equal. lia.
  - rewrite shr_1_m by lia. reflexivity.
Qed.

Lemma shr_spec (mrs : shr_record) (e n : Z) :
  0 <= shr_m mrs ->
  shr_m (fst (shr mrs e n)) = shr_m mrs / 2 ^ Z.max 0 n /\
  snd (shr mrs e n) = e + Z.max 0 n.
Proof.
  intros Hm. destruct n as [| p | p]; simpl.
  - rewrite Z.div_1_r. lia.
  - rewrite iter_pos_shr_m by lia. split; [ reflexivity | lia ].
  - rewrite Z.div_1_r. lia.
Qed.

Lemma shr_m_record_of_loc (m : Z) (l : location) :
  shr_m (shr_record_of_loc m l) = m.
Proof. destruct l as [| []]; reflexivity. Qed.

Lemma round_nearest_even_bounds (m : Z) (l : location) :
  m <= round_nearest_even m l <= m + 1.
Proof.
  destruct l as [| []]; simpl; try lia. destruct (Z.even m); lia.
Qed.

Lemma fexp_normal (x : Z) : -1021 <= x -> fexp prec emax x = x - 53.
Proof. intros H. unfold fexp, emin, prec, emax. lia. Qed.

Lemma div_pow2_succ_bounds (a b K : Z) :
  0 <= K -> a <= b <= a + 1 ->
  a / 2 ^ K <= b / 2 ^ K <= a / 2 ^ K + 1.
Proof.
  intros HK [Hab Hba].
  assert (0 < 2 ^ K) as Hpos by (apply Z.pow_pos_nonneg; lia).
  split.
  - apply Z.div_le_mono; lia.
  - assert (b / 2 ^ K <= (a + 1 * 2 ^ K) / 2 ^ K) as H
        by (apply Z.div_le_mono; nia).
    rewrite Z.div_add in H by lia. lia.
Qed.

Lemma Zdigits2_le_of_le_pow (m n : Z) :
  0 < m -> 0 <= n -> m <= 2 ^ n -> Zdigits2 m <= n + 1.
Proof.
  intros Hm Hn Hle.
  pose proof (Zdigits2_bounds m Hm) as [Hlo _].
  pose proof (Zdigits2_pos m Hm).
  destruct (Z_lt_le_dec (n + 1) (Zdigits2 m)) as [H' |]; [| lia ].
  assert (2 ^ (n + 1) <= 2 ^ (Zdigits2 m - 1)) by (apply Z.pow_le_mono_r; lia).
  rewrite Z.pow_add_r in * by lia. change (2 ^ 1) with 2 in *.
  assert (0 < 2 ^ n) by (apply Z.pow_pos_nonneg; lia). lia.
Qed.

Lemma Zdigits2_lt_pow (m n : Z) :
  0 < m -> 0 <= n -> m < 2 ^ n -> Zdigits2 m <= n.
Proof.
  intros Hm Hn Hlt.
  pose proof (Zdigits2_bounds m Hm) as [Hlo _].
  pose proof (Zdigits2_pos m Hm).
  destruct (Z_lt_le_dec n (Zdigits2 m)) as [H' |]; [| lia ].
  assert (2 ^ n <= 2 ^ (Zdigits2 m - 1)) by (apply Z.pow_le_mono_r; lia).
  lia.
Qed.

(** The rounding of a positive mantissa: the result keeps the mantissa
    shifted right by [k] bits, or one more. *)
Lemma binary_round_aux_bounds (mx ex : Z) (lx : location) :
  0 < mx -> -1000 <= ex -> Zdigits2 mx + ex <= 900 ->
  exists m3 k,
    binary_round_aux prec emax false mx ex lx = S754_finite false m3 (ex + k) /\
    0 <= k <= Z.max 0 (Zdigits2 mx - 52) /\
    mx / 2 ^ k <= Zpos m3 <= mx / 2 ^ k + 1.
Proof.
  intros Hmx Hex Hd.
  pose proof (Zdigits2_bounds mx Hmx) as [Hlo Hhi].
  pose proof (Zdigits2_pos mx Hmx) as Hdpos.
  set (d := Zdigits2 mx) in *.
  unfold binary_round_aux, shr_fexp.
  rewrite fexp_normal by (fold d; lia). fold d.
  replace (d + ex - 53 - ex) with (d - 53) by lia.
  pose proof (shr_spec (shr_record_of_loc mx lx) ex (d - 53)) as [Hm1 He1].
  { rewrite shr_m_record_of_loc. lia. }
  destruct (shr (shr_record_of_loc mx lx) ex (d - 53)) as [mrs1 e1].
  simpl fst in Hm1. simpl snd in He1. rewrite shr_m_record_of_loc in Hm1.
  set (K1 := Z.max 0 (d - 53)) in *.
  assert (0 < 2 ^ K1) as HpK1 by (apply Z.pow_pos_nonneg; lia).
  (* the first shift leaves at most 53 bits and a positive mantissa *)
  assert (0 < shr_m mrs1 < 2 ^ 53) as Hm1r.
  { rewrite Hm1. split.
    - apply Z.div_str_pos. split; [ lia |].
      destruct (Z_le_gt_dec d 53).
      + replace K1 with 0 by lia. simpl. lia.
      + replace K1 with (d - 53) by lia.
        eapply Z.le_trans; [| exact Hlo ]. apply Z.pow_le_mono_r; lia.
    - apply Z.div_lt_upper_bound; [ lia |].
      rewrite <- Z.pow_add_r by lia.
      eapply Z.lt_le_trans; [ exact Hhi |]. apply Z.pow_le_mono_r; lia. }
  pose proof (round_nearest_even_bounds (shr_m mrs1) (loc_of_shr_record mrs1))
    as Hm2.
  set (m2 := round_nearest_even (shr_m mrs1) (loc_of_shr_record mrs1)) in *.
  assert (0 < m2) as Hm2pos by lia.
  pose proof (Zdigits2_bounds m2 Hm2pos) as [Hlo2 Hhi2].
  pose proof (Zdigits2_pos m2 Hm2pos) as Hd2pos.
  assert (Zdigits2 m2 <= 54) as Hd2
      by (apply (Zdigits2_le_of_le_pow m2 53); lia).
  rewrite fexp_normal by lia.
  replace (Zdigits2 m2 + e1 - 53 - e1) with (Zdigits2 m2 - 53) by lia.
  pose proof (shr_spec (shr_record_of_loc m2 loc_Exact) e1 (Zdigits2 m2 - 53))
    as [Hm3 He3].
  { simpl. lia. }
  destruct (shr (shr_record_of_loc m2 loc_Exact) e1 (Zdigits2 m2 - 53))
    as [mrs3 e3].
  simpl fst in Hm3. simpl snd in He3. simpl shr_m in Hm3 at 2.
  set (K2 := Z.max 0 (Zdigits2 m2 - 53)) in *.
  assert (0 <= K2 <= 1) as HK2 by lia.
  assert (0 < 2 ^ K2) as HpK2 by (apply Z.pow_pos_nonneg; lia).
  assert (0 < shr_m mrs3) as Hm3pos.
  { rewrite Hm3. apply Z.div_str_pos. split; [ lia |].
    eapply Z.le_trans; [| exact Hlo2 ]. apply Z.pow_le_mono_r; lia. }
  destruct (shr_m mrs3) as [| m3 |] eqn:E3; try lia.
  assert (K2 = 0 \/ d >= 53) as Hcase.
  { destruct (Z_lt_le_dec d 53) as [Hlt |]; [ left | lia ].
    assert (m2 < 2 ^ 53); [| pose proof (Zdigits2_lt_pow m2 53); lia ].
    assert (shr_m mrs1 = mx) as Heq
        by (rewrite Hm1; replace K1 with 0 by lia; apply Z.div_1_r).
    rewrite Heq in Hm2.
    assert (2 ^ d <= 2 ^ 52) by (apply Z.pow_le_mono_r; lia).
    assert (2 ^ 52 < 2 ^ 53) by (apply Z.pow_lt_mono_r; lia). lia. }
  exists m3, (K1 + K2).
  split.
  - replace (e3 <=? emax - prec) with true
      by (symmetry; apply Z.leb_le; unfold emax, prec; lia).
    f_equal. lia.
  - split; [ lia |].
    rewrite Z.pow_add_r, <- Z.div_div by lia.
    rewrite <- Hm1, Hm3. now apply div_pow2_succ_bounds.
Qed.


Lemma pos_iter_xO (p n : positive) :
  Zpos (Pos.iter xO p n) = Zpos p * 2 ^ Zpos n.
Proof.
  induction n as [| n IH] using Pos.peano_ind.
  - simpl. lia.
  - rewrite Pos.iter_succ, Pos2Z.inj_xO, IH, Pos2Z.inj_succ, Z.pow_succ_r by lia.
    lia.
Qed.

Lemma binary_round_aux_exact (m : positive) (e : Z) :
  Zdigits2 (Zpos m) = 53 -> -1000 <= e <= 900 ->
  binary_round_aux prec emax false (Zpos m) e loc_Exact = S754_finite false m e.
Proof.
  intros Hd He. unfold binary_round_aux, shr_fexp.
  rewrite Hd, fexp_normal by lia.
  replace (53 + e - 53 - e) with 0 by lia. simpl shr.
  cbn [shr_m loc_of_shr_record round_nearest_even shr_record_of_loc].
  rewrite Hd, fexp_normal by lia.
  replace (53 + e - 53 - e) with 0 by lia. simpl shr. cbn [shr_m].
  replace (e <=? emax - prec) with true
    by (symmetry; apply Z.leb_le; unfold emax, prec; lia).
  reflexivity.
Qed.

(** A positive integer below 2^53 is a number, exactly. *)
Lemma num_spec (z : Z) :
  0 < z < 2 ^ 53 ->
  exists m,
    Prim2SF (num z) = S754_finite false m (Zdigits2 z - 53) /\
    Zpos m = z * 2 ^ (53 - Zdigits2 z) /\
    Zdigits2 (Zpos m) = 53.
Proof.
  intros [Hz Hz53].
  pose proof (Zdigits2_bounds z Hz) as [Hlo Hhi].
  pose proof (Zdigits2_pos z Hz) as Hdpos.
  pose proof (Zdigits2_lt_pow z 53 Hz ltac:(lia) Hz53) as Hd53.
  unfold num. destruct (Z.ltb_spec z 0) as [| _]; [ lia |].
  rewrite of_uint63_spec, Uint63.of_Z_spec.
  rewrite Z.mod_small
    by (split; [ lia |]; eapply Z.lt_trans; [ exact Hz53 | reflexivity ]).
  destruct z as [| p | p]; try lia.
  set (d := Zdigits2 (Zpos p)) in *.
  unfold binary_normalize, binary_round.
  change (Zpos (digits2_pos p)) with d.
  rewrite fexp_normal by lia. unfold shl_align.
  replace (d + 0 - 53 - 0) with (d - 53) by lia.
  assert (forall m : positive,
            Zpos m = Zpos p * 2 ^ (53 - d) -> Zdigits2 (Zpos m) = 53) as Hdig.
  { intros m Hm. apply Zdigits2_unique; [| lia ]. rewrite Hm. split.
    - replace (53 - 1) with ((d - 1) + (53 - d)) by lia.
      rewrite Z.pow_add_r by lia.
      apply Z.mul_le_mono_nonneg_r; [ apply Z.pow_nonneg; lia | exact Hlo ].
    - replace 53 with (d + (53 - d)) at 2 by lia.
      rewrite Z.pow_add_r by lia.
      apply Z.mul_lt_mono_pos_r; [ apply Z.pow_pos_nonneg; lia | exact Hhi ]. }
  destruct (d - 53) as [| q | q] eqn:E; try lia.
  - assert (d = 53) as Hd by lia.
    exists p. rewrite binary_round_aux_exact by (fold d; lia).
    split; [ f_equal; lia |].
    split; [ replace (53 - d) with 0 by lia; lia | fold d; lia ].
  - assert (Zpos (Pos.iter xO p q) = Zpos p * 2 ^ (53 - d)) as Hm
        by (rewrite pos_iter_xO; f_equal; f_equal; lia).
    exists (Pos.iter xO p q).
    rewrite binary_round_aux_exact by (try apply Hdig; auto; lia).
    repeat split; auto. f_equal. lia.
Qed.

Lemma Math_ceil_finite_neg (f : float) (m : positive) (e : Z) :
  Prim2SF f = S754_finite false m e -> e < 0 ->
  Math_ceil f = (Zpos m + 2 ^ (- e) - 1) / 2 ^ (- e).
Proof.
  intros Hf He. unfold Math_ceil. rewrite Hf.
  destruct (Z.leb_spec 0 e); [ lia | reflexivity ].
Qed.

Lemma ceil_div_ge (m D s : Z) :
  0 < D -> s * D <= m -> s <= (m + D - 1) / D.
Proof.
  intros HD H. apply Z.div_le_lower_bound; lia.
Qed.

(** The product of a positive integer below 2^50 by a number in [1, 2),
    rounded to binary64 and then up to an integer, is at least the
    integer. *)
Lemma ceil_mul_ge (s : Z) (f : float) (mf : positive) :
  0 < s < 2 ^ 50 ->
  Prim2SF f = S754_finite false mf (-52) ->
  2 ^ 52 <= Zpos mf < 2 ^ 53 ->
  s <= Math_ceil (num s * f).
Proof.
  intros [Hs Hs50] Hf [Hflo Hfhi].
  assert (2 ^ 50 < 2 ^ 53) as H5053 by (apply Z.pow_lt_mono_r; lia).
  destruct (num_spec s) as (m & Hnum & Hm & Hdm); [ lia |].
  pose proof (Zdigits2_pos s Hs) as Hdpos.
  pose proof (Zdigits2_lt_pow s 50 Hs ltac:(lia) Hs50) as Hd50.
  set (d := Zdigits2 s) in *.
  pose proof (Zdigits2_bounds (Zpos m) ltac:(lia)) as [Hmlo Hmhi].
  rewrite Hdm in Hmlo, Hmhi. change (53 - 1) with 52 in Hmlo.
  assert (Prim2SF (num s * f)
          = binary_round_aux prec emax false (Zpos (m * mf)) (d - 53 + -52)
                             loc_Exact) as Hmul.
  { rewrite FloatAxioms.mul_spec, Hnum, Hf. reflexivity. }
  assert (0 < 2 ^ 52) as Hp52 by (apply Z.pow_pos_nonneg; lia).
  assert (Zpos (m * mf) < 2 ^ 106) as Hprod.
  { rewrite Pos2Z.inj_mul. change 106 with (53 + 53).
    rewrite Z.pow_add_r by lia. nia. }
  pose proof (Zdigits2_lt_pow (Zpos (m * mf)) 106 ltac:(lia) ltac:(lia) Hprod)
    as Hdprod.
  destruct (binary_round_aux_bounds (Zpos (m * mf)) (d - 53 + -52) loc_Exact)
    as (m3 & k & Hround & Hk & Hm3 & _); try lia.
  rewrite Hround in Hmul.
  assert (d - 53 + -52 + k < 0) as He3 by lia.
  rewrite (Math_ceil_finite_neg _ _ _ Hmul He3).
  set (D := 2 ^ (- (d - 53 + -52 + k))).
  assert (0 < D) as HD by (apply Z.pow_pos_nonneg; lia).
  assert (0 < 2 ^ k) as HpK by (apply Z.pow_pos_nonneg; lia).
  apply ceil_div_ge; [ exact HD |].
  eapply Z.le_trans; [| exact Hm3 ].
  apply Z.div_le_lower_bound; [ exact HpK |].
  (* 2^k * (s * D) = m * 2^52 <= m * mf *)
  assert (2 ^ k * D = 2 ^ (53 - d) * 2 ^ 52) as HkD.
  { unfold D. rewrite <- !Z.pow_add_r by lia. f_equal. lia. }
  rewrite Pos2Z.inj_mul, Hm.
  replace (2 ^ k * (s * D)) with (s * (2 ^ k * D)) by lia.
  rewrite HkD.
  assert (0 < 2 ^ (53 - d)) by (apply Z.pow_pos_nonneg; lia).
  nia.
Qed.

Lemma num_5 : Prim2SF (num rows) = S754_finite false 5629499534213120 (-50).
Proof. vm_compute. reflexivity. Qed.

(** The quotient of a positive integer below 2^32 by 5, rounded to
    binary64 and then up to an integer, is at least a fifth of the
    integer and stays below 2^50. *)
Lemma seatsPerRow_bounds (n : Z) :
  0 < n < 2 ^ 32 ->
  n <= 5 * Legacy.seatsPerRow n /\ 0 < Legacy.seatsPerRow n < 2 ^ 50.
Proof.
  intros [Hn Hn32].
  assert (2 ^ 32 < 2 ^ 53) as H3253 by (apply Z.pow_lt_mono_r; lia).
  destruct (num_spec n) as (m1 & Hnum & Hm1 & Hdm1); [ lia |].
  pose proof (Zdigits2_pos n Hn) as Hdpos.
  pose proof (Zdigits2_lt_pow n 32 Hn ltac:(lia) Hn32) as Hd32.
  set (d := Zdigits2 n) in *.
  pose proof (Zdigits2_bounds (Zpos m1) ltac:(lia)) as [Hmlo Hmhi].
  rewrite Hdm1 in Hmlo, Hmhi. change (53 - 1) with 52 in Hmlo.
  set (P := 2 ^ (53 - d)) in *.
  assert (2 ^ 21 <= P) as HP by (apply Z.pow_le_mono_r; lia).
  change (2 ^ 21) with 2097152 in HP.
  set (m5 := 5629499534213120%positive).
  set (q := (Zpos m1 * 2 ^ 53) / Zpos m5).
  assert (exists lz,
            Prim2SF (num n / num rows)
            = binary_round_aux prec emax false q (d - 53 - 3) lz)
    as (lz & Hdiv).
  { rewrite FloatAxioms.div_spec, Hnum, num_5. unfold SF64div, SFdiv.
    unfold SFdiv_core_binary. rewrite Hdm1.
    change (Zdigits2 (Zpos 5629499534213120)) with 53.
    rewrite fexp_normal by lia.
    replace (Z.min (53 + (d - 53) - (53 + -50) - 53) (d - 53 - -50))
      with (d - 53 - 3) by lia.
    replace (d - 53 - -50 - (d - 53 - 3)) with 53 by lia.
    cbv iota. rewrite Z.shiftl_mul_pow2 by lia.
    fold m5.
    assert (fst (Z.div_eucl (Zpos m1 * 2 ^ 53) (Zpos m5)) = q) as Hq
        by reflexivity.
    destruct (Z.div_eucl (Zpos m1 * 2 ^ 53) (Zpos m5)) as [q' r].
    simpl in Hq. subst q'. eexists. reflexivity. }
  (* q = floor (8 n P / 5) *)
  assert (q = (8 * n * P) / 5) as Hq.
  { unfold q. rewrite Hm1. fold P.
    change (Zpos m5) with (5 * 2 ^ 50). change (2 ^ 53) with (8 * 2 ^ 50).
    replace (n * P * (8 * 2 ^ 50)) with (8 * n * P * 2 ^ 50) by lia.
    apply Z.div_mul_cancel_r; lia. }
  assert (5 * q <= 8 * n * P < 5 * q + 5) as Hq5.
  { rewrite Hq. pose proof (Z.div_mod (8 * n * P) 5 ltac:(lia)).
    pose proof (Z.mod_pos_bound (8 * n * P) 5 ltac:(lia)). lia. }
  assert (2 ^ 52 <= q < 2 ^ 54) as [Hqlo Hqhi].
  { change (2 ^ 52) with 4503599627370496 in *.
    change (2 ^ 53) with 9007199254740992 in *.
    change (2 ^ 54) with 18014398509481984. rewrite Hm1 in Hmlo, Hmhi.
    fold P in Hmlo, Hmhi. nia. }
  pose proof (Zdigits2_lt_pow q 54 ltac:(lia) ltac:(lia) Hqhi) as Hdq.
  destruct (binary_round_aux_bounds q (d - 53 - 3) lz)
    as (m3 & k & Hround & Hk & Hm3lo & Hm3hi); try lia.
  rewrite Hround in Hdiv.
  assert (0 <= k <= 2) as Hk2 by lia.
  assert (d - 53 - 3 + k < 0) as He3 by lia.
  unfold Legacy.seatsPerRow.
  rewrite (Math_ceil_finite_neg _ _ _ Hdiv He3).
  set (D := 2 ^ (- (d - 53 - 3 + k))).
  assert (0 < D) as HD by (apply Z.pow_pos_nonneg; lia).
  assert (1 <= 2 ^ k <= 4) as HpK.
  { split; [ apply (Z.pow_le_mono_r 2 0 k); lia |].
    apply (Z.pow_le_mono_r 2 k 2); lia. }
  assert (2 ^ k * D = 8 * P) as HkD.
  { unfold D, P. change 8 with (2 ^ 3).
    rewrite <- !Z.pow_add_r by lia. f_equal. lia. }
  set (s := (Zpos m3 + D - 1) / D).
  assert (Zpos m3 <= s * D < Zpos m3 + D) as [Hslo Hshi].
  { unfold s. pose proof (Z.div_mod (Zpos m3 + D - 1) D ltac:(lia)).
    pose proof (Z.mod_pos_bound (Zpos m3 + D - 1) D HD). nia. }
  assert (q < (Zpos m3 + 1) * 2 ^ k) as Hm3lo'.
  { pose proof (Z.div_mod q (2 ^ k) ltac:(lia)).
    pose proof (Z.mod_pos_bound q (2 ^ k) ltac:(lia)). nia. }
  assert (Zpos m3 * 2 ^ k <= q + 2 ^ k) as Hm3hi'.
  { pose proof (Z.div_mod q (2 ^ k) ltac:(lia)).
    pose proof (Z.mod_pos_bound q (2 ^ k) ltac:(lia)). nia. }
  assert (n <= 5 * s) as Hlow.
  { (* 5 s (8P) = 5 s D 2^k >= 5 m3 2^k > 5 q - 5 2^k >= 8nP - 5 - 20 *)
    assert (5 * s * (8 * P) > 8 * n * P - 25) by (rewrite <- HkD; nia).
    nia. }
  split; [ exact Hlow |]. split; [ lia |].
  assert (s * (8 * P) <= 8 * n * P + 8 * P) by (rewrite <- HkD; nia).
  assert (s <= n + 1) by nia.
  assert (2 ^ 32 + 1 < 2 ^ 50) by (vm_compute; reflexivity). lia.
Qed.

Lemma rowFactor_spec (r : nat) :
  (r < 5)%nat ->
  exists mf,
    Prim2SF (1 + num (Z.of_nat r) * 0.2)%float = S754_finite false mf (-52) /\
    2 ^ 52 <= Zpos mf < 2 ^ 53.
Proof.
  intros Hr.
  destruct r as [| [| [| [| [| r]]]]]; try lia;
    eexists; (split; [ vm_compute; reflexivity | vm_compute; split; congruence ]).
Qed.

(** The rows of the older chart hold every total below 2^32. *)
Lemma legacy_capacity_enough (n : Z) :
  0 <= n < arrayLengthLimit -> n <= Legacy.capacity n.
Proof.
  unfold arrayLengthLimit. intros [Hn Hn32].
  destruct (Z.eq_dec n 0) as [-> | Hne]; [ vm_compute; discriminate |].
  destruct (seatsPerRow_bounds n) as (H5 & Hs); [ lia |].
  unfold Legacy.capacity. set (s := Legacy.seatsPerRow n) in *.
  assert (forall r, (r < 5)%nat -> s <= Legacy.seatsInRowOf s (Z.of_nat r))
    as Hrow.
  { intros r Hr. destruct (rowFactor_spec r Hr) as (mf & Hf & Hmf).
    unfold Legacy.seatsInRowOf. now apply (ceil_mul_ge s _ mf). }
  change (seq 0 (Z.to_nat rows)) with [0; 1; 2; 3; 4]%nat.
  cbn [fold_right].
  pose proof (Hrow 0%nat ltac:(lia)). pose proof (Hrow 1%nat ltac:(lia)).
  pose proof (Hrow 2%nat ltac:(lia)). pose proof (Hrow 3%nat ltac:(lia)).
  pose proof (Hrow 4%nat ltac:(lia)). lia.
Qed.

(* ------------------------------------------------------------------ *)
(** * What the charts guarantee *)

Lemma zipSeats_points (pts : list (float * float)) :
  forall gs,
    List.length (zipSeats pts gs) = List.length pts ->
    map seatPoint (zipSeats pts gs) = pts.
Proof.
  induction pts as [| [px py] pts IH]; intros [| g gs] H; try discriminate;
    [ reflexivity | reflexivity |].
  rewrite zipSeats_cons in *. simpl in *. f_equal. apply IH. now injection H.
Qed.

Lemma zipSeats_firstn (pts : list (float * float)) :
  forall gs,
    map seatParty (zipSeats pts gs)
    = map (fun g => (color g, partyAlias g)) (firstn (List.length pts) gs).
Proof.
  induction pts as [| [px py] pts IH]; intros [| g gs];
    [ reflexivity | reflexivity | reflexivity |].
  rewrite zipSeats_cons. simpl. f_equal. apply IH.
Qed.

Lemma zipSeats_parties (pts : list (float * float)) :
  forall gs,
    List.length pts = List.length gs ->
    map seatParty (zipSeats pts gs)
    = map (fun g => (color g, partyAlias g)) gs.
Proof.
  intros gs H. rewrite zipSeats_firstn, H, firstn_all. reflexivity.
Qed.

Lemma map_blocks {B : Type} (f : PartyGroup -> B) (parties : PartyGroups) :
  map f (blocks parties)
  = flat_map (fun e => repeat (f (snd e)) (Z.to_nat (count (snd e)))) parties.
Proof.
  induction parties as [| e parties IH]; simpl; [ reflexivity |].
  fold (blocks parties). now rewrite map_app, map_repeat, IH.
Qed.

Lemma partiesFrom_ext getTime (clock1 clock2 : nat -> Z)
    (legislators : list DiputadoPeriodo) :
  forall i,
    (forall j, (i <= j < i + List.length legislators)%nat ->
               clock1 j = clock2 j) ->
    partiesFrom getTime clock1 i legislators
    = partiesFrom getTime clock2 i legislators.
Proof.
  induction legislators as [| leg rest IH]; intros i H; simpl; [ reflexivity |].
  unfold currentPartyAt. rewrite (H i) by (simpl; lia).
  f_equal. apply IH. intros j Hj. apply H. simpl. lia.
Qed.

(** The groups depend on the times read and on nothing the prototype
    objects hold. *)
Lemma partyGroupsOf_ext getTime (clock1 clock2 : nat -> Z)
    (heap1 heap2 : Heap) (legislators : list DiputadoPeriodo) :
  (forall i, (i < List.length legislators)%nat -> clock1 i = clock2 i) ->
  partyGroupsOf getTime clock1 heap1 legislators
  = partyGroupsOf getTime clock2 heap2 legislators.
Proof.
  intros H. unfold partyGroupsOf. rewrite !groupFrom_fold.
  rewrite !fold_groupStep_groups.
  f_equal. apply partiesFrom_ext. intros j Hj. apply H. lia.
Qed.

Lemma In_ownIds (ids : list string) (k : string) :
  In k (ownIds ids) <-> In k ids /\ inherited k = false.
Proof. unfold ownIds. rewrite filter_In, negb_true_iff. reflexivity. Qed.

Lemma ownIds_none (ids : list string) :
  Forall (fun k => inherited k = true) ids -> ownIds ids = [].
Proof.
  induction 1 as [| k ids Hk _ IH]; [ reflexivity |].
  unfold ownIds in *. simpl. now rewrite Hk.
Qed.

Lemma ownIds_some (ids : list string) :
  (exists k, In k ids /\ inherited k = false) <-> ownIds ids <> [].
Proof.
  split.
  - intros (k & Hk) H. apply In_ownIds in Hk. rewrite H in Hk. exact Hk.
  - intros H. destruct (ownIds ids) as [| k l] eqn:E; [ contradiction |].
    exists k. apply In_ownIds. rewrite E. now left.
Qed.

(** With a legislator counted under an id that is no inherited name, the
    legend of either chart has a party. *)
Lemma legend_nonempty getTime clock (heap : Heap)
    (legislators : list DiputadoPeriodo) :
  (exists k, In k (resolvedIds getTime clock legislators) /\
             inherited k = false) ->
  sortedParties (partyGroupsOf getTime clock heap legislators) <> [] /\
  Legacy.sortedParties (partyGroupsOf getTime clock heap legislators) <> [].
Proof.
  intros Hown. apply ownIds_some in Hown.
  pose proof (partyGroupsOf_spec getTime clock heap legislators)
    as (_ & _ & Hok & _).
  cbv zeta in Hok.
  rewrite (sortedParties_empty _ Hok), legacy_sortedParties_empty.
  rewrite groups_empty. auto.
Qed.

(** With every legislator counted under an inherited name there is no
    group. *)
Lemma legend_empty getTime clock (heap : Heap)
    (legislators : list DiputadoPeriodo) :
  Forall (fun k => inherited k = true)
         (resolvedIds getTime clock legislators) ->
  partyGroupsOf getTime clock heap legislators = [].
Proof. intros H. apply groups_empty. now apply ownIds_none. Qed.

Lemma group_of_key getTime clock (heap : Heap)
    (legislators : list DiputadoPeriodo) (k : string) :
  In k (resolvedIds getTime clock legislators) ->
  inherited k = false ->
  exists g,
    lookup k (partyGroupsOf getTime clock heap legislators) = Some g /\
    groupOk (k, g) /\
    count g
    = Z.of_nat (count_occ string_dec
                          (resolvedIds getTime clock legislators) k).
Proof.
  intros Hin Hk.
  pose proof (partyGroupsOf_spec getTime clock heap legislators)
    as (_ & _ & Hok & Hcount & _).
  cbv zeta in Hok, Hcount. specialize (Hcount k).
  rewrite count_occ_ownIds, Hk in Hcount.
  apply (count_occ_In string_dec) in Hin. unfold countOf in Hcount.
  destruct (lookup k (partyGroupsOf getTime clock heap legislators))
    as [g |] eqn:E; [| lia ].
  exists g. split; [ reflexivity | split; [| exact Hcount ] ].
  apply lookup_In in E. rewrite Forall_forall in Hok. apply (Hok _ E).
Qed.

Lemma group_in_groups getTime clock (heap : Heap)
    (legislators : list DiputadoPeriodo) (k : string) (g : PartyGroup) :
  In (k, g) (partyGroupsOf getTime clock heap legislators) ->
  groupOk (k, g) /\
  count g
  = Z.of_nat (count_occ string_dec (resolvedIds getTime clock legislators) k).
Proof.
  intros Hin.
  pose proof (partyGroupsOf_spec getTime clock heap legislators)
    as (Hkeys & Hnd & Hok & Hcount & _).
  cbv zeta in Hkeys, Hnd, Hok, Hcount. split.
  - rewrite Forall_forall in Hok. apply (Hok _ Hin).
  - assert (inherited k = false) as Hk.
    { apply (In_ownIds (resolvedIds getTime clock legislators)), Hkeys.
      apply (in_map fst) in Hin. exact Hin. }
    specialize (Hcount k). rewrite count_occ_ownIds, Hk in Hcount.
    rewrite <- Hcount. unfold countOf.
    now rewrite (In_lookup _ _ _ Hnd Hin).
Qed.

Lemma firstn_nonempty {A : Type} (n : nat) (l : list A) :
  (1 <= n)%nat -> (1 <= List.length l)%nat -> firstn n l <> [].
Proof.
  intros Hn Hl H. apply (f_equal (@List.length A)) in H.
  rewrite length_firstn in H. simpl in H. lia.
Qed.

(** C1 against the code.  The current chart returns exactly one seat per
    legislator whenever the list is empty or some legislator is counted
    under a party id that is no name inherited from [Object.prototype]:
    the rows are allotted 20, 28, 36, 44 and [total - 128] seats, which
    add up to the total, the pooled positions number 128 plus the excess
    of the total over 128, and the loop takes the first [total] of them.
    On those lists the older chart never returns more seats than
    legislators and returns exactly as many whenever its five rows hold
    the total, which they do for every total an array can have: the
    binary64 quotient and products that size the rows are never rounded
    below a fifth of the total.  When the list is not empty and every
    legislator is counted under an inherited name, no group is made and
    both charts throw at the first seat.  A single legislator of a party
    with the alias "constructor" is such a list. *)
Theorem seat_count_is_exact :
  (forall getTime clock Math_cos Math_sin heap legislators size,
     legislators = [] \/
     (exists k, In k (resolvedIds getTime clock legislators) /\
                inherited k = false) ->
     exists seats legend,
       ParliamentChart getTime clock Math_cos Math_sin heap legislators size
       = Ok (seats, legend) /\
       List.length seats = List.length legislators) /\
  (forall getTime clock Math_cos Math_sin heap legislators size,
     legislators <> [] ->
     Forall (fun k => inherited k = true)
            (resolvedIds getTime clock legislators) ->
     ParliamentChart getTime clock Math_cos Math_sin heap legislators size
     = TypeError) /\
  (forall totalSeats,
     seatsPerRowArray totalSeats = [20; 28; 36; 44; totalSeats - 128] /\
     fold_left Z.add (seatsPerRowArray totalSeats) 0 = totalSeats) /\
  (forall Math_cos Math_sin size totalSeats,
     List.length (allPositions Math_cos Math_sin size totalSeats)
     = (128 + Z.to_nat (totalSeats - 128))%nat) /\
  (forall getTime clock Math_cos Math_sin heap legislators size,
     legislators = [] \/
     (exists k, In k (resolvedIds getTime clock legislators) /\
                inherited k = false) ->
     exists seats legend,
       Legacy.ParliamentChart getTime clock Math_cos Math_sin heap
                              legislators size
       = Ok (seats, legend) /\
       Z.of_nat (List.length seats)
       = Z.min (Z.of_nat (List.length legislators))
               (Legacy.capacity (Z.of_nat (List.length legislators)))) /\
  (forall getTime clock Math_cos Math_sin heap legislators size,
     legislators = [] \/
     (exists k, In k (resolvedIds getTime clock legislators) /\
                inherited k = false) ->
     Z.of_nat (List.length legislators) < arrayLengthLimit ->
     exists seats legend,
       Legacy.ParliamentChart getTime clock Math_cos Math_sin heap
                              legislators size
       = Ok (seats, legend) /\
       List.length seats = List.length legislators) /\
  (forall getTime clock Math_cos Math_sin heap legislators size,
     legislators <> [] ->
     Forall (fun k => inherited k = true)
            (resolvedIds getTime clock legislators) ->
     Z.of_nat (List.length legislators) < arrayLengthLimit ->
     Legacy.ParliamentChart getTime clock Math_cos Math_sin heap
                            legislators size
     = TypeError) /\
  resolvedIds Iso.getTime Sample.clock [Sample.member "constructor"]
  = ["constructor"] /\
  Sample.chart [Sample.member "constructor"] = TypeError /\
  Sample.olderChart [Sample.member "constructor"] = TypeError.
Proof.
  assert (forall getTime clock Math_cos Math_sin heap legislators size,
            legislators = [] \/
            (exists k, In k (resolvedIds getTime clock legislators) /\
                       inherited k = false) ->
            exists seats legend,
              Legacy.ParliamentChart getTime clock Math_cos Math_sin heap
                                     legislators size
              = Ok (seats, legend) /\
              Z.of_nat (List.length seats)
              = Z.min (Z.of_nat (List.length legislators))
                  (Legacy.capacity (Z.of_nat (List.length legislators))))
    as Hlegacy.
  { intros getTime clock Math_cos Math_sin heap legislators size [-> | Hown].
    - destruct (legacy_ParliamentChart_spec getTime clock Math_cos Math_sin
                  heap [] size (Forall_nil _)) as (Hrun & Hlen & Hcap).
      cbv zeta in Hrun, Hlen, Hcap.
      eexists. eexists. split; [ exact Hrun |].
      rewrite Hlen, <- Hcap. lia.
    - destruct (legend_nonempty getTime clock heap legislators Hown)
        as [_ Hne].
      destruct (legacy_ParliamentChart_runs getTime clock Math_cos Math_sin
                  heap legislators size) as (Hcap & Hrun & _).
      cbv zeta in Hcap, Hrun. destruct (Hrun Hne) as [Hok Hlen].
      eexists. eexists. split; [ exact Hok |].
      rewrite Hlen, <- Hcap. lia. }
  split; [| split; [| split; [| split; [| split; [| split; [| split ]]]]]].
  - intros getTime clock Math_cos Math_sin heap legislators size [-> | Hown].
    + exists [], []. split; reflexivity.
    + destruct (legend_nonempty getTime clock heap legislators Hown)
        as [Hne _].
      destruct (ParliamentChart_runs getTime clock Math_cos Math_sin
                  heap legislators size) as (_ & Hrun & _).
      cbv zeta in Hrun. destruct (Hrun Hne) as [Hok Hlen]. eauto.
  - intros getTime clock Math_cos Math_sin heap legislators size Hleg Hall.
    destruct (ParliamentChart_runs getTime clock Math_cos Math_sin
                heap legislators size) as (_ & _ & Hthrow).
    cbv zeta in Hthrow. apply Hthrow; [| exact Hleg ].
    now rewrite (legend_empty getTime clock heap legislators Hall).
  - intros totalSeats. rewrite seatsPerRowArray_eq.
    split; [ reflexivity | cbv [fold_left]; lia ].
  - apply length_allPositions.
  - intros getTime clock Math_cos Math_sin heap legislators size Hown.
    destruct (Hlegacy getTime clock Math_cos Math_sin heap legislators size
                Hown) as (seats & legend & Hrun & Hlen).
    exists seats, legend. split; [ exact Hrun | exact Hlen ].
  - intros getTime clock Math_cos Math_sin heap legislators size Hown Hbound.
    destruct (Hlegacy getTime clock Math_cos Math_sin heap legislators size
                Hown) as (seats & legend & Hrun & Hlen).
    exists seats, legend. split; [ exact Hrun |].
    pose proof (legacy_capacity_enough (Z.of_nat (List.length legislators))).
    lia.
  - intros getTime clock Math_cos Math_sin heap legislators size Hleg Hall
           Hbound.
    destruct (legacy_ParliamentChart_runs getTime clock Math_cos Math_sin
                heap legislators size) as (Hcap & _ & Hthrow).
    cbv zeta in Hcap, Hthrow. apply Hthrow.
    + now rewrite (legend_empty getTime clock heap legislators Hall).
    + pose proof (legacy_capacity_enough
                    (Z.of_nat (List.length legislators))).
      assert (1 <= List.length legislators)%nat
        by (destruct legislators; [ contradiction | simpl; lia ]).
      apply firstn_nonempty; lia.
  - split; [ vm_compute; reflexivity |].
    split; vm_compute; reflexivity.
Qed.

Lemma seat_count_is_exact_witness :
  (Sample.hemicycle = [] \/
   exists k, In k (resolvedIds Iso.getTime Sample.clock Sample.hemicycle) /\
             inherited k = false) /\
  Z.of_nat (List.length Sample.hemicycle) < arrayLengthLimit /\
  exists seats legend,
    Legacy.ParliamentChart Iso.getTime Sample.clock Sample.cos Sample.sin
                           [] Sample.hemicycle None
    = Ok (seats, legend) /\
    List.length seats = List.length Sample.hemicycle.
Proof.
  assert (Sample.hemicycle = [] \/
          exists k,
            In k (resolvedIds Iso.getTime Sample.clock Sample.hemicycle) /\
            inherited k = false) as Hown.
  { right. exists "RN". split; [ vm_compute; left |]; reflexivity. }
  assert (Z.of_nat (List.length Sample.hemicycle) < arrayLengthLimit) as H
      by (vm_compute; reflexivity).
  split; [ exact Hown |]. split; [ exact H |].
  exact (proj1 (proj2 (proj2 (proj2 (proj2 (proj2 seat_count_is_exact)))))
           Iso.getTime Sample.clock Sample.cos Sample.sin []
           Sample.hemicycle None Hown H).
Defined.

Lemma mul_nan_r (a : float) : (a * nan)%float = nan.
Proof.
  apply Prim2SF_inj. rewrite FloatAxioms.mul_spec. change (Prim2SF nan) with S754_nan.
  unfold SF64mul, SFmul. destruct (Prim2SF a); reflexivity.
Qed.

Lemma add_nan_r (a : float) : (a + nan)%float = nan.
Proof.
  apply Prim2SF_inj. rewrite FloatAxioms.add_spec. change (Prim2SF nan) with S754_nan.
  unfold SF64add, SFadd. destruct (Prim2SF a); reflexivity.
Qed.

Lemma sub_nan_r (a : float) : (a - nan)%float = nan.
Proof.
  apply Prim2SF_inj. rewrite FloatAxioms.sub_spec. change (Prim2SF nan) with S754_nan.
  unfold SF64sub, SFsub. destruct (Prim2SF a); reflexivity.
Qed.

Lemma one_seat_row_only_at_129 (totalSeats : Z) :
  In 1 (seatsPerRowArray totalSeats) <-> totalSeats = 129.
Proof.
  rewrite seatsPerRowArray_eq. simpl. split.
  - intros [H | [H | [H | [H | [H | []]]]]]; lia.
  - intros ->. do 4 right. now left.
Qed.

(** C3 against the code.  A row is allotted exactly one seat only when
    there are 129 legislators, and it is the outermost row.  Generating its
    position raises nothing, but the angle is [Math.PI * (1 - 0 / 0)],
    which is NaN and not [Math.PI / 2]; the coordinates are computed from
    the cosine and sine of NaN, so they are NaN as soon as those are.
    Whenever one of the 129 legislators is counted under a party id that
    is no inherited name, the chart returns its 129 seats and the seat
    placed there is among them. *)
Theorem single_seat_row_angle_is_nan :
  (forall totalSeats,
     In 1 (seatsPerRowArray totalSeats) <-> totalSeats = 129) /\
  seatsPerRowArray 129 = [20; 28; 36; 44; 1] /\
  PrimFloat.is_nan (Math_PI * (1 - 0 / 0))%float = true /\
  PrimFloat.eqb nan (Math_PI / 2)%float = false /\
  (forall Math_cos Math_sin size,
     rowPositions Math_cos Math_sin size 4 1
     = [ mkPosition
           (size / 2 + size / 2 * (0.5 + 4 * 0.12) * Math_cos nan)%float
           (size / 2 - size / 2 * (0.5 + 4 * 0.12) * Math_sin nan)%float
           nan ]) /\
  (forall Math_cos Math_sin size,
     Math_cos nan = nan -> Math_sin nan = nan ->
     rowPositions Math_cos Math_sin size 4 1 = [mkPosition nan nan nan]) /\
  (forall getTime clock Math_cos Math_sin heap legislators size,
     List.length legislators = 129%nat ->
     (exists k, In k (resolvedIds getTime clock legislators) /\
                inherited k = false) ->
     exists seats legend,
       ParliamentChart getTime clock Math_cos Math_sin heap legislators
                       (Some size)
       = Ok (seats, legend) /\
       List.length seats = 129%nat /\
       In ((size / 2 + size / 2 * (0.5 + 4 * 0.12) * Math_cos nan)%float,
           (size / 2 - size / 2 * (0.5 + 4 * 0.12) * Math_sin nan)%float)
          (map seatPoint seats)).
Proof.
  split; [ apply one_seat_row_only_at_129 |].
  split; [ reflexivity |].
  split; [ reflexivity |].
  split; [ reflexivity |].
  split; [ reflexivity |].
  split.
  - intros Math_cos Math_sin size Hcos Hsin.
    change (rowPositions Math_cos Math_sin size 4 1)
      with [ mkPosition
               (size / 2 + size / 2 * (0.5 + 4 * 0.12) * Math_cos nan)%float
               (size / 2 - size / 2 * (0.5 + 4 * 0.12) * Math_sin nan)%float
               nan ].
    now rewrite Hcos, Hsin, !mul_nan_r, add_nan_r, sub_nan_r.
  - intros getTime clock Math_cos Math_sin heap legislators size Hlen Hown.
    destruct (legend_nonempty getTime clock heap legislators Hown)
      as [Hne _].
    destruct (ParliamentChart_runs getTime clock Math_cos Math_sin
                heap legislators (Some size)) as (Hchosen & Hrun & _).
    cbv zeta in Hchosen, Hrun. destruct (Hrun Hne) as [Hok Hseats].
    eexists. eexists. split; [ exact Hok |].
    split; [ now rewrite Hseats |].
    rewrite zipSeats_points by now rewrite Hseats, Hchosen.
    rewrite Hlen. simpl orDefault.
    rewrite firstn_all2
      by (rewrite length_allPositions; lia).
    apply (in_map pointOf _
             (mkPosition
                (size / 2 + size / 2 * (0.5 + 4 * 0.12) * Math_cos nan)%float
                (size / 2 - size / 2 * (0.5 + 4 * 0.12) * Math_sin nan)%float
                nan)).
    unfold allPositions. apply sort_In.
    change (seatsPerRowArray (Z.of_nat 129)) with [20; 28; 36; 44; 1].
    cbn [positionsFrom]. rewrite !in_app_iff. do 4 right. left.
    left. reflexivity.
Qed.

Lemma single_seat_row_angle_is_nan_witness :
  rowPositions Sample.cos Sample.sin 340 4 1 = [mkPosition nan nan nan].
Proof.
  apply (proj1 (proj2 (proj2 (proj2 (proj2 (proj2
           single_seat_row_angle_is_nan)))))
           Sample.cos Sample.sin 340%float); reflexivity.
Defined.

Lemma descending_head_is_largest (e0 : string * PartyGroup)
    (rest : PartyGroups) :
  Sorted (fun a b => count (snd a) >= count (snd b)) (e0 :: rest) ->
  forall e, In e (e0 :: rest) -> count (snd e) <= count (snd e0).
Proof.
  intros Hsorted. apply Sorted_StronglySorted in Hsorted.
  - inversion Hsorted as [| ? ? _ Hall]; subst.
    intros e [<- | Hin]; [ lia |].
    rewrite Forall_forall in Hall. specialize (Hall e Hin). lia.
  - intros a b c Hab Hbc. lia.
Qed.

(** C5 against the code: two parties of equal count, the one met first
    with the alias "DC" and the other with the alias "7".  Both are centre
    parties with one seat, and the legend lists "7" before "DC":
    [Object.entries] lists a key that is an array index before the
    others. *)
Lemma tie_is_listed_by_index_first :
  resolvedIds Iso.getTime Sample.clock
    [Sample.member "DC"; Sample.member "7"] = ["DC"; "7"] /\
  firstSeen ["DC"; "7"] = ["DC"; "7"] /\
  exists seats legend,
    Sample.chart [Sample.member "DC"; Sample.member "7"]
    = Ok (seats, legend) /\
    map (fun e => (fst e, alignment (snd e), count (snd e))) legend
    = [("7", center, 1); ("DC", center, 1)] /\
    keys legend <> firstSeen ["DC"; "7"].
Proof.
  split; [ vm_compute; reflexivity |].
  split; [ vm_compute; reflexivity |].
  destruct (Sample.chart [Sample.member "DC"; Sample.member "7"])
    as [[seats legend] |] eqn:E; [| vm_compute in E; discriminate ].
  exists seats, legend. split; [ reflexivity |].
  vm_compute in E. injection E as _ <-.
  split; [ vm_compute; reflexivity | vm_compute; discriminate ].
Qed.

(** C5, amended.  The groups are the own properties of the accumulator,
    one for each party id met that is no inherited name, each with the
    number of legislators counted under its id and the alignment the
    table gives that id, and they are listed as [Object.entries] lists
    them: the ids that are array indices first, in ascending order, then
    the other ids in the order they are first met; when no id is an
    inherited name or an array index, that is the order of first
    encounter.  The legend, which is also the party sequence the seats
    are assigned from, is the left groups by descending count, then the
    centre groups by descending count, then the reverse of the right
    groups by descending count; each of the three descending orders keeps
    groups of equal count in the order they are listed in (so the
    reversal shows equal right groups last-listed first).  When there is
    a left group the legend opens with the largest one, and when there is
    a right group it closes with the largest one.  The chart returns that
    legend whenever it has a party or there is no legislator, and when no
    id is an inherited name the parties read along the seats are its
    blocks.  For ten PC, five RN and three DC deputies the legend reads
    PC, DC, RN. *)
Theorem legend_is_left_center_reversed_right :
  (forall getTime clock Math_cos Math_sin heap legislators size,
     let groups := partyGroupsOf getTime clock heap legislators in
     let ids := resolvedIds getTime clock legislators in
     (forall k, In k (keys groups) <-> In k ids /\ inherited k = false) /\
     NoDup (keys groups) /\
     (exists indices,
        keys groups = indices ++ firstSeen (otherKeys (ownIds ids)) /\
        Forall (fun k => isIndexKey k = true) indices /\
        Sorted indexLe indices) /\
     (Forall ordinary ids -> keys groups = firstSeen ids) /\
     (forall k g,
        In (k, g) groups ->
        partyAlias g = k /\
        alignment g = alignmentOf k /\
        count g = Z.of_nat (count_occ string_dec ids k)) /\
     stableDescending (filter (hasAlignment left) groups)
                      (leftParties groups) /\
     stableDescending (filter (hasAlignment center) groups)
                      (centerParties groups) /\
     stableDescending (filter (hasAlignment right) groups)
                      (rightParties groups) /\
     (forall e0 rest,
        leftParties groups = e0 :: rest ->
        hd_error (sortedParties groups) = Some e0 /\
        forall e, In e (leftParties groups) ->
                  count (snd e) <= count (snd e0)) /\
     (forall e0 rest,
        rightParties groups = e0 :: rest ->
        JS.last_elt (sortedParties groups) = Some e0 /\
        forall e, In e (rightParties groups) ->
                  count (snd e) <= count (snd e0)) /\
     (legislators = [] \/
      (exists k, In k ids /\ inherited k = false) ->
      exists seats,
        ParliamentChart getTime clock Math_cos Math_sin heap legislators size
        = Ok (seats,
              leftParties groups ++ centerParties groups
                ++ rev (rightParties groups)) /\
        (Forall (fun k => inherited k = false) ids ->
         map seatParty seats
         = map (fun g => (color g, partyAlias g))
               (blocks (leftParties groups ++ centerParties groups
                          ++ rev (rightParties groups)))))) /\
  (exists seats legend,
     Sample.chart Sample.hemicycle = Ok (seats, legend) /\
     map (fun e => (fst e, alignment (snd e), count (snd e))) legend
     = [("PC", left, 10); ("DC", center, 3); ("RN", right, 5)]).
Proof.
  split.
  - intros getTime clock Math_cos Math_sin heap legislators size groups ids.
    pose proof (partyGroupsOf_spec getTime clock heap legislators)
      as (Hkeys & Hnd & _ & _ & _ & Horder).
    cbv zeta in Hkeys, Hnd, Horder. fold groups ids in Hkeys, Hnd, Horder.
    split; [ intros k; rewrite Hkeys; apply In_ownIds |].
    split; [ exact Hnd |].
    split; [ exact Horder |].
    split.
    { intros Hord. destruct Horder as (indices & Heq & Hidx & _).
      rewrite (firstSeen_ordinary _ Hord) in Heq.
      destruct indices as [| k indices]; [ exact Heq |].
      exfalso. inversion Hidx as [| ? ? Hk _]; subst.
      assert (In k ids) as Hin.
      { apply (In_ownIds ids), Hkeys. rewrite Heq. now left. }
      rewrite Forall_forall in Hord. destruct (Hord k Hin) as [_ Hnone].
      unfold isIndexKey in Hk. rewrite Hnone in Hk. discriminate. }
    split.
    { intros k g Hin.
      destruct (group_in_groups getTime clock heap legislators k g Hin)
        as ((Ha & _ & _ & Hal) & Hc).
      auto. }
    split; [ apply sort_byCountDesc_stable |].
    split; [ apply sort_byCountDesc_stable |].
    split; [ apply sort_byCountDesc_stable |].
    split.
    { intros e0 rest HL. unfold sortedParties. rewrite HL.
      split; [ reflexivity |].
      apply descending_head_is_largest. rewrite <- HL.
      apply sort_byCountDesc_stable. }
    split.
    { intros e0 rest HR. unfold sortedParties. rewrite HR.
      split.
      - simpl rev. rewrite !app_assoc. apply last_elt_snoc.
      - apply descending_head_is_largest. rewrite <- HR.
        apply sort_byCountDesc_stable. }
    intros [-> | Hown].
    + exists []. split; [ reflexivity | intros _; reflexivity ].
    + destruct (legend_nonempty getTime clock heap legislators Hown)
        as [Hne _].
      destruct (ParliamentChart_runs getTime clock Math_cos Math_sin
                  heap legislators size) as (_ & Hrun & _).
      cbv zeta in Hrun. destruct (Hrun Hne) as [Hok _].
      eexists. split; [ exact Hok |].
      intros Hall.
      destruct (ParliamentChart_spec getTime clock Math_cos Math_sin
                  heap legislators size Hall) as (Hrun2 & _ & Hpts & Hblocks).
      cbv zeta in Hrun2, Hpts, Hblocks.
      rewrite Hok in Hrun2. injection Hrun2 as ->.
      apply zipSeats_parties. rewrite Hpts. symmetry. exact Hblocks.
  - destruct (Sample.chart Sample.hemicycle) as [[seats legend] |] eqn:E;
      [| vm_compute in E; discriminate ].
    exists seats, legend. split; [ reflexivity |].
    vm_compute in E. injection E as _ <-. vm_compute. reflexivity.
Qed.

Lemma legend_is_left_center_reversed_right_witness :
  Forall ordinary (resolvedIds Iso.getTime Sample.clock Sample.hemicycle) /\
  keys (partyGroupsOf Iso.getTime Sample.clock [] Sample.hemicycle)
  = firstSeen (resolvedIds Iso.getTime Sample.clock Sample.hemicycle).
Proof.
  assert (Forall ordinary
            (resolvedIds Iso.getTime Sample.clock Sample.hemicycle)) as H.
  { assert (resolvedIds Iso.getTime Sample.clock Sample.hemicycle
            = (repeat "RN" 5 ++ repeat "DC" 3 ++ repeat "PC" 10)%list) as ->
        by (vm_compute; reflexivity).
    simpl. repeat (constructor; [ split; reflexivity |]). constructor. }
  split; [ exact H |].
  exact (proj1 (proj2 (proj2 (proj2
           (proj1 legend_is_left_center_reversed_right
              Iso.getTime Sample.clock Sample.cos Sample.sin []
              Sample.hemicycle None)))) H).
Defined.

(** C6 against the code.  The seat at index [i] of the result sits on
    the [i]-th position of the pooled sequence sorted by [byAngleDesc], an
    order that comparator accepts between neighbours, whatever row a
    position came from.  The counts of the legend are positive and add up
    to the number of legislators counted under an id that is no inherited
    name.  The parties read along the seats are the legend's groups, each
    repeated [count] times in one run, and after them the last group of
    the legend again for every seat that is left: when no id is an
    inherited name no seat is left and each party fills exactly [count]
    consecutive positions.  With one legislator of a party with the alias
    "constructor" and one of the PS, both seats go to the PS, whose count
    is 1.  For the chamber's 155 seats drawn at size 340 the angles along
    the sorted positions never increase. *)
Theorem parties_fill_consecutive_blocks :
  descending (map angle (allPositions Sample.cos Sample.sin 340 155))
  = true /\
  (forall getTime clock Math_cos Math_sin heap legislators size,
     let total := List.length legislators in
     let ids := resolvedIds getTime clock legislators in
     let pooled :=
       positionsFrom Math_cos Math_sin (orDefault size 300%float) 0
                     (seatsPerRowArray (Z.of_nat total)) in
     let legend := sortedParties (partyGroupsOf getTime clock heap legislators) in
     Permutation (JS.sort byAngleDesc pooled) pooled /\
     Sorted (mayPrecede byAngleDesc) (JS.sort byAngleDesc pooled) /\
     Forall (fun e => 1 <= count (snd e)) legend /\
     totalCount legend = Z.of_nat (List.length (ownIds ids)) /\
     (legend <> [] ->
      exists seats,
        ParliamentChart getTime clock Math_cos Math_sin heap legislators size
        = Ok (seats, legend) /\
        map seatPoint seats
        = map pointOf (firstn total (JS.sort byAngleDesc pooled)) /\
        map seatParty seats
        = map (fun g => (color g, partyAlias g))
              (firstn total (paddedBlocks legend total))) /\
     (Forall (fun k => inherited k = false) ids ->
      exists seats,
        ParliamentChart getTime clock Math_cos Math_sin heap legislators size
        = Ok (seats, legend) /\
        map seatPoint seats
        = map pointOf (firstn total (JS.sort byAngleDesc pooled)) /\
        map seatParty seats
        = flat_map
            (fun e => repeat (color (snd e), partyAlias (snd e))
                             (Z.to_nat (count (snd e))))
            legend /\
        totalCount legend = Z.of_nat total)) /\
  resolvedIds Iso.getTime Sample.clock
    [Sample.member "constructor"; Sample.member "PS"]
  = ["constructor"; "PS"] /\
  (exists seats legend,
     Sample.chart [Sample.member "constructor"; Sample.member "PS"]
     = Ok (seats, legend) /\
     map seat_partyAlias seats = ["PS"; "PS"] /\
     map (fun e => (fst e, count (snd e))) legend = [("PS", 1)]).
Proof.
  split; [ vm_compute; reflexivity |].
  split.
  - intros getTime clock Math_cos Math_sin heap legislators size. cbv zeta.
    pose proof (partyGroupsOf_spec getTime clock heap legislators)
      as (_ & _ & Hok & _ & Htotal & _).
    cbv zeta in Hok, Htotal.
    pose proof (sortedParties_perm
                  (partyGroupsOf getTime clock heap legislators)) as Hperm.
    rewrite <- (totalCount_perm _ _ Hperm) in Htotal.
    destruct (ParliamentChart_runs getTime clock Math_cos Math_sin
                heap legislators size) as (Hchosen & Hrun & _).
    cbv zeta in Hchosen, Hrun. unfold allPositions in Hchosen, Hrun.
    split; [ apply sort_perm |].
    split; [ apply sort_sorted_gen |].
    split.
    { eapply Permutation_Forall; [ apply Permutation_sym, Hperm |].
      eapply Forall_impl; [| exact Hok ]. intros e He. apply He. }
    split; [ exact Htotal |].
    split.
    + intros Hne. destruct (Hrun Hne) as [Hrun' Hlen].
      eexists. split; [ exact Hrun' |].
      split; [ apply zipSeats_points; now rewrite Hlen, Hchosen |].
      now rewrite zipSeats_firstn, Hchosen.
    + intros Hall.
      destruct (ParliamentChart_spec getTime clock Math_cos Math_sin
                  heap legislators size Hall)
        as (Hrun' & Hlen & Hpts & Hblocks).
      cbv zeta in Hrun', Hlen, Hpts, Hblocks.
      unfold allPositions in Hrun', Hlen, Hpts.
      eexists. split; [ exact Hrun' |].
      split; [ apply zipSeats_points; now rewrite Hlen, Hpts |].
      split.
      * rewrite zipSeats_parties by now rewrite Hpts, Hblocks.
        apply map_blocks.
      * rewrite Htotal, (ownIds_all _ Hall).
        now rewrite length_resolvedIds.
  - split; [ vm_compute; reflexivity |].
    destruct (Sample.chart [Sample.member "constructor"; Sample.member "PS"])
      as [[seats legend] |] eqn:E; [| vm_compute in E; discriminate ].
    exists seats, legend. split; [ reflexivity |].
    vm_compute in E. injection E as <- <-.
    split; vm_compute; reflexivity.
Qed.

Lemma parties_fill_consecutive_blocks_witness :
  Forall (fun k => inherited k = false)
         (resolvedIds Iso.getTime Sample.clock Sample.hemicycle) /\
  exists seats,
    Sample.chart Sample.hemicycle
    = Ok (seats,
          sortedParties
            (partyGroupsOf Iso.getTime Sample.clock [] Sample.hemicycle)) /\
    map seatPoint seats
    = map pointOf
        (firstn (List.length Sample.hemicycle)
           (JS.sort byAngleDesc
              (positionsFrom Sample.cos Sample.sin 300 0
                 (seatsPerRowArray
                    (Z.of_nat (List.length Sample.hemicycle)))))) /\
    map seatParty seats
    = flat_map
        (fun e => repeat (color (snd e), partyAlias (snd e))
                         (Z.to_nat (count (snd e))))
        (sortedParties
           (partyGroupsOf Iso.getTime Sample.clock [] Sample.hemicycle)) /\
    totalCount
      (sortedParties
         (partyGroupsOf Iso.getTime Sample.clock [] Sample.hemicycle))
    = Z.of_nat (List.length Sample.hemicycle).
Proof.
  assert (Forall (fun k => inherited k = false)
            (resolvedIds Iso.getTime Sample.clock Sample.hemicycle)) as H.
  { assert (resolvedIds Iso.getTime Sample.clock Sample.hemicycle
            = (repeat "RN" 5 ++ repeat "DC" 3 ++ repeat "PC" 10)%list) as ->
        by (vm_compute; reflexivity).
    simpl. repeat (constructor; [ reflexivity |]). constructor. }
  split; [ exact H |].
  exact (proj2 (proj2 (proj2 (proj2 (proj2
           (proj1 (proj2 parties_fill_consecutive_blocks)
              Iso.getTime Sample.clock Sample.cos Sample.sin []
              Sample.hemicycle None))))) H).
Defined.

(** C8. With no legislator the current chart returns no seat and an
    empty legend, and so does the older chart, whatever the prototype
    objects hold; nothing is written to them.  The 128 positions of the
    inner rows are generated and none is read; the initial party group is
    absent and the loop, which does not run, never reads it. *)
Theorem empty_chart_is_empty :
  forall getTime clock Math_cos Math_sin heap size,
    ParliamentChart getTime clock Math_cos Math_sin heap [] size
    = Ok ([], []) /\
    Legacy.ParliamentChart getTime clock Math_cos Math_sin heap [] size
    = Ok ([], []) /\
    partyGroupsOf getTime clock heap [] = [] /\
    heapAfter getTime clock heap [] = heap /\
    currentPartyData (initialState [] []) = None /\
    List.length (allPositions Math_cos Math_sin (orDefault size 300%float) 0)
    = 128%nat.
Proof.
  intros getTime clock Math_cos Math_sin heap size.
  split; [ reflexivity |].
  split; [ reflexivity |].
  split; [ reflexivity |].
  split; [ reflexivity |].
  split; [ reflexivity |].
  rewrite length_allPositions. reflexivity.
Qed.

(** C9. A run of the chart leaves a trace outside its result: for each
    legislator counted under an inherited name the value inherited under
    that name gets a NaN [count], and [Object.prototype] itself when the
    name is "__proto__".  A second run on the same legislators and size,
    made with what the first run left and with a clock that gives the same
    readings to the calls made, returns the same seats and the same legend
    as the first, or throws as the first did; so does a run made with
    anything else earlier runs may have left.  The same holds of the older
    chart. *)
Theorem second_run_returns_the_same_chart :
  forall getTime clock1 clock2 Math_cos Math_sin heap legislators size,
    (forall i, (i < List.length legislators)%nat -> clock1 i = clock2 i) ->
    let left_behind := heapAfter getTime clock1 heap legislators in
    left_behind
    = heap ++ filter inherited (resolvedIds getTime clock1 legislators) /\
    ParliamentChart getTime clock2 Math_cos Math_sin left_behind
                    legislators size
    = ParliamentChart getTime clock1 Math_cos Math_sin heap legislators size /\
    Legacy.ParliamentChart getTime clock2 Math_cos Math_sin left_behind
                           legislators size
    = Legacy.ParliamentChart getTime clock1 Math_cos Math_sin heap
                             legislators size /\
    forall other,
      ParliamentChart getTime clock2 Math_cos Math_sin other legislators size
      = ParliamentChart getTime clock1 Math_cos Math_sin heap
                        legislators size /\
      Legacy.ParliamentChart getTime clock2 Math_cos Math_sin other
                             legislators size
      = Legacy.ParliamentChart getTime clock1 Math_cos Math_sin heap
                               legislators size.
Proof.
  intros getTime clock1 clock2 Math_cos Math_sin heap legislators size H.
  cbv zeta.
  assert (forall other,
            partyGroupsOf getTime clock2 other legislators
            = partyGroupsOf getTime clock1 heap legislators) as Hgroups.
  { intros other. apply partyGroupsOf_ext. intros i Hi. symmetry. auto. }
  split; [ apply heapAfter_spec |].
  unfold ParliamentChart, Legacy.ParliamentChart.
  split; [ now rewrite Hgroups |].
  split; [ now rewrite Hgroups |].
  intros other. now rewrite Hgroups.
Qed.

Lemma second_run_returns_the_same_chart_witness :
  heapAfter Iso.getTime Sample.clock [] Sample.polluting
  = ["__proto__"; "toString"] /\
  resolvedIds Iso.getTime Sample.clock Sample.polluting
  = ["__proto__"; "count"; "toString"] /\
  ParliamentChart Iso.getTime Sample.clockThenZero Sample.cos Sample.sin
    (heapAfter Iso.getTime Sample.clock [] Sample.polluting)
    Sample.polluting None
  = ParliamentChart Iso.getTime Sample.clock Sample.cos Sample.sin []
      Sample.polluting None /\
  Legacy.ParliamentChart Iso.getTime Sample.clockThenZero Sample.cos
    Sample.sin (heapAfter Iso.getTime Sample.clock [] Sample.polluting)
    Sample.polluting None
  = Legacy.ParliamentChart Iso.getTime Sample.clock Sample.cos Sample.sin []
      Sample.polluting None.
Proof.
  assert (forall i, (i < List.length Sample.polluting)%nat ->
                    Sample.clock i = Sample.clockThenZero i) as H.
  { intros i Hi. unfold Sample.clock, Sample.clockThenZero.
    destruct (Nat.ltb_spec i 3) as [_ | Hge]; [ reflexivity |].
    simpl in Hi. lia. }
  split; [ vm_compute; reflexivity |].
  split; [ vm_compute; reflexivity |].
  pose proof (second_run_returns_the_same_chart Iso.getTime Sample.clock
                Sample.clockThenZero Sample.cos Sample.sin []
                Sample.polluting None H) as (_ & Hcur & Hold & _).
  split; [ exact Hcur | exact Hold ].
Defined.

Lemma nth_resolvedIds getTime clock (legislators : list DiputadoPeriodo)
    (i : nat) (leg : DiputadoPeriodo) :
  nth_error legislators i = Some leg ->
  nth_error (resolvedIds getTime clock legislators) i
  = Some (partyIdOf
            (getCurrentMilitancia getTime (clock i) (Diputado_of leg))).
Proof.
  intros H. unfold resolvedIds.
  rewrite nth_error_map, (nth_partiesFrom getTime clock 0 i _ _ H).
  reflexivity.
Qed.

(** C10. [getCurrentMilitancia] returns the first membership, in the
    order of the normalized sequence, whose range of dates contains the
    time read, and null when none does; of two listed memberships that
    both contain it, the one listed first is returned, whichever starts
    later.  A legislator for whom it returns null is counted under the id
    "IND": the group kept under "IND" counts every legislator resolved to
    that id, this one included, and carries the alias "IND", the colour
    #808080 and the centre alignment. *)
Theorem current_party_is_first_match_else_IND :
  (forall getTime now diputado,
     match getCurrentMilitancia getTime now diputado with
     | Some m =>
         exists pre post,
           normalizeMilitancias (DiputadoMilitancias diputado)
           = pre ++ m :: post /\
           inRange getTime now m /\
           Forall (fun m' => ~ inRange getTime now m') pre
     | None =>
         Forall (fun m' => ~ inRange getTime now m')
                (normalizeMilitancias (DiputadoMilitancias diputado))
     end) /\
  (forall getTime clock heap legislators i leg,
     nth_error legislators i = Some leg ->
     getCurrentMilitancia getTime (clock i) (Diputado_of leg) = None ->
     let ids := resolvedIds getTime clock legislators in
     nth_error ids i = Some "IND" /\
     exists g,
       lookup "IND" (partyGroupsOf getTime clock heap legislators) = Some g /\
       In ("IND", g)
          (sortedParties (partyGroupsOf getTime clock heap legislators)) /\
       count g = Z.of_nat (count_occ string_dec ids "IND") /\
       1 <= count g /\
       partyAlias g = "IND" /\
       color g = "#808080" /\
       alignment g = center) /\
  inRange Iso.getTime Sample.today Sample.since2022 /\
  inRange Iso.getTime Sample.today Sample.since2023 /\
  getCurrentMilitancia Iso.getTime Sample.today Sample.twoHomes
  = Some Sample.since2022 /\
  getCurrentMilitancia Iso.getTime Sample.today
    (Sample.diputado (Many [Sample.since2023; Sample.since2022]))
  = Some Sample.since2023.
Proof.
  split; [ intros; apply getCurrentMilitancia_first |].
  split.
  - intros getTime clock heap legislators i leg Hleg Hnone ids.
    assert (nth_error ids i = Some "IND") as Hid.
    { subst ids. rewrite (nth_resolvedIds _ _ _ _ _ Hleg), Hnone.
      reflexivity. }
    split; [ exact Hid |].
    destruct (group_of_key getTime clock heap legislators "IND")
      as (g & Hlookup & (Ha & Hone & Hcol & Hal) & Hcount).
    { eapply nth_error_In, Hid. }
    { exact inherited_not_IND. }
    exists g. repeat split; auto.
    eapply Permutation_in;
      [ apply Permutation_sym, sortedParties_perm | now apply lookup_In ].
  - split; [ exists 1646956800000, 1773187200000;
             repeat split; vm_compute; congruence |].
    split; [ exists 1685577600000, 1773187200000;
             repeat split; vm_compute; congruence |].
    split; vm_compute; reflexivity.
Qed.

Lemma current_party_is_first_match_else_IND_witness :
  nth_error (resolvedIds Iso.getTime Sample.clock
               [Sample.member "RN"; Sample.lapsed]) 1 = Some "IND" /\
  exists g,
    lookup "IND" (partyGroupsOf Iso.getTime Sample.clock []
                    [Sample.member "RN"; Sample.lapsed]) = Some g /\
    In ("IND", g)
       (sortedParties (partyGroupsOf Iso.getTime Sample.clock []
                         [Sample.member "RN"; Sample.lapsed])) /\
    count g
    = Z.of_nat (count_occ string_dec
                  (resolvedIds Iso.getTime Sample.clock
                     [Sample.member "RN"; Sample.lapsed]) "IND") /\
    1 <= count g /\
    partyAlias g = "IND" /\
    color g = "#808080" /\
    alignment g = center.
Proof.
  apply (proj1 (proj2 current_party_is_first_match_else_IND)
           Iso.getTime Sample.clock [] [Sample.member "RN"; Sample.lapsed]
           1%nat Sample.lapsed).
  - reflexivity.
  - vm_compute. reflexivity.
Defined.

(* ------------------------------------------------------------------ *)
(** * More about the affiliation timeline *)

Section HistoryFacts.
Variable getTime : string -> option Z.

Abbreviation originals := MergedMilitancia.originalMilitancias.
Abbreviation scan l := (fold_left (mergeStep getTime) l []).

Lemma scan_periods (l : list Militancia.t) : periodsOf (scan l) = l.
Proof.
  destruct (scan_cases getTime l)
    as [[-> ->] | (l' & a & out & r & o1 & -> & _)]; [ reflexivity |].
  destruct (scan_last getTime l' a) as (out' & r' & o1' & -> & Hor & _ & _ & Hcat).
  unfold periodsOf. rewrite map_app, concat_app. simpl.
  now rewrite Hor, app_nil_r, app_assoc, Hcat.
Qed.

Lemma periodCount_sum (merged : list MergedMilitancia.t) :
  Forall (recordInvariant getTime) merged ->
  fold_right Z.add 0 (map MergedMilitancia.periodCount merged)
  = Z.of_nat (List.length (periodsOf merged)).
Proof.
  unfold periodsOf.
  induction 1 as [| r merged (_ & Hr & _) _ IH]; simpl; [ reflexivity |].
  rewrite length_app, IH, Hr. lia.
Qed.

Lemma records_nonempty (merged : list MergedMilitancia.t) :
  Forall (recordInvariant getTime) merged ->
  (List.length merged <= List.length (periodsOf merged))%nat.
Proof.
  unfold periodsOf.
  induction 1 as [| r merged (Hr1 & Hr & _) _ IH]; simpl; [ lia |].
  rewrite length_app. lia.
Qed.

Lemma last_elt_inv {A : Type} (l : list A) (a : A) :
  JS.last_elt l = Some a -> exists l0, l = l0 ++ [a].
Proof.
  unfold JS.last_elt. intros H.
  destruct (rev l) as [| x l0] eqn:E; [ discriminate |].
  injection H as ->. exists (rev l0).
  rewrite <- (rev_involutive l), E. reflexivity.
Qed.

Lemma Sorted_app_r {A : Type} (R : A -> A -> Prop) (l1 l2 : list A) :
  Sorted R (l1 ++ l2) -> Sorted R l2.
Proof.
  induction l1 as [| a l1 IH]; simpl; intros H; [ exact H |].
  inversion H; subst. now apply IH.
Qed.

Lemma Sorted_middle {A : Type} (R : A -> A -> Prop) (p q : list A) (a b : A) :
  Sorted R (p ++ a :: b :: q) -> R a b.
Proof.
  intros H. apply (Sorted_snoc_pair R p).
  apply (Sorted_app_l R _ q). now rewrite <- app_assoc.
Qed.

Lemma couldJoin_continues (r : MergedMilitancia.t) (b : Militancia.t) :
  couldJoin getTime r (freshMerged b) <-> continues getTime r b = true.
Proof.
  unfold couldJoin, continues. simpl.
  rewrite andb_true_iff, String.eqb_eq, arePeriodsSequential_spec.
  reflexivity.
Qed.

(** No step of the scan leaves two neighbours it would have joined. *)
Lemma scan_apart (l : list Militancia.t) :
  Sorted (fun r1 r2 => ~ couldJoin getTime r1 r2) (scan l).
Proof.
  induction l as [| b l IH] using rev_ind; [ constructor |].
  rewrite fold_left_app. simpl.
  destruct (scan_cases getTime l)
    as [[-> ->] | (l' & a & out & r & o1 & -> & Hs & Hor)].
  - repeat constructor.
  - rewrite Hs in *. rewrite mergeStep_snoc.
    destruct (continues getTime r b) eqn:E.
    + apply Sorted_snoc; [ now apply (Sorted_app_l _ _ [r]) |].
      intros x Hx. apply last_elt_inv in Hx as [out0 ->].
      rewrite <- app_assoc in IH. simpl in IH.
      apply Sorted_snoc_pair in IH. exact IH.
    + apply Sorted_snoc; [ exact IH |].
      intros x Hx. rewrite last_elt_snoc in Hx. injection Hx as <-.
      rewrite couldJoin_continues, E. discriminate.
Qed.

(** Every source of a record but the first has a start date that
    parses: the scan read a gap from it. *)
Lemma scan_tails_parse (l : list Militancia.t) :
  Forall (fun r => Forall (startParses getTime) (tl (originals r))) (scan l).
Proof.
  induction l as [| b l IH] using rev_ind; [ constructor |].
  rewrite fold_left_app. simpl.
  destruct (scan_cases getTime l)
    as [[-> ->] | (l' & a & out & r & o1 & -> & Hs & Hor)].
  - repeat constructor.
  - rewrite Hs in *. rewrite mergeStep_snoc.
    apply Forall_app in IH as [Hout Hr]. inversion Hr as [| ? ? Hr' _]; subst.
    destruct (continues getTime r b) eqn:E.
    + apply Forall_app. split; [ exact Hout |]. constructor; [| constructor ].
      simpl. rewrite Hor in *.
      replace (tl ((o1 ++ [a]) ++ [b])) with (tl (o1 ++ [a]) ++ [b])
        by (destruct o1; reflexivity).
      apply Forall_app. split; [ exact Hr' |]. constructor; [| constructor ].
      unfold continues in E. apply andb_true_iff in E as [_ E].
      apply arePeriodsSequential_spec in E as (e & s & _ & Hsome & _).
      unfold startParses. congruence.
    + apply Forall_app. split; [ now apply Forall_app |].
      repeat constructor.
Qed.

Lemma chain_through_parsed (os : list Militancia.t) :
  forall a b,
    Sorted (startsInOrder getTime) (a :: os ++ [b]) ->
    Forall (startParses getTime) os ->
    startsInOrder getTime a b.
Proof.
  induction os as [| o os IH]; intros a b Hs Hp.
  - inversion Hs as [| ? ? _ Hh]; subst. now inversion Hh.
  - inversion Hs as [| ? ? Hs' Hh]; subst. inversion Hh as [| ? ? Hao]; subst.
    inversion Hp as [| ? ? Ho Hp']; subst.
    specialize (IH o b Hs' Hp').
    unfold startParses in Ho.
    destruct (getTime (Militancia.FechaInicio o)) as [t |] eqn:Et;
      [| congruence ].
    intros x y Hx Hy.
    specialize (Hao x t Hx Et). specialize (IH t y Et Hy). lia.
Qed.

Lemma periodsOf_app (m1 m2 : list MergedMilitancia.t) :
  periodsOf (m1 ++ m2) = periodsOf m1 ++ periodsOf m2.
Proof. unfold periodsOf. now rewrite map_app, concat_app. Qed.

Lemma scan_in_order (l : list Militancia.t) :
  Sorted (startsInOrder getTime) l ->
  Sorted (recordsInOrder getTime) (scan l).
Proof.
  intros Hsorted.
  pose proof (scan_periods l) as Hper.
  pose proof (scan_invariant getTime l Hsorted) as Hinv.
  pose proof (scan_tails_parse l) as Htl.
  revert Hper Hinv Htl. generalize (scan l) as merged.
  intros merged. revert l Hsorted.
  induction merged as [| r1 merged IH]; intros l Hsorted Hper Hinv Htl;
    [ constructor |].
  inversion Hinv as [| ? ? (_ & _ & _ & Hhd1 & _) Hinv']; subst.
  inversion Htl as [| ? ? Htl1 Htl']; subst.
  change (periodsOf (r1 :: merged)) with (originals r1 ++ periodsOf merged)
    in Hsorted.
  constructor.
  - apply (IH (periodsOf merged)); auto.
    now apply (Sorted_app_r _ (originals r1)).
  - destruct merged as [| r2 merged]; constructor.
    inversion Hinv' as [| ? ? (_ & _ & _ & Hhd2 & _) _]; subst.
    destruct (originals r1) as [| a1 os1] eqn:E1; [ discriminate |].
    destruct (originals r2) as [| b os2] eqn:E2; [ discriminate |].
    simpl in Hhd1, Hhd2, Htl1. injection Hhd1 as Hhd1. injection Hhd2 as Hhd2.
    change (periodsOf (r2 :: merged)) with (originals r2 ++ periodsOf merged)
      in Hsorted.
    rewrite E2 in Hsorted.
    assert (Sorted (startsInOrder getTime) (a1 :: os1 ++ [b])) as Hchain.
    { apply (Sorted_app_l _ _ (os2 ++ periodsOf merged)).
      simpl. rewrite <- app_assoc. exact Hsorted. }
    pose proof (chain_through_parsed os1 a1 b Hchain Htl1) as H.
    unfold recordsInOrder. rewrite <- Hhd1, <- Hhd2. exact H.
Qed.

Lemma record_of_period (merged : list MergedMilitancia.t) (m : Militancia.t) :
  In m (periodsOf merged) -> exists r, In r merged /\ In m (originals r).
Proof.
  unfold periodsOf. rewrite in_concat. intros (o & Ho & Hm).
  apply in_map_iff in Ho as (r & <- & Hr). eauto.
Qed.
End HistoryFacts.

(** X1. The sources of the records [mergeSequentialMilitancias] returns,
    read record after record, are the periods in their sorted order: every
    period of the deputy is a source of exactly one record, none is made
    up, and the period counts add up to the number of periods. *)
Theorem every_period_is_in_one_record :
  forall getTime ms,
    let merged := mergeSequentialMilitancias getTime ms in
    periodsOf merged = sortedMilitancias getTime ms /\
    Permutation (periodsOf merged) (normalizeMilitancias ms) /\
    fold_right Z.add 0 (map MergedMilitancia.periodCount merged)
    = Z.of_nat (List.length (normalizeMilitancias ms)).
Proof.
  intros getTime ms merged.
  assert (periodsOf merged = sortedMilitancias getTime ms) as Hper
      by apply scan_periods.
  split; [ exact Hper |]. split.
  - rewrite Hper. apply sort_perm.
  - rewrite (periodCount_sum getTime), Hper.
    + unfold sortedMilitancias. now rewrite sort_length.
    + apply scan_invariant, sortedMilitancias_sorted.
Qed.

(** X2. A deputy has at least as many records as distinct party ids and
    at most as many as periods.  The card of the list screen prints the
    line "n partidos politicos" only when there are two records or more,
    and [n] is the number of records, which exceeds the number of parties
    whenever the deputy came back to one. *)
Theorem parties_line_counts_records :
  forall getTime diputado,
    let periods := normalizeMilitancias (DiputadoMilitancias diputado) in
    let merged :=
      mergeSequentialMilitancias getTime (DiputadoMilitancias diputado) in
    (List.length (partyIds periods) <= List.length merged
     <= List.length periods)%nat /\
    match partiesLine getTime diputado with
    | Some n => n = List.length merged /\ (2 <= n)%nat
    | None => (List.length (partyIds periods) <= 1)%nat
    end.
Proof.
  intros getTime diputado periods merged.
  assert (periodsOf merged = sortedMilitancias getTime (DiputadoMilitancias diputado)) as Hper
      by apply scan_periods.
  assert (Forall (recordInvariant getTime) merged) as Hinv
      by apply scan_invariant, sortedMilitancias_sorted.
  assert (List.length (partyIds periods) <= List.length merged
          <= List.length periods)%nat as Hb.
  { split.
    - rewrite <- (length_map (fun r => Id (MergedMilitancia.Partido r)) merged).
      apply NoDup_incl_length; [ apply NoDup_nodup |].
      intros k Hk. unfold partyIds in Hk. apply nodup_In in Hk.
      apply in_map_iff in Hk as (m & <- & Hm).
      assert (In m (periodsOf merged)) as Hm'.
      { rewrite Hper. unfold sortedMilitancias. now apply sort_In. }
      apply record_of_period in Hm' as (r & Hr & Hmr).
      pose proof (scan_oneParty getTime
                    (sortedMilitancias getTime (DiputadoMilitancias diputado)))
        as Hone.
      rewrite Forall_forall in Hone. specialize (Hone r Hr).
      unfold oneParty in Hone. rewrite Forall_forall in Hone.
      rewrite (Hone m Hmr). apply in_map_iff. eauto.
    - pose proof (records_nonempty getTime merged Hinv) as H.
      rewrite Hper in H. unfold sortedMilitancias in H.
      now rewrite sort_length in H. }
  split; [ exact Hb |].
  unfold partiesLine. cbv zeta. fold merged.
  destruct (Nat.ltb_spec 1 (List.length merged)); [ split; [ reflexivity | lia ] | lia ].
Qed.

(** X3. No two neighbouring records of the result could still be joined:
    they differ in party id, or the gap from the end of the first to the
    start of the second is not within [0, one day]. *)
Theorem neighbouring_records_could_not_join :
  forall getTime ms out r1 r2 out',
    mergeSequentialMilitancias getTime ms = out ++ r1 :: r2 :: out' ->
    ~ couldJoin getTime r1 r2.
Proof.
  intros getTime ms out r1 r2 out' H.
  pose proof (scan_apart getTime (sortedMilitancias getTime ms)) as Hs.
  unfold mergeSequentialMilitancias in H. rewrite H in Hs.
  now apply Sorted_middle in Hs.
Qed.

Lemma neighbouring_records_could_not_join_witness :
  mergeSequentialMilitancias Iso.getTime
    (Many [Sample.first_term; Sample.overlapping])
  = [] ++ freshMerged Sample.first_term
       :: freshMerged Sample.overlapping :: [] /\
  ~ couldJoin Iso.getTime (freshMerged Sample.first_term)
              (freshMerged Sample.overlapping).
Proof.
  assert (mergeSequentialMilitancias Iso.getTime
            (Many [Sample.first_term; Sample.overlapping])
          = [] ++ freshMerged Sample.first_term
               :: freshMerged Sample.overlapping :: []) as H
      by (vm_compute; reflexivity).
  split; [ exact H |].
  exact (neighbouring_records_could_not_join Iso.getTime _ _ _ _ _ H).
Defined.

(** X4. The records come out in the order of their start dates: of two
    neighbouring records whose start dates parse, the first does not
    start after the second. *)
Theorem records_start_in_order :
  forall getTime ms out r1 r2 out',
    mergeSequentialMilitancias getTime ms = out ++ r1 :: r2 :: out' ->
    recordsInOrder getTime r1 r2.
Proof.
  intros getTime ms out r1 r2 out' H.
  pose proof (scan_in_order getTime _ (sortedMilitancias_sorted getTime ms))
    as Hs.
  unfold mergeSequentialMilitancias in H. rewrite H in Hs.
  now apply Sorted_middle in Hs.
Qed.

Lemma records_start_in_order_witness :
  mergeSequentialMilitancias Iso.getTime
    (Many [Sample.overlapping; Sample.first_term])
  = [] ++ freshMerged Sample.first_term
       :: freshMerged Sample.overlapping :: [] /\
  recordsInOrder Iso.getTime (freshMerged Sample.first_term)
                 (freshMerged Sample.overlapping).
Proof.
  assert (mergeSequentialMilitancias Iso.getTime
            (Many [Sample.overlapping; Sample.first_term])
          = [] ++ freshMerged Sample.first_term
               :: freshMerged Sample.overlapping :: []) as H
      by (vm_compute; reflexivity).
  split; [ exact H |].
  exact (records_start_in_order Iso.getTime _ _ _ _ _ H).
Defined.

(* ------------------------------------------------------------------ *)
(** * The screens *)

Lemma containsNow_dates getTime (now : Z) (m : Militancia.t) :
  containsNow getTime now m = true ->
  getTime (Militancia.FechaInicio m) <> None /\
  getTime (Militancia.FechaTermino m) <> None.
Proof.
  unfold containsNow.
  destruct (getTime (Militancia.FechaInicio m)),
           (getTime (Militancia.FechaTermino m)); try discriminate.
  split; discriminate.
Qed.

Lemma timeGe_refl (x : option Z) : x <> None -> timeGe x x = true.
Proof. destruct x; [ intros _; simpl; lia | congruence ]. Qed.

Lemma timeLe_refl (x : option Z) : x <> None -> timeLe x x = true.
Proof. destruct x; [ intros _; simpl; lia | congruence ]. Qed.

(** X5. The history card of a deputy lists the merged records, each
    once.  When [getCurrentMilitancia] finds a membership the card is
    drawn, the record that holds that membership carries the badge
    ACTUAL, and every record with the badge is of the current party; when
    it finds none, no row carries the badge. *)
Theorem current_party_is_flagged_in_history :
  forall getTime now diputado,
    let merged :=
      mergeSequentialMilitancias getTime (DiputadoMilitancias diputado) in
    (forall rows,
       partyHistory getTime now diputado = Some rows ->
       Permutation (map fst rows) merged) /\
    match getCurrentMilitancia getTime now diputado with
    | Some m =>
        exists rows r,
          partyHistory getTime now diputado = Some rows /\
          In (r, true) rows /\
          In m (MergedMilitancia.originalMilitancias r) /\
          forall r', In (r', true) rows ->
                     Id (MergedMilitancia.Partido r')
                     = Id (Militancia.Partido m)
    | None =>
        forall rows r flag,
          partyHistory getTime now diputado = Some rows ->
          In (r, flag) rows -> flag = false
    end.
Proof.
  intros getTime now diputado merged. split.
  - intros rows. unfold partyHistory. cbv zeta. fold merged.
    destruct (0 <? List.length merged)%nat; [| discriminate ].
    intros H. injection H as <-. rewrite map_map. simpl. rewrite map_id.
    apply sort_perm.
  - destruct (getCurrentMilitancia getTime now diputado) as [m |] eqn:Ecur.
    + pose proof Ecur as Hfind.
      unfold getCurrentMilitancia in Hfind. cbv zeta in Hfind.
      apply find_some in Hfind as [Hin Hnow].
      apply containsNow_dates in Hnow as [Hi Ht].
      assert (In m (periodsOf merged)) as Hm.
      { unfold merged, mergeSequentialMilitancias. rewrite scan_periods.
        unfold sortedMilitancias. now apply sort_In. }
      apply record_of_period in Hm as (r & Hr & Hmr).
      unfold partyHistory. cbv zeta. fold merged. rewrite Ecur.
      destruct (Nat.ltb_spec 0 (List.length merged)) as [_ | Hlen];
        [| destruct merged; [ contradiction | simpl in Hlen; lia ] ].
      eexists. exists r. split; [ reflexivity |].
      split; [| split; [ exact Hmr |] ].
      * apply in_map_iff. exists r. split; [| now apply sort_In ].
        f_equal. simpl. apply existsb_exists. exists m.
        split; [ exact Hmr |].
        now rewrite String.eqb_refl, timeGe_refl, timeLe_refl.
      * intros r' Hr'. apply in_map_iff in Hr' as (r0 & Heq & Hr0).
        injection Heq as -> Hflag. apply sort_In in Hr0.
        simpl in Hflag. apply existsb_exists in Hflag as (m' & Hm' & Hc).
        apply andb_true_iff in Hc as [Hc _].
        apply andb_true_iff in Hc as [Hc _]. apply String.eqb_eq in Hc.
        pose proof (scan_oneParty getTime
                      (sortedMilitancias getTime (DiputadoMilitancias diputado)))
          as Hone.
        rewrite Forall_forall in Hone. specialize (Hone r' Hr0).
        unfold oneParty in Hone. rewrite Forall_forall in Hone.
        rewrite <- (Hone m' Hm'). exact Hc.
    + intros rows r flag. unfold partyHistory. cbv zeta. rewrite Ecur.
      fold merged.
      destruct (0 <? List.length merged)%nat; [| discriminate ].
      intros H. injection H as <-. intros Hr.
      apply in_map_iff in Hr as (r0 & Heq & _). now injection Heq.
Qed.

(* ------------------------------------------------------------------ *)





(* ------------------------------------------------------------------ *)
(** * The service *)

Module ServiceFacts.
Import CongressAPIService.

Lemma lastn_all {A : Type} (n : nat) (l : list A) :
  (List.length l <= n)%nat -> lastn n l = l.
Proof.
  intros H. unfold lastn. now replace (List.length l - n)%nat with 0%nat by lia.
Qed.

Lemma length_lastn {A : Type} (n : nat) (l : list A) :
  List.length (lastn n l) = Nat.min n (List.length l).
Proof. unfold lastn. rewrite length_skipn. lia. Qed.

Lemma lastn_app_lastn {A : Type} (n : nat) (a b : list A) :
  lastn n (lastn n a ++ b) = lastn n (a ++ b).
Proof.
  destruct (Nat.le_gt_cases (List.length a) n) as [H | H].
  - now rewrite (lastn_all n a H).
  - unfold lastn at 1 3. rewrite !length_app, length_lastn.
    replace (Nat.min n (List.length a) + List.length b - n)%nat
      with (List.length b) by lia.
    unfold lastn.
    replace (List.length a + List.length b - n)%nat
      with (List.length b + (List.length a - n))%nat by lia.
    rewrite <- skipn_skipn. f_equal.
    rewrite skipn_app.
    replace (List.length a - n - List.length a)%nat with 0%nat by lia.
    reflexivity.
Qed.

Lemma log_counters ts lv msg (this : t) :
  requestCount (log ts lv msg this) = requestCount this /\
  failedCount (log ts lv msg this) = failedCount this.
Proof. split; reflexivity. Qed.

Lemma log_logs ts lv msg (this : t) :
  (List.length (logs this) <= 100)%nat ->
  logs (log ts lv msg this) = lastn 100 (logs this ++ [mkLogEntry ts lv msg]).
Proof.
  intros H. unfold log, lastn. cbn [logs]. rewrite length_app. simpl List.length.
  destruct (Nat.ltb_spec 100 (List.length (logs this) + 1)) as [Hlt | Hle].
  - replace (List.length (logs this) + 1 - 100)%nat with 1%nat by lia.
    destruct (logs this ++ [mkLogEntry ts lv msg]); reflexivity.
  - now replace (List.length (logs this) + 1 - 100)%nat with 0%nat by lia.
Qed.

Lemma log_length ts lv msg (this : t) :
  (List.length (logs this) <= 100)%nat ->
  (List.length (logs (log ts lv msg this)) <= 100)%nat.
Proof.
  intros H. rewrite log_logs by exact H. rewrite length_lastn. lia.
Qed.

Lemma logAll_spec (entries : list LogEntry) :
  forall this,
    (List.length (logs this) <= 100)%nat ->
    logs (logAll entries this) = lastn 100 (logs this ++ entries) /\
    requestCount (logAll entries this) = requestCount this /\
    failedCount (logAll entries this) = failedCount this.
Proof.
  induction entries as [| e entries IH]; intros this H; simpl.
  - rewrite app_nil_r, lastn_all by exact H. auto.
  - destruct (IH (log (timestamp e) (level e) (message e) this))
      as (Hl & Hr & Hf); [ now apply log_length |].
    unfold logAll in *. rewrite Hl, Hr, Hf.
    split; [| split; reflexivity ].
    rewrite log_logs by exact H. rewrite lastn_app_lastn, <- app_assoc.
    destruct e. reflexivity.
Qed.
End ServiceFacts.

(** X7. After any number of calls of [log] on a new service, the log
    holds the last hundred entries in the order they were written, all of
    them when there are fewer, and the two counters are untouched. *)
Theorem log_keeps_the_last_hundred :
  forall entries,
    let this := logAll entries CongressAPIService.constructor in
    CongressAPIService.logs this = lastn 100 entries /\
    List.length (CongressAPIService.logs this)
    = Nat.min 100 (List.length entries) /\
    CongressAPIService.requestCount this = 0 /\
    CongressAPIService.failedCount this = 0.
Proof.
  intros entries this.
  destruct (ServiceFacts.logAll_spec entries CongressAPIService.constructor)
    as (Hl & Hr & Hf); [ simpl; lia |].
  fold this in Hl, Hr, Hf. simpl in Hl.
  rewrite Hl, ServiceFacts.length_lastn. auto.
Qed.



Module RequestFacts.
Import CongressAPIService.






End RequestFacts.



(** X10. [_extractArray] returns an array for every parsed value and
    never throws.  Only the first top-level element of the data is read:
    what follows it changes nothing, and when that element is empty the
    result is the empty array whatever the others hold. *)
Theorem extractArray_reads_the_first_root :
  (forall data key,
     exists items, CongressAPIService.extractArray data key = Ok items) /\
  (forall name root rest rest' key,
     CongressAPIService.extractArray
       (CongressAPIService.VObj ((name, root) :: rest)) key
     = CongressAPIService.extractArray
         (CongressAPIService.VObj ((name, root) :: rest')) key) /\
  (forall name root rest key,
     CongressAPIService.falsy root = true ->
     CongressAPIService.extractArray
       (CongressAPIService.VObj ((name, root) :: rest)) key
     = Ok []).
Proof.
  split; [| split ].
  - intros data key. unfold CongressAPIService.extractArray.
    destruct (CongressAPIService.falsy data) eqn:Ed; [ eauto |].
    assert (exists root, CongressAPIService.firstOwn data = Ok root)
      as [root ->].
    { destruct data as [| | b | n | s | items | fields]; try discriminate;
        simpl; eauto.
      - destruct s; eauto.
      - destruct items; eauto.
      - destruct fields as [| [k v] fields]; eauto. }
    unfold bind.
    destruct (CongressAPIService.falsy root) eqn:Er; [ eauto |].
    assert (exists v, CongressAPIService.getProp root key = Ok v) as [v ->].
    { destruct root; try discriminate; simpl; eauto. }
    destruct (CongressAPIService.falsy v); [ eauto |].
    destruct v; eauto.
  - reflexivity.
  - intros name root rest key H. unfold CongressAPIService.extractArray.
    simpl. now rewrite H.
Qed.

(** X11. An element that occurs once under the root is returned as an
    array of one: the same result as when the parser had delivered it in
    an array; and extracting again from what was extracted gives the same
    items. *)
Theorem extractArray_wraps_a_single_item :
  forall rootName key item,
    CongressAPIService.falsy item = false ->
    let one := wrapped rootName key item in
    let many := wrapped rootName key (CongressAPIService.VArr [item]) in
    (isArray item = false ->
     CongressAPIService.extractArray one key = Ok [item] /\
     CongressAPIService.extractArray many key = Ok [item]) /\
    (forall items,
       CongressAPIService.extractArray one key = Ok items ->
       CongressAPIService.extractArray
         (wrapped rootName key (CongressAPIService.VArr items)) key
       = Ok items).
Proof.
  intros rootName key item Hitem one many.
  assert (forall v,
            CongressAPIService.extractArray (wrapped rootName key v) key
            = if CongressAPIService.falsy v then Ok []
              else match v with
                   | CongressAPIService.VArr l => Ok l
                   | _ => Ok [v]
                   end) as Hw.
  { intros v. unfold CongressAPIService.extractArray, wrapped. simpl.
    rewrite String.eqb_refl. simpl. reflexivity. }
  split.
  - intros Harr. unfold one, many. rewrite !Hw, Hitem. simpl.
    destruct item; try discriminate; auto.
  - intros items. unfold one. rewrite !Hw, Hitem. simpl.
    destruct item; intros H; injection H as <-; reflexivity.
Qed.

Lemma extractArray_wraps_a_single_item_witness :
  CongressAPIService.falsy (CongressAPIService.VStr "Diputado") = false /\
  isArray (CongressAPIService.VStr "Diputado") = false /\
  CongressAPIService.extractArray
    (wrapped "Diputados" "Diputado" (CongressAPIService.VStr "Diputado"))
    "Diputado"
  = Ok [CongressAPIService.VStr "Diputado"] /\
  CongressAPIService.extractArray
    (wrapped "Diputados" "Diputado"
       (CongressAPIService.VArr [CongressAPIService.VStr "Diputado"]))
    "Diputado"
  = Ok [CongressAPIService.VStr "Diputado"].
Proof.
  assert (CongressAPIService.falsy (CongressAPIService.VStr "Diputado")
          = false) as H by reflexivity.
  assert (isArray (CongressAPIService.VStr "Diputado") = false) as H'
      by reflexivity.
  split; [ exact H |]. split; [ exact H' |].
  exact (proj1 (extractArray_wraps_a_single_item "Diputados" "Diputado"
                  (CongressAPIService.VStr "Diputado") H) H').
Defined.

(** X12. The explore screen reads [total_requests],
    [successful_requests], [failed_requests] and [endpoints] from the
    object [getRequestStats] returns, which holds [peticiones_totales],
    [peticiones_fallidas] and [tasa_exito]: whatever the service has
    counted, the screen shows 0 requests and 0 successes, never draws the
    block of failures and lists no endpoint.  The home screen, in its
    first form, reads the three keys that exist. *)
Theorem explore_screen_never_shows_the_counters :
  forall toFixed1 toNumber this,
    let stats := CongressAPIService.getRequestStats toFixed1 this in
    ExploreScreen toNumber stats
    = mkExploreView (CongressAPIService.Num 0) (CongressAPIService.Num 0)
                    None false /\
    HomeScreen_stats stats
    = (Some (CongressAPIService.Num (CongressAPIService.requestCount this)),
       Some (CongressAPIService.Num (CongressAPIService.failedCount this)),
       Some (CongressAPIService.Str
               (toFixed1 (CongressAPIService.tasaExito this)))).
Proof. intros toFixed1 toNumber this stats. split; reflexivity. Qed.

(* ------------------------------------------------------------------ *)
(** * More about binary64 *)

Lemma binary_round_aux_not_nan (s : bool) (mx ex : Z) (lx : location) :
  0 <= mx -> binary_round_aux prec emax s mx ex lx <> S754_nan.
Proof.
  intros Hmx. unfold binary_round_aux, shr_fexp.
  set (n1 := fexp prec emax (Zdigits2 mx + ex) - ex).
  pose proof (shr_spec (shr_record_of_loc mx lx) ex n1) as [Hm1 _].
  { rewrite shr_m_record_of_loc. exact Hmx. }
  rewrite shr_m_record_of_loc in Hm1.
  destruct (shr (shr_record_of_loc mx lx) ex n1) as [mrs' e'].
  simpl in Hm1.
  assert (0 <= shr_m mrs') as Hpos1
      by (rewrite Hm1; apply Z.div_pos; [ lia | apply Z.pow_pos_nonneg; lia ]).
  pose proof (round_nearest_even_bounds (shr_m mrs') (loc_of_shr_record mrs'))
    as Hr.
  set (m2 := round_nearest_even (shr_m mrs') (loc_of_shr_record mrs')) in *.
  set (n2 := fexp prec emax (Zdigits2 m2 + e') - e').
  pose proof (shr_spec (shr_record_of_loc m2 loc_Exact) e' n2) as [Hm2 _].
  { rewrite shr_m_record_of_loc. lia. }
  rewrite shr_m_record_of_loc in Hm2.
  destruct (shr (shr_record_of_loc m2 loc_Exact) e' n2) as [mrs'' e''].
  simpl in Hm2.
  assert (0 <= shr_m mrs'') as Hpos2
      by (rewrite Hm2; apply Z.div_pos; [ lia | apply Z.pow_pos_nonneg; lia ]).
  destruct (shr_m mrs'') as [| m | m]; [ discriminate | | lia ].
  destruct (e'' <=? emax - prec); discriminate.
Qed.

Lemma SFcompare_refl (f : spec_float) :
  f <> S754_nan -> SFcompare f f = Some Eq.
Proof.
  destruct f as [s | s | | s m e]; intros H; simpl; try congruence.
  - now destruct s.
  - rewrite Z.compare_refl, Pos.compare_cont_refl. now destruct s.
Qed.

Lemma is_nan_spec (f : float) :
  PrimFloat.is_nan f = true <-> Prim2SF f = S754_nan.
Proof.
  unfold PrimFloat.is_nan. rewrite FloatAxioms.eqb_spec. unfold SFeqb.
  split.
  - intros H. destruct (Prim2SF f) eqn:E; try reflexivity;
      rewrite SFcompare_refl in H by discriminate; discriminate.
  - intros ->. reflexivity.
Qed.

Lemma is_nan_false (f : float) :
  PrimFloat.is_nan f = false <-> Prim2SF f <> S754_nan.
Proof.
  rewrite <- is_nan_spec. destruct (PrimFloat.is_nan f); split; congruence.
Qed.

Lemma ltb_leb (a b : float) :
  PrimFloat.ltb a b = true -> PrimFloat.leb a b = true.
Proof.
  rewrite FloatAxioms.ltb_spec, FloatAxioms.leb_spec. unfold SFltb, SFleb.
  destruct (SFcompare (Prim2SF a) (Prim2SF b)) as [[] |]; congruence.
Qed.

Lemma div_finite_not_nan (x y : float) (sy : bool) (my : positive) (ey : Z) :
  Prim2SF y = S754_finite sy my ey ->
  PrimFloat.is_nan x = false ->
  PrimFloat.is_nan (x / y) = false.
Proof.
  intros Hy Hx. apply is_nan_false. apply is_nan_false in Hx.
  rewrite FloatAxioms.div_spec, Hy. unfold SF64div, SFdiv.
  destruct (Prim2SF x) as [sx | sx | | sx mx ex]; try discriminate;
    [ congruence |].
  unfold SFdiv_core_binary.
  set (e' := Z.min _ _). set (sh := ex - ey - e').
  set (m' := match sh with 0 => Zpos mx | Zpos _ => Z.shiftl (Zpos mx) sh
                        | Zneg _ => 0 end).
  assert (0 <= m') as Hm'.
  { unfold m'. destruct sh; try lia. apply Z.shiftl_nonneg. lia. }
  pose proof (Z.div_pos m' (Zpos my) Hm' ltac:(lia)) as Hq.
  unfold Z.div in Hq.
  destruct (Z.div_eucl m' (Zpos my)) as [q r]. simpl in Hq.
  now apply binary_round_aux_not_nan.
Qed.

(** A positive integer below 2^53 divided by itself is 1. *)
Lemma num_div_self (z : Z) :
  0 < z < 2 ^ 53 -> (num z / num z)%float = 1%float.
Proof.
  intros Hz. destruct (num_spec z Hz) as (m & Hnum & Hm & Hdm).
  apply Prim2SF_inj. rewrite FloatAxioms.div_spec, Hnum.
  unfold SF64div, SFdiv, SFdiv_core_binary. rewrite Hdm.
  set (e := Zdigits2 z - 53).
  replace (53 + e - (53 + e)) with 0 by lia.
  replace (e - e) with 0 by lia.
  change (Z.min (fexp prec emax 0) 0) with (-53).
  change (0 - -53) with 53. cbv iota.
  rewrite Z.shiftl_mul_pow2 by lia.
  assert (Z.div_eucl (Zpos m * 2 ^ 53) (Zpos m) = (2 ^ 53, 0)) as ->.
  { assert ((Zpos m * 2 ^ 53) / Zpos m = 2 ^ 53) as Hd
        by (rewrite Z.mul_comm; apply Z.div_mul; lia).
    assert ((Zpos m * 2 ^ 53) mod Zpos m = 0) as Hr
        by (rewrite Z.mul_comm; apply Z.mod_mul; lia).
    unfold Z.div, Z.modulo in Hd, Hr.
    destruct (Z.div_eucl (Zpos m * 2 ^ 53) (Zpos m)) as [q r].
    simpl in Hd, Hr. now subst. }
  assert (new_location (Zpos m) 0 = loc_Exact) as ->.
  { unfold new_location, new_location_even, new_location_odd.
    destruct (Z.even (Zpos m)); reflexivity. }
  vm_compute. reflexivity.
Qed.

Lemma zero_div_num (z : Z) :
  0 < z < 2 ^ 53 -> (0 / num z)%float = 0%float.
Proof.
  intros Hz. destruct (num_spec z Hz) as (m & Hnum & _).
  apply Prim2SF_inj. rewrite FloatAxioms.div_spec, Hnum. reflexivity.
Qed.

Lemma seatSize_cases (r : float) :
  PrimFloat.is_nan r = false ->
  Math_max 6 (Math_min 12 r) = 12%float \/
  Math_max 6 (Math_min 12 r) = 6%float \/
  (Math_max 6 (Math_min 12 r) = r /\
   PrimFloat.ltb 6 r = true /\ PrimFloat.ltb r 12 = true).
Proof.
  intros Hr.
  assert (Math_min 12 r = 12%float \/
          (Math_min 12 r = r /\ PrimFloat.ltb r 12 = true)) as Hmin.
  { unfold Math_min. change (PrimFloat.is_nan 12) with false. rewrite Hr.
    cbn [orb].
    destruct (PrimFloat.ltb 12 r); [ now left |].
    destruct (PrimFloat.ltb r 12); [ now right |].
    left. reflexivity. }
  destruct Hmin as [-> | [-> Hlt]]; [ left; reflexivity |].
  unfold Math_max. change (PrimFloat.is_nan 6) with false. rewrite Hr.
  cbn [orb].
  destruct (PrimFloat.ltb 6 r) eqn:E6; [ right; right; auto |].
  right; left.
  destruct (PrimFloat.ltb r 6); reflexivity.
Qed.

(** X13. The diameter of a seat lies between 6 and 12 for every size
    that is a number, infinite sizes included, and is NaN only when the
    size is; at the default size 300 it is 7.5 and at size 340 it is
    8.5. *)
Theorem seat_size_is_between_6_and_12 :
  forall size,
    (PrimFloat.is_nan size = false ->
     PrimFloat.leb 6 (seatSize size) = true /\
     PrimFloat.leb (seatSize size) 12 = true) /\
    (PrimFloat.is_nan size = true ->
     PrimFloat.is_nan (seatSize size) = true) /\
    seatSize 300 = 7.5%float /\
    seatSize 340 = 8.5%float.
Proof.
  intros size. split; [| split; [| split; reflexivity ] ].
  - intros Hsize. unfold seatSize.
    assert (PrimFloat.is_nan (size / 40) = false) as Hr.
    { apply (div_finite_not_nan size 40 false 5629499534213120 (-47));
        [ reflexivity | exact Hsize ]. }
    destruct (seatSize_cases (size / 40) Hr) as [-> | [-> | (-> & H6 & H12)]].
    + split; reflexivity.
    + split; reflexivity.
    + split; now apply ltb_leb.
  - intros Hsize. apply is_nan_spec in Hsize.
    assert (PrimFloat.is_nan (size / 40) = true) as Hr.
    { apply is_nan_spec. rewrite FloatAxioms.div_spec, Hsize. reflexivity. }
    unfold seatSize, Math_min. rewrite Hr, orb_true_r.
    reflexivity.
Qed.

Lemma seat_size_is_between_6_and_12_witness :
  PrimFloat.is_nan 1000 = false /\
  PrimFloat.leb 6 (seatSize 1000) = true /\
  PrimFloat.leb (seatSize 1000) 12 = true.
Proof.
  assert (PrimFloat.is_nan 1000 = false) as H by reflexivity.
  split; [ exact H |].
  exact (proj1 (seat_size_is_between_6_and_12 1000%float) H).
Defined.

(** X14. The success rate [getRequestStats] prints is computed in
    binary64: it is 0 before any request, exactly 100 when no request has
    failed and exactly 0 when all have, for every count below 2^53. *)
Theorem success_rate_at_the_ends :
  forall this,
    let total := CongressAPIService.requestCount this in
    let failed := CongressAPIService.failedCount this in
    (total <= 0 -> CongressAPIService.tasaExito this = 0%float) /\
    (0 < total < 2 ^ 53 -> failed = 0 ->
     CongressAPIService.tasaExito this = 100%float) /\
    (0 < total < 2 ^ 53 -> failed = total ->
     CongressAPIService.tasaExito this = 0%float).
Proof.
  intros this total failed. unfold CongressAPIService.tasaExito.
  fold total failed. clearbody total failed. repeat split.
  - intros H. destruct (Z.gtb_spec total 0); [ lia | reflexivity ].
  - intros H ->. destruct (Z.gtb_spec total 0); [| lia ].
    rewrite Z.sub_0_r, num_div_self by exact H. reflexivity.
  - intros H ->. destruct (Z.gtb_spec total 0); [| lia ].
    rewrite Z.sub_diag. change (num 0) with 0%float.
    rewrite zero_div_num by exact H. reflexivity.
Qed.

Lemma success_rate_at_the_ends_witness :
  0 < 7 < 2 ^ 53 /\
  CongressAPIService.tasaExito (CongressAPIService.mk [] 7 0) = 100%float.
Proof.
  assert (0 < 7 < 2 ^ 53) as H by (split; reflexivity).
  split; [ exact H |].
  exact (proj1 (proj2 (success_rate_at_the_ends
                         (CongressAPIService.mk [] 7 0)))
           H eq_refl).
Defined.

(** X15. A row of two seats or more spans the half circle: the angle
    of its first seat is exactly [Math.PI], that of its last seat is
    exactly 0, and the row has one position for each of its seats. *)
Theorem row_spans_the_half_circle :
  forall Math_cos Math_sin size row seatsInRow,
    2 <= seatsInRow < 2 ^ 53 ->
    exists between,
      map angle (rowPositions Math_cos Math_sin size row seatsInRow)
      = Math_PI :: between ++ [0%float] /\
      List.length between = Z.to_nat (seatsInRow - 2).
Proof.
  intros Math_cos Math_sin size row k Hk.
  unfold rowPositions. cbv zeta. rewrite map_map. cbn [angle].
  destruct (Z.to_nat k) as [| [| n]] eqn:En; try lia.
  assert (Z.of_nat (S n) = k - 1) as Hlast by lia.
  change (seq 0 (S (S n))) with (0%nat :: seq 1 (S n)).
  rewrite seq_S, map_cons, map_app. cbn [map].
  eexists. split.
  - f_equal; [| f_equal ].
    + change (num (Z.of_nat 0)) with 0%float.
      rewrite zero_div_num by lia. reflexivity.
    + replace (1 + n)%nat with (S n) by reflexivity.
      rewrite Hlast, num_div_self by lia. reflexivity.
  - rewrite length_map, length_seq. lia.
Qed.

Lemma row_spans_the_half_circle_witness :
  2 <= 20 < 2 ^ 53 /\
  exists between,
    map angle (rowPositions Sample.cos Sample.sin 340 0 20)
    = Math_PI :: between ++ [0%float] /\
    List.length between = Z.to_nat (20 - 2).
Proof.
  assert (2 <= 20 < 2 ^ 53) as H by (split; [ discriminate | reflexivity ]).
  split; [ exact H |].
  exact (row_spans_the_half_circle Sample.cos Sample.sin 340%float 0 20 H).
Defined.

Lemma Math_floor_finite_neg (f : float) (m : positive) (e : Z) :
  Prim2SF f = S754_finite false m e -> e < 0 ->
  Math_floor f = num (Zpos m / 2 ^ (- e)).
Proof.
  intros Hf He. unfold Math_floor. rewrite Hf.
  destruct (Z.leb_spec 0 e); [ lia | reflexivity ].
Qed.

(** The quotient of a time span below 2^51 ms by the length of a year,
    rounded to binary64 and then down to an integer, is the integer
    quotient. *)
Lemma floor_div_year (a : Z) :
  0 < a < 2 ^ 51 ->
  Math_floor (num a / (1000 * 60 * 60 * 24 * 365.25))%float
  = num (a / yearMs).
Proof.
  intros [Ha Ha51].
  assert (2 ^ 51 < 2 ^ 53) as H5153 by (apply Z.pow_lt_mono_r; lia).
  destruct (num_spec a) as (ma & Hnum & Hma & Hdma); [ lia |].
  pose proof (Zdigits2_pos a Ha) as Hdpos.
  pose proof (Zdigits2_lt_pow a 51 Ha ltac:(lia) Ha51) as Hd51.
  set (d := Zdigits2 a) in *.
  pose proof (Zdigits2_bounds (Zpos ma) ltac:(lia)) as [Hmlo Hmhi].
  rewrite Hdma in Hmlo, Hmhi. change (53 - 1) with 52 in Hmlo.
  set (P := 2 ^ (53 - d)) in *.
  set (mb := 8272635494400000%positive).
  assert (Prim2SF (1000 * 60 * 60 * 24 * 365.25)%float
          = S754_finite false mb (-18)) as HY by reflexivity.
  set (q := (Zpos ma * 2 ^ 53) / Zpos mb).
  assert (exists lz,
            Prim2SF (num a / (1000 * 60 * 60 * 24 * 365.25))%float
            = binary_round_aux prec emax false q (d - 88) lz)
    as (lz & Hdiv).
  { rewrite FloatAxioms.div_spec, Hnum, HY. unfold SF64div, SFdiv.
    unfold SFdiv_core_binary. rewrite Hdma.
    change (Zdigits2 (Zpos mb)) with 53.
    rewrite fexp_normal by lia.
    replace (Z.min (53 + (d - 53) - (53 + -18) - 53) (d - 53 - -18))
      with (d - 88) by lia.
    replace (d - 53 - -18 - (d - 88)) with 53 by lia.
    cbv iota. rewrite Z.shiftl_mul_pow2 by lia.
    assert (fst (Z.div_eucl (Zpos ma * 2 ^ 53) (Zpos mb)) = q) as Hq
        by reflexivity.
    destruct (Z.div_eucl (Zpos ma * 2 ^ 53) (Zpos mb)) as [q' r].
    simpl in Hq. subst q'. eexists. reflexivity. }
  set (W := 2 ^ (88 - d)).
  assert (0 < P) as HP by (apply Z.pow_pos_nonneg; lia).
  assert (W = P * 2 ^ 35) as HW.
  { unfold W, P. rewrite <- Z.pow_add_r by lia. f_equal. lia. }
  assert (2 ^ 37 <= W) as HW37 by (apply Z.pow_le_mono_r; lia).
  assert (q = (a * W) / yearMs) as Hq.
  { unfold q. rewrite Hma. fold P.
    change (Zpos mb) with (yearMs * 2 ^ 18).
    change (2 ^ 53) with (2 ^ 35 * 2 ^ 18).
    replace (a * P * (2 ^ 35 * 2 ^ 18)) with (a * W * 2 ^ 18)
      by (rewrite HW; ring).
    apply Z.div_mul_cancel_r; [ discriminate | discriminate ]. }
  assert (2 ^ 52 <= q < 2 ^ 54) as [Hqlo Hqhi].
  { unfold q. split.
    - apply Z.div_le_lower_bound; [ lia |].
      change (Zpos mb) with 8272635494400000.
      change (2 ^ 52) with 4503599627370496 in *.
      change (2 ^ 53) with 9007199254740992 in *. lia.
    - apply Z.div_lt_upper_bound; [ lia |].
      change (Zpos mb) with 8272635494400000.
      change (2 ^ 54) with 18014398509481984.
      change (2 ^ 53) with 9007199254740992 in *. lia. }
  pose proof (Zdigits2_lt_pow q 54 ltac:(lia) ltac:(lia) Hqhi) as Hdq.
  destruct (binary_round_aux_bounds q (d - 88) lz)
    as (m3 & k & Hround & Hk & Hm3lo & Hm3hi); try lia.
  rewrite Hround in Hdiv.
  assert (0 <= k <= 2) as Hk2 by lia.
  assert (d - 88 + k < 0) as He3 by lia.
  rewrite (Math_floor_finite_neg _ _ _ Hdiv He3). f_equal.
  set (D := 2 ^ (- (d - 88 + k))).
  assert (0 < D) as HD by (apply Z.pow_pos_nonneg; lia).
  assert (1 <= 2 ^ k <= 4) as HpK.
  { split; [ apply (Z.pow_le_mono_r 2 0 k); lia |].
    apply (Z.pow_le_mono_r 2 k 2); lia. }
  assert (2 ^ k * D = W) as HkD.
  { unfold D, W. rewrite <- Z.pow_add_r by lia. f_equal. lia. }
  set (n := a / yearMs).
  assert (n * yearMs <= a < (n + 1) * yearMs) as [Hnlo Hnhi].
  { unfold n. pose proof (Z.div_mod a yearMs ltac:(discriminate)).
    pose proof (Z.mod_pos_bound a yearMs ltac:(reflexivity)). lia. }
  assert (0 <= n) as Hn0 by (apply Z.div_pos; [ lia | reflexivity ]).
  set (q1 := q / 2 ^ k) in *.
  assert (q1 * 2 ^ k <= q < (q1 + 1) * 2 ^ k) as [Hq1lo Hq1hi].
  { unfold q1. pose proof (Z.div_mod q (2 ^ k) ltac:(lia)).
    pose proof (Z.mod_pos_bound q (2 ^ k) ltac:(lia)). lia. }
  assert (q * yearMs <= a * W < (q + 1) * yearMs) as [Hqa Hqb].
  { rewrite Hq. pose proof (Z.div_mod (a * W) yearMs ltac:(discriminate)).
    pose proof (Z.mod_pos_bound (a * W) yearMs ltac:(reflexivity)). lia. }
  assert (0 < W) as HWpos by (apply Z.pow_pos_nonneg; lia).
  assert (n * W <= q) as HnW.
  { rewrite Hq. apply Z.div_le_lower_bound; [ reflexivity |].
    replace (yearMs * (n * W)) with (n * yearMs * W) by ring.
    apply Z.mul_le_mono_nonneg_r; lia. }
  assert (q + 2 ^ k < (n + 1) * W) as Hup.
  { assert (2 ^ k * yearMs < W) as Hsmall.
    { change (2 ^ 37) with 137438953472 in HW37. unfold yearMs. lia. }
    assert (a * W <= ((n + 1) * yearMs - 1) * W) as Ha'
        by (apply Z.mul_le_mono_nonneg_r; lia).
    apply (Z.mul_lt_mono_pos_r yearMs); [ reflexivity |].
    clear - Hqa Ha' Hsmall. unfold yearMs in *. lia. }
  symmetry. apply (Z.div_unique_pos _ _ n (Zpos m3 - n * D)); [| ring ].
  split.
  - (* n D <= q1 <= m3 *)
    assert (n * D <= q1); [| lia ].
    assert (n * D * 2 ^ k <= q) as HnD.
    { replace (n * D * 2 ^ k) with (n * (2 ^ k * D)) by ring.
      now rewrite HkD. }
    unfold q1. apply Z.div_le_lower_bound; [ lia |].
    now rewrite Z.mul_comm.
  - (* m3 <= q1 + 1 < (n + 1) D *)
    assert (q1 + 1 < (n + 1) * D); [| lia ].
    apply (Z.mul_lt_mono_pos_r (2 ^ k)); [ lia |].
    replace ((n + 1) * D * 2 ^ k) with ((n + 1) * W) by (rewrite <- HkD; ring).
    clear - Hq1lo Hup. lia.
Qed.

(** X16. The age a screen prints is the number of whole years of 365.25
    days between the date of birth and now: the binary64 quotient,
    rounded and then floored, is the integer quotient for every span below
    2^51 ms; a date of birth that does not parse gives NaN. *)
Theorem age_is_whole_years :
  forall getTime now birthDate,
    (forall birth,
       getTime birthDate = Some birth ->
       0 < now - birth < 2 ^ 51 ->
       calculateAge getTime now birthDate = num ((now - birth) / yearMs)) /\
    (getTime birthDate = None ->
     PrimFloat.is_nan (calculateAge getTime now birthDate) = true).
Proof.
  intros getTime now birthDate. unfold calculateAge. split.
  - intros birth -> H. now apply floor_div_year.
  - intros ->. reflexivity.
Qed.

Lemma age_is_whole_years_witness :
  Iso.getTime "1980-05-17" = Some 327369600000 /\
  0 < Sample.today - 327369600000 < 2 ^ 51 /\
  calculateAge Iso.getTime Sample.today "1980-05-17"
  = num ((Sample.today - 327369600000) / yearMs) /\
  (Sample.today - 327369600000) / yearMs = 43.
Proof.
  assert (Iso.getTime "1980-05-17" = Some 327369600000) as H
      by (vm_compute; reflexivity).
  assert (0 < Sample.today - 327369600000 < 2 ^ 51) as H'
      by (split; reflexivity).
  split; [ exact H |]. split; [ exact H' |].
  split; [| reflexivity ].
  exact (proj1 (age_is_whole_years Iso.getTime Sample.today "1980-05-17")
           327369600000 H H').
Defined.

